(** * DijNAV: shortest paths over grid and road graphs

    A shallow embedding of the routing core of the repository and the
    properties of its specification: [dijkstra], [haversine] and
    [nearestNodeId] of app.js, the standalone [dijkstra] of
    thefunction.js, [buildGridGraph] of graph.js, and [fetchRoadGraph]
    of osm.js.  The text of osm.js follows that of regions.js in one
    file; the line numbers given for osm.js are those of that file.
    Of the page itself, app.js, the part that uses them is embedded
    too: the click on the map that picks the ends of a route, the box
    of [avoidUnpaved], and the drawing of the graph.

    A JavaScript number is a finite number of a carrier [W], or
    [Infinity], [-Infinity] or [NaN].  A sum, a difference or a product
    of two finite numbers is a number again, finite or not: a carrier
    may round its results and may run out of range.  [dijkstra] and the
    guard of [fetchRoadGraph] are embedded over every such carrier, and
    what is proved of them is proved from order facts that hold of
    binary64, the numbers of JavaScript, as well as of exact
    arithmetic.  Three carriers are given: binary64, with the
    operations of the processor, on which examples are run; the
    rationals; and the reals, over which the haversine formula, the
    grid, the road graph and the page are embedded.  There the sine, the
    cosine, the root and the arc sine are those of the reals, and a
    property stated of a distance is a property of the formula. *)

From Stdlib Require Import Floats.
From Stdlib Require Import QArith Reals Lra Lia.
From stdpp Require Import gmap strings list fin_maps pretty.

#[local] Set Warnings "-clear-no-such-hyp".

(* ================================================================== *)
(** * Numbers *)
(* ================================================================== *)

(** A JavaScript number: a finite one, [Infinity], [-Infinity], or
    [NaN]. *)
Inductive number (W : Type) : Type :=
  | Fin (x : W)
  | Infinity
  | NegInfinity
  | NaN.
Arguments Fin {W} x.
Arguments Infinity {W}.
Arguments NegInfinity {W}.
Arguments NaN {W}.

(** The finite numbers [W] and the arithmetic the code performs on
    them: the literals, [+], [-], [*] and [<].  A sum, a difference or a
    product of finite numbers is a number: the finite result, rounded as
    the carrier rounds, or what the carrier gives when the result is
    out of its range. *)
Class NumOps (W : Type) := {
  num0 : W;
  num1 : W;
  num_lit : Q → W;
  num_add : W → W → number W;
  num_sub : W → W → number W;
  num_mul : W → W → number W;
  num_ltb : W → W → bool;
}.

(** [a ≤ b] is "not [b < a]": the only comparison the code performs is [<]. *)
Definition num_le `{NumOps W} (a b : W) : Prop := num_ltb b a = false.

(** A number below [Infinity] that is not [NaN]: what [d < Infinity]
    says of [d]. *)
Definition below_infinity {W} (d : number W) : bool :=
  match d with
  | Fin _ | NegInfinity => true
  | Infinity | NaN => false
  end.

Section JsNumber.
Context {W : Type} `{NumOps W}.

(** [a < b] on numbers: false as soon as an operand is [NaN]. *)
Definition js_lt (a b : number W) : bool :=
  match a, b with
  | Fin x, Fin y => num_ltb x y
  | Fin _, Infinity => true
  | NegInfinity, Fin _ => true
  | NegInfinity, Infinity => true
  | _, _ => false
  end.

(** [a + b] *)
Definition js_add (a b : number W) : number W :=
  match a, b with
  | NaN, _ | _, NaN => NaN
  | Fin x, Fin y => num_add x y
  | Infinity, NegInfinity | NegInfinity, Infinity => NaN
  | Infinity, _ | _, Infinity => Infinity
  | NegInfinity, _ | _, NegInfinity => NegInfinity
  end.

(** The sign of a finite factor decides the product with an infinity;
    with [0] the product is [NaN]. *)
Definition js_mul_inf (positive : bool) (x : W) : number W :=
  if num_ltb num0 x then (if positive then Infinity else NegInfinity)
  else if num_ltb x num0 then (if positive then NegInfinity else Infinity)
  else NaN.

(** [a * b] *)
Definition js_mul (a b : number W) : number W :=
  match a, b with
  | NaN, _ | _, NaN => NaN
  | Fin x, Fin y => num_mul x y
  | Infinity, Fin y => js_mul_inf true y
  | NegInfinity, Fin y => js_mul_inf false y
  | Fin x, Infinity => js_mul_inf true x
  | Fin x, NegInfinity => js_mul_inf false x
  | Infinity, Infinity | NegInfinity, NegInfinity => Infinity
  | Infinity, NegInfinity | NegInfinity, Infinity => NegInfinity
  end.

(** [Math.max(0, a)] *)
Definition js_max0 (a : number W) : number W :=
  match a with
  | Fin x => if num_ltb x num0 then Fin num0 else Fin x
  | Infinity => Infinity
  | NegInfinity => Fin num0
  | NaN => NaN
  end.

(** [a ≤ b] on numbers: neither is [NaN], and [b < a] is false. *)
Definition js_le (a b : number W) : Prop :=
  a ≠ NaN ∧ b ≠ NaN ∧ js_lt b a = false.

(** Reading a property that may be absent: [undefined] becomes [NaN]
    when used as an operand of [<] or [+]. *)
Definition to_number (v : option (number W)) : number W :=
  match v with
  | Some n => n
  | None => NaN
  end.
End JsNumber.

(** The order facts the shortest-path argument uses.  They hold where
    the arithmetic is exact (the rationals and the reals, instances
    below), and they hold of the finite numbers of binary64, whose
    operations round every result to the nearest number of the format:
    [<] is a total order, rounding keeps the order, a sum does not
    depend on the order of its operands, a product by [1] is exact, and
    a result too large for the format is [Infinity]. *)
Class NumLaws (W : Type) `{NumOps W} := {
  num_le_refl : ∀ a : W, num_le a a;
  num_le_trans : ∀ a b c : W, num_le a b → num_le b c → num_le a c;
  num_lt_le : ∀ a b : W, num_ltb a b = true → num_le a b;
  num_add_comm : ∀ a b : W, num_add a b = num_add b a;
  num_add_mono : ∀ a b c : W, num_le a b → js_le (num_add a c) (num_add b c);
  num_add_nonneg : ∀ a c : W, num_le num0 c → js_le (Fin a) (num_add a c);
  num_mul_mono : ∀ w f f' : W,
    num_le num0 w → num_le f f' → js_le (num_mul w f) (num_mul w f');
  num_mul_1 : ∀ w : W, num_mul w num1 = Fin w;
  num_0_le_1 : num_le (num0 : W) num1;
  num_1_le_3 : num_le (num1 : W) (num_lit 3);
}.

(** ** binary64

    The numbers of JavaScript themselves, with the operations of the
    processor.  The carrier holds every value of the format; [classify]
    tells the finite ones from the infinities and [NaN], so that a
    [Fin x] made by an operation always has a finite [x]. *)
Module Binary64.
Definition classify (x : float) : number float :=
  if PrimFloat.is_nan x then NaN
  else if PrimFloat.is_infinity x
       then (if PrimFloat.ltb x PrimFloat.zero then NegInfinity else Infinity)
       else Fin x.

(** An integer below [2^63] in absolute value, as the nearest number. *)
Definition of_Z (z : Z) : float :=
  match z with
  | Z0 => PrimFloat.zero
  | Zpos _ => PrimFloat.of_uint63 (Uint63.of_Z z)
  | Zneg p => PrimFloat.opp (PrimFloat.of_uint63 (Uint63.of_Z (Zpos p)))
  end.

(** A decimal literal [n/d], numerator and denominator below [2^53]:
    the number nearest to the quotient. *)
Definition lit (q : Q) : float :=
  PrimFloat.div (of_Z (Qnum q)) (of_Z (Zpos (Qden q))).

(** The rational a finite number stands for. *)
Definition exact (x : float) : option Q :=
  match Prim2SF x with
  | S754_zero _ => Some 0%Q
  | S754_finite s m e => Some ((if s then -1 else 1) * inject_Z (Zpos m) * 2 ^ e)%Q
  | S754_infinity _ | S754_nan => None
  end.
End Binary64.

#[export] Instance binary64_ops : NumOps float := {|
  num0 := PrimFloat.zero;
  num1 := PrimFloat.one;
  num_lit := Binary64.lit;
  num_add := λ a b, Binary64.classify (PrimFloat.add a b);
  num_sub := λ a b, Binary64.classify (PrimFloat.sub a b);
  num_mul := λ a b, Binary64.classify (PrimFloat.mul a b);
  num_ltb := PrimFloat.ltb;
|}.

(** ** Exact arithmetic on the rationals and on the reals *)
#[export] Instance Q_ops : NumOps Q := {|
  num0 := 0%Q;
  num1 := 1%Q;
  num_lit := λ q, q;
  num_add := λ a b, Fin (a + b)%Q;
  num_sub := λ a b, Fin (a - b)%Q;
  num_mul := λ a b, Fin (a * b)%Q;
  num_ltb := λ a b, negb (Qle_bool b a);
|}.

#[export] Instance R_ops : NumOps R := {|
  num0 := 0%R;
  num1 := 1%R;
  num_lit := Q2R;
  num_add := λ a b, Fin (a + b)%R;
  num_sub := λ a b, Fin (a - b)%R;
  num_mul := λ a b, Fin (a * b)%R;
  num_ltb := λ a b, if Rlt_dec a b then true else false;
|}.

(* ================================================================== *)
(** * Outcomes of a call *)
(* ================================================================== *)

(** What a [throw] carries. *)
Inductive JsError : Type :=
  | Error (message : string)
  | TypeError.

(** A call returns a value or throws.  [OutOfFuel] is the verdict of a
    loop of the model whose iteration bound was exhausted; the theorems
    show that it does not occur. *)
Inductive outcome (A : Type) : Type :=
  | Returned (a : A)
  | Thrown (e : JsError)
  | OutOfFuel.
Arguments Returned {A} a.
Arguments Thrown {A} e.
Arguments OutOfFuel {A}.

#[export] Instance outcome_bind : MBind outcome := λ A B f m,
  match m with
  | Returned a => f a
  | Thrown e => Thrown e
  | OutOfFuel => OutOfFuel
  end.

(* ================================================================== *)
(** * Insertion-ordered sets (JavaScript [Set]) *)
(* ================================================================== *)

Module JsSet.
(** [s.has(x)] *)
Definition has (s : list string) (x : string) : bool := bool_decide (x ∈ s).

(** [s.add(x)]: a new element goes last, a present one changes nothing. *)
Definition add (s : list string) (x : string) : list string :=
  if has s x then s else s ++ [x].

(** [s.delete(x)] *)
Definition delete (s : list string) (x : string) : list string :=
  filter (λ y, y ≠ x) s.

(** [new Set(l)] *)
Definition of_list (l : list string) : list string := fold_left add l [].

(** [s.size] *)
Definition size (s : list string) : nat := length s.
End JsSet.

(* ================================================================== *)
(** * The graph model *)
(* ================================================================== *)

(** An entry of an adjacency list: [{ to, weight, unpaved, surface }]. *)
Record AdjEntry (W : Type) : Type := mkAdjEntry {
  to : string;
  weight : W;
  unpaved : bool;
  surface : string;
}.
Arguments mkAdjEntry {W}.
Arguments to {W}.
Arguments weight {W}.
Arguments unpaved {W}.
Arguments surface {W}.

(** The adjacency object, as the list of its own properties in
    [Object.keys] order. *)
Definition Adjacency (W : Type) : Type := list (string * list (AdjEntry W)).

(** [Object.keys(adjacency)] *)
Definition keys {W} (adjacency : Adjacency W) : list string := adjacency.*1.

(** [adjacency[u]] *)
Fixpoint adj_get {W} (adjacency : Adjacency W) (u : string) : option (list (AdjEntry W)) :=
  match adjacency with
  | [] => None
  | (k, es) :: rest => if decide (k = u) then Some es else adj_get rest u
  end.

(* ================================================================== *)
(** * Great-circle distance *)
(* ================================================================== *)

(** A point [{ lat, lng }], in degrees. *)
Record LatLng : Type := mkLatLng {
  lat : R;
  lng : R;
}.

(** A node [{ id, lat, lng }] of a graph. *)
Module Node.
Record t : Type := mk {
  id : string;
  lat : R;
  lng : R;
}.
End Node.

(** [deg => deg * Math.PI / 180] *)
Definition toRad (deg : R) : R := (deg * PI / 180)%R.

(** [haversine(a, b)], in meters: app.js lines 66-77, graph.js lines
    24-35 and osm.js lines 26-37 have the same text.  [Math.sqrt] of a
    negative number is [NaN], and so is all that is computed from it. *)
Definition haversine (a b : LatLng) : number R :=
  let R_earth := 6371000%R in
  let dLat := toRad (lat b - lat a) in
  let dLng := toRad (lng b - lng a) in
  let lat1 := toRad (lat a) in
  let lat2 := toRad (lat b) in
  let sinDLat := sin (dLat / 2) in
  let sinDLng := sin (dLng / 2) in
  let h := (sinDLat * sinDLat + cos lat1 * cos lat2 * sinDLng * sinDLng)%R in
  if Rlt_dec h 0 then NaN
  else Fin (2 * R_earth * asin (Rmin 1 (sqrt h)))%R.

(* ================================================================== *)
(** * app.js *)
(* ================================================================== *)

(** The options object of [dijkstra]; an absent property is [None]. *)
Record Opts (W : Type) : Type := mkOpts {
  avoidUnpaved : option bool;
  unpavedFactor : option W;
}.
Arguments mkOpts {W}.
Arguments avoidUnpaved {W}.
Arguments unpavedFactor {W}.

(** [{ distance, path, visitedCount }]; [distance = None] is [undefined]. *)
Record PathResult (W : Type) : Type := mkPathResult {
  distance : option (number W);
  path : list string;
  visitedCount : nat;
}.
Arguments mkPathResult {W}.
Arguments distance {W}.
Arguments path {W}.
Arguments visitedCount {W}.

Module App.
Section Dijkstra.
Context {W : Type} `{NumOps W}.

(** The loop variables: [dist] and [prev] are objects without
    prototype ([Object.create(null)]), [visited] and [queue] are Sets. *)
Record state : Type := mkState {
  dist : gmap string (number W);
  prev : gmap string string;
  visited : list string;
  queue : list string;
}.

(** Lines 22-29: the node of the queue with the smallest [dist], the
    first one in queue order among equals; [None] is [null]. *)
Definition pick_step (dist : gmap string (number W))
    (acc : option string * number W) (n : string) : option string * number W :=
  if js_lt (to_number (dist !! n)) acc.2
  then (Some n, to_number (dist !! n))
  else acc.

Definition pick (dist : gmap string (number W)) (queue : list string)
    : option string * number W :=
  fold_left (pick_step dist) queue (None, Infinity).

(** The multiplier of an edge: [(avoidUnpaved && unpaved) ? unpavedFactor : 1]. *)
Definition factor_of (avoid : bool) (uf : W) (e : AdjEntry W) : W :=
  if avoid && unpaved e then uf else num1.

(** Lines 37-45, one edge. *)
Definition relax (avoid : bool) (uf : W) (visited : list string) (u : string)
    (dp : gmap string (number W) * gmap string string) (e : AdjEntry W)
    : gmap string (number W) * gmap string string :=
  if JsSet.has visited (to e) then dp
  else
    let alt := js_add (to_number (dp.1 !! u)) (num_mul (weight e) (factor_of avoid uf e)) in
    if js_lt alt (to_number (dp.1 !! to e))
    then (<[to e := alt]> dp.1, <[to e := u]> dp.2)
    else dp.

(** Lines 20-46: the [while (queue.size)] loop. *)
Fixpoint loop (adjacency : Adjacency W) (goal : string) (avoid : bool) (uf : W)
    (fuel : nat) (st : state) : outcome state :=
  match queue st with
  | [] => Returned st
  | _ :: _ =>
    match fuel with
    | O => OutOfFuel
    | S fuel' =>
      match (pick (dist st) (queue st)).1 with
      | None => Returned st
      | Some u =>
        let queue' := JsSet.delete (queue st) u in
        let visited' := JsSet.add (visited st) u in
        if decide (u = goal)
        then Returned (mkState (dist st) (prev st) visited' queue')
        else
          match adj_get adjacency u with
          | None => Thrown TypeError
          | Some es =>
            let dp := fold_left (relax avoid uf visited' u) es (dist st, prev st) in
            loop adjacency goal avoid uf fuel' (mkState dp.1 dp.2 visited' queue')
          end
      end
    end
  end.

(** Lines 52-55: [while (u !== undefined) { path.unshift(u); u = prev[u]; }] *)
Fixpoint unwind (prev : gmap string string) (fuel : nat)
    (u : option string) (path : list string) : outcome (list string) :=
  match u with
  | None => Returned path
  | Some x =>
    match fuel with
    | O => OutOfFuel
    | S fuel' => unwind prev fuel' (prev !! x) (x :: path)
    end
  end.

(** The literal of [unpavedFactor = 3]. *)
Definition num3 : W := num_lit 3.

(** Line 7: [const { avoidUnpaved = false, unpavedFactor = 3 } = opts]. *)
Definition avoid_of (opts : Opts W) : bool := default false (avoidUnpaved opts).
Definition factor_given (opts : Opts W) : W := default num3 (unpavedFactor opts).

(** Lines 8-18: the tables before the loop. *)
Definition init (adjacency : Adjacency W) (start : string) : state :=
  let nodes := keys adjacency in
  mkState (<[start := Fin num0]> (fold_left (λ d n, <[n := Infinity]> d) nodes ∅))
          ∅ [] (JsSet.of_list nodes).

(** Lines 7-46: the tables after the loop.  Every iteration deletes a
    node from the queue, which bounds the number of iterations. *)
Definition run (adjacency : Adjacency W) (start goal : string) (opts : Opts W)
    : outcome state :=
  let st0 := init adjacency start in
  loop adjacency goal (avoid_of opts) (factor_given opts) (length (queue st0)) st0.

(** Lines 48-56: the path.  The links lead through visited nodes only,
    which bounds the number of steps. *)
Definition rebuild (st : state) (start goal : string) : outcome (list string) :=
  if bool_decide (is_Some (prev st !! goal)) || bool_decide (goal = start)
  then unwind (prev st) (S (length (visited st))) (Some goal) []
  else Returned [].

Definition dijkstra (adjacency : Adjacency W) (start goal : string)
    (opts : Opts W) : outcome (PathResult W) :=
  st ← run adjacency start goal opts;
  path ← rebuild st start goal;
  Returned (mkPathResult (dist st !! goal) path (JsSet.size (visited st))).
End Dijkstra.
End App.


(** ** app.js, [nearestNodeId] *)

Module Nearest.
(** Lines 84-85, for one node; [distance_of n] is what the call of
    [haversine] of line 84 returns for it. *)
Definition scan_step (distance_of : Node.t → number R)
    (acc : option string * number R) (n : Node.t) : option string * number R :=
  let d := distance_of n in
  if js_lt d acc.2 then (Some (Node.id n), d) else acc.

(** Lines 81-86: [(bestId, best)] after the loop; [None] is [null]. *)
Definition scan (distance_of : Node.t → number R) (nodes : list Node.t)
    : option string * number R :=
  fold_left (scan_step distance_of) nodes (None, Infinity).
End Nearest.

(** Lines 80-88, with the function that line 84 calls as an argument:
    what holds of [nearestNodeId] whatever the distances are that
    [haversine] computes, exactly or rounded, is stated of
    [nearestNodeId_with]. *)
Definition nearestNodeId_with (haversine : LatLng → LatLng → number R)
    (latlng : LatLng) (nodes : list Node.t) : outcome (option string) :=
  Returned (Nearest.scan (λ n, haversine latlng (mkLatLng (Node.lat n) (Node.lng n)))
                         nodes).1.

(** Lines 80-88. *)
Definition nearestNodeId (latlng : LatLng) (nodes : list Node.t) : outcome (option string) :=
  nearestNodeId_with haversine latlng nodes.

(* ================================================================== *)
(** * thefunction.js *)
(* ================================================================== *)

(** The values that [dist[k]], [prev[k]] and the elements of [path] can
    be in thefunction.js, where [dist] and [prev] are object literals
    [{}] and so inherit from [Object.prototype]: [VProto k] is the value
    of [Object.prototype[k]], a function (or, for [__proto__], the
    prototype object itself). *)
Inductive jsval (W : Type) : Type :=
  | VUndef
  | VNum (n : number W)
  | VStr (s : string)
  | VProto (name : string).
Arguments VUndef {W}.
Arguments VNum {W} n.
Arguments VStr {W} s.
Arguments VProto {W} name.

Module TheFunction.
(** The property names of [Object.prototype]. *)
Definition object_prototype : list string :=
  [ "constructor"; "__defineGetter__"; "__defineSetter__"; "hasOwnProperty";
    "__lookupGetter__"; "__lookupSetter__"; "isPrototypeOf";
    "propertyIsEnumerable"; "toString"; "valueOf"; "__proto__";
    "toLocaleString" ].

(** [o[k]] when [k] is not an own property of [o = {}]. *)
Definition inherited {W} (k : string) : jsval W :=
  if bool_decide (k ∈ object_prototype) then VProto k else VUndef.

(** [o[k] = v] on an object literal, for a number or a string [v]: the
    [__proto__] setter ignores a value that is not an object. *)
Definition obj_set {V : Type} (o : gmap string V) (k : string) (v : V) : gmap string V :=
  if decide (k = "__proto__") then o else <[k := v]> o.

(** The property key a value is converted to in [prev[u]]. *)
Definition to_key {W} (v : jsval W) : option string :=
  match v with
  | VStr s => Some s
  | VProto name =>
      if decide (name = "__proto__") then Some "[object Object]"
      else if decide (name = "constructor") then Some "function Object() { [native code] }"
      else Some ("function " +:+ name +:+ "() { [native code] }")
  | _ => None
  end.

(** [{ distance, path, visitedCount }] *)
Record Result (W : Type) : Type := mkResult {
  distance : jsval W;
  path : list (jsval W);
  visitedCount : nat;
}.
Arguments mkResult {W}.
Arguments distance {W}.
Arguments path {W}.
Arguments visitedCount {W}.

Section Dijkstra.
Context {W : Type} `{NumOps W}.

Record state : Type := mkState {
  dist : gmap string (number W);
  prev : gmap string string;
  visited : list string;
  queue : list string;
}.

(** [dist[k]] and [prev[k]] *)
Definition dist_get (dist : gmap string (number W)) (k : string) : jsval W :=
  match dist !! k with
  | Some n => VNum n
  | None => inherited k
  end.

Definition prev_get (prev : gmap string string) (k : string) : jsval W :=
  match prev !! k with
  | Some s => VStr s
  | None => inherited k
  end.

(** A value of [dist] as an operand of [<] or [+]: [undefined], a
    function and the prototype object all convert to [NaN]. *)
Definition to_num (v : jsval W) : number W :=
  match v with
  | VNum n => n
  | _ => NaN
  end.

(** Lines 16-19. *)
Definition pick_step (dist : gmap string (number W))
    (acc : option string * number W) (n : string) : option string * number W :=
  if js_lt (to_num (dist_get dist n)) acc.2
  then (Some n, to_num (dist_get dist n))
  else acc.

Definition pick (dist : gmap string (number W)) (queue : list string)
    : option string * number W :=
  fold_left (pick_step dist) queue (None, Infinity).

Definition factor_of (avoid : bool) (uf : W) (e : AdjEntry W) : W :=
  if avoid && unpaved e then uf else num1.

(** Lines 28-36, one edge. *)
Definition relax (avoid : bool) (uf : W) (visited : list string) (u : string)
    (dp : gmap string (number W) * gmap string string) (e : AdjEntry W)
    : gmap string (number W) * gmap string string :=
  if JsSet.has visited (to e) then dp
  else
    let alt := js_add (to_num (dist_get dp.1 u)) (num_mul (weight e) (factor_of avoid uf e)) in
    if js_lt alt (to_num (dist_get dp.1 (to e)))
    then (obj_set dp.1 (to e) alt, obj_set dp.2 (to e) u)
    else dp.

(** Lines 14-37. *)
Fixpoint loop (adjacency : Adjacency W) (goal : string) (avoid : bool) (uf : W)
    (fuel : nat) (st : state) : outcome state :=
  match queue st with
  | [] => Returned st
  | _ :: _ =>
    match fuel with
    | O => OutOfFuel
    | S fuel' =>
      match (pick (dist st) (queue st)).1 with
      | None => Returned st
      | Some u =>
        let queue' := JsSet.delete (queue st) u in
        let visited' := JsSet.add (visited st) u in
        if decide (u = goal)
        then Returned (mkState (dist st) (prev st) visited' queue')
        else
          match adj_get adjacency u with
          | None => Thrown TypeError
          | Some es =>
            let dp := fold_left (relax avoid uf visited' u) es (dist st, prev st) in
            loop adjacency goal avoid uf fuel' (mkState dp.1 dp.2 visited' queue')
          end
      end
    end
  end.

(** Lines 43-46: [while (u !== undefined) { path.unshift(u); u = prev[u]; }] *)
Fixpoint unwind (prev : gmap string string) (fuel : nat)
    (u : jsval W) (path : list (jsval W)) : outcome (list (jsval W)) :=
  match to_key u with
  | None => Returned path
  | Some k =>
    match fuel with
    | O => OutOfFuel
    | S fuel' => unwind prev fuel' (prev_get prev k) (u :: path)
    end
  end.

Definition num3 : W := num_lit 3.
Definition avoid_of (opts : Opts W) : bool := default false (avoidUnpaved opts).
Definition factor_given (opts : Opts W) : W := default num3 (unpavedFactor opts).

(** Lines 3-11. *)
Definition init (adjacency : Adjacency W) (start : string) : state :=
  let nodes := keys adjacency in
  mkState (obj_set (fold_left (λ d n, obj_set d n Infinity) nodes ∅) start (Fin num0))
          ∅ [] (JsSet.of_list nodes).

Definition run (adjacency : Adjacency W) (start goal : string) (opts : Opts W)
    : outcome state :=
  let st0 := init adjacency start in
  loop adjacency goal (avoid_of opts) (factor_given opts) (length (queue st0)) st0.

Definition is_undefined (v : jsval W) : bool :=
  match v with
  | VUndef => true
  | _ => false
  end.

(** Lines 40-47.  The bound on the number of steps is that of app.js,
    with room for the members of the prototype; [OutOfFuel] stands for
    links that do not end within it. *)
Definition rebuild (st : state) (start goal : string) : outcome (list (jsval W)) :=
  if negb (is_undefined (prev_get (prev st) goal)) || bool_decide (goal = start)
  then unwind (prev st) (4 + length (visited st)) (VStr goal) []
  else Returned [].

Definition dijkstra (adjacency : Adjacency W) (start goal : string)
    (opts : Opts W) : outcome (Result W) :=
  st ← run adjacency start goal opts;
  path ← rebuild st start goal;
  Returned (mkResult (dist_get (dist st) goal) path (JsSet.size (visited st))).
End Dijkstra.
End TheFunction.

(** A result of app.js's [dijkstra] as a result of thefunction.js's. *)
Definition of_app {W} (r : PathResult W) : TheFunction.Result W :=
  TheFunction.mkResult
    (match distance r with Some n => VNum n | None => VUndef end)
    (VStr <$> path r) (visitedCount r).

(* ================================================================== *)
(** * Graphs as the builders return them *)
(* ================================================================== *)

(** An edge [{ from, to, weight, unpaved, surface }]; the weight is what
    [haversine] returned. *)
Module Edge.
Record t : Type := mk {
  from : string;
  to : string;
  weight : number R;
  unpaved : bool;
  surface : string;
}.
End Edge.

(** [{ nodes, edges, adjacency }] *)
Module Graph.
Record t : Type := mk {
  nodes : list Node.t;
  edges : list Edge.t;
  adjacency : Adjacency (number R);
}.
End Graph.

(** A loop whose body may throw. *)
Fixpoint for_each {A B : Type} (f : B → A → outcome B) (l : list A) (b : B) : outcome B :=
  match l with
  | [] => Returned b
  | x :: l' => b' ← f b x; for_each f l' b'
  end.

(** The point of a node: [{ lat: n.lat, lng: n.lng }]. *)
Definition point_of (n : Node.t) : LatLng := mkLatLng (Node.lat n) (Node.lng n).

(** ** The adjacency object under construction *)

(** [adjacency[k] = v]: a new key goes last. *)
Fixpoint adj_put {W} (adjacency : Adjacency W) (k : string) (v : list (AdjEntry W))
    : Adjacency W :=
  match adjacency with
  | [] => [(k, v)]
  | (k', v') :: rest =>
      if decide (k' = k) then (k, v) :: rest else (k', v') :: adj_put rest k v
  end.

(** [adjacency[e.from].push({ to, weight, unpaved, surface })]; a
    [TypeError] if [adjacency[e.from]] is undefined. *)
Definition adj_push (adjacency : Adjacency (number R)) (e : Edge.t)
    : outcome (Adjacency (number R)) :=
  match adj_get adjacency (Edge.from e) with
  | None => Thrown TypeError
  | Some l =>
      Returned (adj_put adjacency (Edge.from e)
                  (l ++ [mkAdjEntry (Edge.to e) (Edge.weight e) (Edge.unpaved e) (Edge.surface e)]))
  end.

(** The two loops that build the adjacency lists (graph.js lines 57-59,
    osm.js lines 139-141). *)
Definition build_adjacency (nodes : list Node.t) (edges : list Edge.t)
    : outcome (Adjacency (number R)) :=
  for_each adj_push edges (fold_left (λ adj n, adj_put adj (Node.id n) []) nodes []).

(* ================================================================== *)
(** * graph.js *)
(* ================================================================== *)

Module Grid.
(** Line 21: [idx(r, c)]. *)
Definition idx (cols r c : nat) : nat := r * cols + c.

(** Line 16: one node; [acc] is [(nodes, id)]. *)
Definition push_node (startLat startLng delta : R) (r : nat)
    (acc : list Node.t * nat) (c : nat) : list Node.t * nat :=
  (acc.1 ++ [Node.mk (pretty acc.2)
                     (startLat + INR r * delta)%R (startLng + INR c * delta)%R],
   S acc.2).

(** Lines 14-18. *)
Definition make_nodes (startLat startLng delta : R) (rows cols : nat) : list Node.t * nat :=
  fold_left
    (λ acc r, fold_left (push_node startLat startLng delta r) (seq 0 cols) acc)
    (seq 0 rows) ([], 0).

(** Lines 43-47: the neighbours of a cell, in the order they are pushed. *)
Definition neighbors (rows cols r c : nat) : list nat :=
  (if 0 <? r then [idx cols (r - 1) c] else []) ++
  (if r <? rows - 1 then [idx cols (r + 1) c] else []) ++
  (if 0 <? c then [idx cols r (c - 1)] else []) ++
  (if c <? cols - 1 then [idx cols r (c + 1)] else []).

(** Lines 49-51: one edge; reading a property of [undefined] is a
    [TypeError]. *)
Definition push_edge (nodes : list Node.t) (a : option Node.t)
    (edges : list Edge.t) (j : nat) : outcome (list Edge.t) :=
  match nodes !! j, a with
  | Some b, Some a =>
      Returned (edges ++ [Edge.mk (Node.id a) (Node.id b)
                                  (haversine (point_of a) (point_of b)) false "paved"])
  | _, _ => Thrown TypeError
  end.

(** Lines 41-52: one cell. *)
Definition cell (nodes : list Node.t) (rows cols r : nat)
    (edges : list Edge.t) (c : nat) : outcome (list Edge.t) :=
  let i := idx cols r c in
  let a := nodes !! i in
  for_each (push_edge nodes a) (neighbors rows cols r c) edges.

(** Lines 38-54. *)
Definition make_edges (nodes : list Node.t) (rows cols : nat) : outcome (list Edge.t) :=
  for_each (λ edges r, for_each (cell nodes rows cols r) (seq 0 cols) edges)
           (seq 0 rows) [].

(** The body of [buildGridGraph]. *)
Definition build (center : LatLng) (rows cols : nat) (delta : R) : outcome Graph.t :=
  let startLat := (lat center - (INR rows - 1) * delta / 2)%R in
  let startLng := (lng center - (INR cols - 1) * delta / 2)%R in
  let nodes := (make_nodes startLat startLng delta rows cols).1 in
  edges ← make_edges nodes rows cols;
  adjacency ← build_adjacency nodes edges;
  Returned (Graph.mk nodes edges adjacency).
End Grid.

(** [buildGridGraph(center, rows = 5, cols = 5, delta = 0.002)]; an
    argument left out is [None]. *)
Definition buildGridGraph (center : LatLng) (rows cols : option nat) (delta : option R)
    : outcome Graph.t :=
  Grid.build center (default 5 rows) (default 5 cols) (default (2 / 1000)%R delta).

(* ================================================================== *)
(** * osm.js *)
(* ================================================================== *)

(** [String.prototype.toLowerCase] on a string of ASCII characters: the
    letters [A] to [Z] become [a] to [z], every other character stays.
    A string here is a sequence of bytes, and on a string with a
    character that is not ASCII this definition is not the method of
    JavaScript, which maps such characters by the tables of Unicode
    (the Kelvin sign [U+212A] becomes [k]).  The properties that turn on
    the lower-casing are stated for ASCII strings ([ascii_only]). *)
Definition lower_ascii (ch : Ascii.ascii) : Ascii.ascii :=
  let n := Ascii.nat_of_ascii ch in
  if (65 <=? n) && (n <=? 90) then Ascii.ascii_of_nat (n + 32) else ch.

Fixpoint toLowerCase (s : string) : string :=
  match s with
  | EmptyString => EmptyString
  | String ch rest => String (lower_ascii ch) (toLowerCase rest)
  end.

(** An element of the Overpass answer: [{ type, id, lat, lon, nodes,
    tags }]; a property that is absent is [None] (the coordinates of an
    element are only read when it is a node). *)
Module Element.
Record t : Type := mk {
  type : string;
  id : Z;
  lat : R;
  lon : R;
  nodes : option (list Z);
  tags : option (gmap string string);
}.
End Element.

(** An [L.LatLngBounds], by its two corners; the coordinates are
    numbers of a carrier [C]. *)
Module Bounds.
Record corner (C : Type) : Type := mkCorner {
  lat : C;
  lng : C;
}.
Arguments mkCorner {C}.
Arguments lat {C}.
Arguments lng {C}.

Record t (C : Type) : Type := mk {
  getSouthWest : corner C;
  getNorthEast : corner C;
}.
Arguments mk {C}.
Arguments getSouthWest {C}.
Arguments getNorthEast {C}.
End Bounds.

(** What [fetch] resolves to, as far as the code looks at it: [ok],
    [status], and the outcome of [json()].  A body that can be read is
    taken to have the format of Overpass: an object whose [elements],
    when present, is an array of elements with fields of the types of
    [Element.t].  A body of another shape ([null], [elements] that is
    no array, an element that is [null]) makes lines 86 to 88 throw a
    [TypeError]; such a body has no value here, and the properties of
    the answer are stated for bodies of the format. *)
Module Response.
Record t : Type := mk {
  ok : bool;
  status : nat;
  json : outcome (option (list Element.t));
}.
End Response.

Module Osm.
(** Lines 40-44. *)
Definition bboxAreaDeg2 {C} `{NumOps C} (b : Bounds.t C) : number C :=
  let sw := Bounds.getSouthWest b in
  let ne := Bounds.getNorthEast b in
  js_mul (js_max0 (num_sub (Bounds.lat ne) (Bounds.lat sw)))
         (js_max0 (num_sub (Bounds.lng ne) (Bounds.lng sw))).

(** The options of [fetchRoadGraph] that bear on its result. *)
Record Options (C : Type) : Type := mkOptions {
  highwayFilter : option (list string);
  maxAreaDeg2 : option C;
  endpoint : option string;
}.
Arguments mkOptions {C}.
Arguments highwayFilter {C}.
Arguments maxAreaDeg2 {C}.
Arguments endpoint {C}.

Definition area_message : string :=
  "Selected map area is too large for a client-side Overpass query. Please zoom in.".

(** A [Map], as the list of its entries in insertion order. *)
Fixpoint map_set {V : Type} (m : list (Z * V)) (k : Z) (v : V) : list (Z * V) :=
  match m with
  | [] => [(k, v)]
  | (k', v') :: rest =>
      if decide (k' = k) then (k, v) :: rest else (k', v') :: map_set rest k v
  end.

Fixpoint map_get {V : Type} (m : list (Z * V)) (k : Z) : option V :=
  match m with
  | [] => None
  | (k', v') :: rest => if decide (k' = k) then Some v' else map_get rest k
  end.

(** Lines 88-95, one element; [acc] is [(nodeMap, ways)]. *)
Definition parse_element (acc : list (Z * LatLng) * list Element.t) (el : Element.t)
    : list (Z * LatLng) * list Element.t :=
  if decide (Element.type el = "node")
  then (map_set acc.1 (Element.id el) (mkLatLng (Element.lat el) (Element.lon el)), acc.2)
  else if decide (Element.type el = "way")
  then match Element.nodes el with
       | Some ns => if 2 <=? length ns then (acc.1, acc.2 ++ [el]) else acc
       | None => acc
       end
  else acc.

Definition unpavedSurfaces : list string :=
  [ "unpaved"; "gravel"; "dirt"; "ground"; "earth"; "grass"; "mud"; "sand";
    "pebblestone"; "fine_gravel" ].

Definition unpavedTracktypes : list string := [ "grade2"; "grade3"; "grade4"; "grade5" ].

(** [(tags.k || '').toLowerCase()] *)
Definition tag_lower (tags : gmap string string) (k : string) : string :=
  toLowerCase (default "" (tags !! k)).

(** Lines 97-106. *)
Definition isUnpaved (tags : gmap string string) : bool :=
  let surface := tag_lower tags "surface" in
  let tracktype := tag_lower tags "tracktype" in
  let highway := tag_lower tags "highway" in
  if bool_decide (surface ∈ unpavedSurfaces) then true
  else if negb (bool_decide (tracktype = "")) && bool_decide (tracktype ∈ unpavedTracktypes)
  then true
  else if bool_decide (highway = "track") then true
  else false.

(** Lines 111-115, one entry of [nodeMap]; [acc] is [(nodes, idToIndex)]. *)
Definition index_node (acc : list Node.t * list (Z * string)) (entry : Z * LatLng)
    : list Node.t * list (Z * string) :=
  let id := "n" +:+ pretty entry.1 in
  (acc.1 ++ [Node.mk id (lat entry.2) (lng entry.2)], map_set acc.2 entry.1 id).

(** A string is truthy when it is not empty. *)
Definition truthy (s : option string) : bool :=
  match s with
  | Some s => negb (bool_decide (s = ""))
  | None => false
  end.

(** Line 122: the [surface] of the edges of a way. *)
Definition surface_of (way : Element.t) (unpaved : bool) : string :=
  match Element.tags way with
  | Some tags =>
      if truthy (tags !! "surface") then toLowerCase (default "" (tags !! "surface"))
      else if unpaved then "unpaved" else "paved"
  | None => if unpaved then "unpaved" else "paved"
  end.

(** Lines 124-135, one pair of consecutive nodes of a way. *)
Definition push_segment (nodeMap : list (Z * LatLng)) (idToIndex : list (Z * string))
    (unpaved : bool) (surface : string) (edges : list Edge.t) (seg : Z * Z)
    : list Edge.t :=
  match map_get nodeMap seg.1, map_get nodeMap seg.2 with
  | Some a, Some b =>
      let weight := haversine a b in
      if truthy (map_get idToIndex seg.1) && truthy (map_get idToIndex seg.2)
      then
        let from := default "" (map_get idToIndex seg.1) in
        let to := default "" (map_get idToIndex seg.2) in
        edges ++ [Edge.mk from to weight unpaved surface;
                  Edge.mk to from weight unpaved surface]
      else edges
  | _, _ => edges
  end.

(** The pairs [(wayNodes[i], wayNodes[i + 1])], for [i] from [0] to
    [wayNodes.length - 2]. *)
Definition segments (wayNodes : list Z) : list (Z * Z) :=
  zip wayNodes (tail wayNodes).

(** Lines 119-136, one way. *)
Definition push_way (nodeMap : list (Z * LatLng)) (idToIndex : list (Z * string))
    (edges : list Edge.t) (way : Element.t) : list Edge.t :=
  let wayNodes := default [] (Element.nodes way) in
  let unpaved := isUnpaved (default ∅ (Element.tags way)) in
  let surface := surface_of way unpaved in
  fold_left (push_segment nodeMap idToIndex unpaved surface) (segments wayNodes) edges.

(** Lines 85-143: the graph of the elements of an answer. *)
Definition parse (elements : list Element.t) : outcome Graph.t :=
  let parsed := fold_left parse_element elements ([], []) in
  let nodeMap := parsed.1 in
  let ways := parsed.2 in
  let indexed := fold_left index_node nodeMap ([], []) in
  let nodes := indexed.1 in
  let idToIndex := indexed.2 in
  let edges := fold_left (push_way nodeMap idToIndex) ways [] in
  adjacency ← build_adjacency nodes edges;
  Returned (Graph.mk nodes edges adjacency).
End Osm.

(** [fetchRoadGraph(bounds, options)], lines 46-144; [fetched] is the
    outcome of the awaited [fetch] of lines 76-81, which the network
    supplies.  The guard of lines 57-60 comes before it. *)
Definition fetchRoadGraph {C} `{NumOps C} (bounds : Bounds.t C) (options : Osm.Options C)
    (fetched : outcome Response.t) : outcome Graph.t :=
  let maxAreaDeg2 := default (num_lit (25 # 10000)) (Osm.maxAreaDeg2 options) in
  if js_lt (Fin maxAreaDeg2) (Osm.bboxAreaDeg2 bounds)
  then Thrown (Error Osm.area_message)
  else
    resp ← fetched;
    if negb (Response.ok resp)
    then Thrown (Error ("Overpass API error: " +:+ pretty (Response.status resp)))
    else
      data ← Response.json resp;
      Osm.parse (default [] data).

(* ================================================================== *)
(** * app.js: picking the ends of a route *)
(* ================================================================== *)

(** The handlers of lines 163-182 and 305-352 and the functions of
    lines 275-300 work on the variables [startId], [endId],
    [startMarker], [endMarker] and [routeLine] and on the texts of the
    status and distance elements.  These make the state below.  What
    the handlers do to the map besides (layers added and removed,
    popups, the view that is fitted) is not part of it, nor is the state
    a handler leaves behind when it throws. *)
Module Ui.

(** [L.marker([lat, lng], { title })] *)
Record Marker : Type := mkMarker {
  marker_lat : R;
  marker_lng : R;
  title : string;
}.

(** The text of the distance element: the number of meters, which
    line 277 prints with one decimal, or the dash of line 278. *)
Inductive DistanceText : Type :=
  | Meters (m : R)
  | Dash.

(** [currentGraph], as far as the handlers read it: the nodes and the
    adjacency object, whose weights are finite numbers. *)
Record graph : Type := mkGraph {
  nodes : list Node.t;
  adjacency : Adjacency R;
}.

Record state : Type := mkState {
  startId : option string;
  endId : option string;
  startMarker : option Marker;
  endMarker : option Marker;
  routeLine : option (list LatLng);
  status : string;
  distanceText : DistanceText;
}.

(** An id in a condition: [null] and the empty string are falsy. *)
Definition truthy (id : option string) : bool :=
  match id with
  | Some s => negb (bool_decide (s = ""))
  | None => false
  end.

(** Lines 276-279: [Number.isFinite] holds of finite numbers only, not
    of [null], [undefined], [Infinity] or [NaN]. *)
Definition setDistance (m : option (number R)) (st : state) : state :=
  mkState (startId st) (endId st) (startMarker st) (endMarker st) (routeLine st)
          (status st)
          (match m with
           | Some (Fin x) => Meters x
           | _ => Dash
           end).

(** Line 275. *)
Definition updateStatus (text : string) (st : state) : state :=
  mkState (startId st) (endId st) (startMarker st) (endMarker st) (routeLine st)
          text (distanceText st).

(** Lines 281-288. *)
Definition resetRoute (st : state) : state :=
  updateStatus "Click on the map to pick start, then end."
    (setDistance None (mkState None None None None None (status st) (distanceText st))).

(** Lines 296-300. *)
Definition drawRoutePolyline (latlngs : list LatLng) (st : state) : state :=
  mkState (startId st) (endId st) (startMarker st) (endMarker st) (Some latlngs)
          (status st) (distanceText st).

(** [currentGraph.nodes.find(n => n.id === id)]; no node has the id
    [null]. *)
Definition find_node (nodes : list Node.t) (id : option string) : option Node.t :=
  match id with
  | Some i => List.find (λ n, bool_decide (Node.id n = i)) nodes
  | None => None
  end.

(** Lines 344-347: the points of the path; [n.lat] is a [TypeError]
    when no node has the id. *)
Definition path_points (nodes : list Node.t) (path : list string) : outcome (list LatLng) :=
  for_each (λ acc id,
              match find_node nodes (Some id) with
              | Some n => Returned (acc ++ [mkLatLng (Node.lat n) (Node.lng n)])
              | None => Thrown TypeError
              end)
           path [].

(** The options of the calls of lines 168 and 332. *)
Definition route_opts (avoid : bool) : Opts R := mkOpts (Some avoid) (Some 3%R).

(** [`Path with ${path.length - 1} edges. ...`] *)
Definition path_status (path : list string) (rest : string) : string :=
  "Path with " +:+ pretty (Z.of_nat (length path) - 1)%Z +:+ " edges. " +:+ rest.

(** [Number.isFinite(distance)] *)
Definition is_finite (m : option (number R)) : bool :=
  match m with
  | Some (Fin _) => true
  | _ => false
  end.

(** Lines 315-322: the click picks the start. *)
Definition pick_start (nid : option string) (node : option Node.t) (st : state)
    : outcome state :=
  match node with
  | None => Thrown TypeError
  | Some n =>
      Returned (mkState nid (endId st)
                  (Some (mkMarker (Node.lat n) (Node.lng n) "Start")) (endMarker st)
                  (routeLine st) "Now click to choose the destination."
                  (distanceText st))
  end.

(** Lines 324-329: the click picks the end. *)
Definition pick_end (nid : option string) (node : option Node.t) (st : state)
    : outcome state :=
  match node with
  | None => Thrown TypeError
  | Some n =>
      Returned (mkState (startId st) nid
                  (startMarker st) (Some (mkMarker (Node.lat n) (Node.lng n) "End"))
                  (routeLine st) (status st) (distanceText st))
  end.

(** Lines 331-351: the route between the two ends.  [path] is an
    array, so that [!path] is false. *)
Definition show_route (g : graph) (avoid : bool) (st : state) : outcome state :=
  r ← App.dijkstra (adjacency g) (default "" (startId st)) (default "" (endId st))
                   (route_opts avoid);
  if bool_decide (path r = []) || negb (is_finite (distance r))
  then
    Returned (mkState (startId st) (endId st) (startMarker st) (endMarker st) None
                "No route found between selected points." Dash)
  else
    latlngs ← path_points (nodes g) (path r);
    Returned (updateStatus
                (path_status (path r)
                   "Click anywhere to start a new route, or use Reset.")
                (setDistance (distance r) (drawRoutePolyline latlngs st))).

(** Lines 305-352: a click on the map at [latlng], with the graph [g]
    in use and the box of [avoidUnpaved] checked or not. *)
Definition click (g : graph) (avoid : bool) (latlng : LatLng) (st : state)
    : outcome state :=
  nid ← nearestNodeId latlng (nodes g);
  let node := find_node (nodes g) nid in
  let st := if truthy (startId st) && truthy (endId st) then resetRoute st else st in
  if negb (truthy (startId st))
  then pick_start nid node st
  else
    st ← (if negb (truthy (endId st)) then pick_end nid node st else Returned st);
    if truthy (startId st) && truthy (endId st)
    then show_route g avoid st
    else Returned st.

(** Lines 163-182: the box of [avoidUnpaved] was changed to [avoid];
    the drawing of the graph of line 164 is left out. *)
Definition avoid_changed (g : graph) (avoid : bool) (st : state) : outcome state :=
  if truthy (startId st) && truthy (endId st)
  then
    let st := mkState (startId st) (endId st) (startMarker st) (endMarker st) None
                      (status st) (distanceText st) in
    r ← App.dijkstra (adjacency g) (default "" (startId st)) (default "" (endId st))
                     (route_opts avoid);
    if negb (bool_decide (path r = []))
    then
      latlngs ← path_points (nodes g) (path r);
      Returned (updateStatus (path_status (path r) "Distance shown below.")
                  (setDistance (distance r) (drawRoutePolyline latlngs st)))
    else Returned st
  else Returned st.

(** What [renderGraph] puts on the layer of the graph: a line for an
    edge, in the colour of line 114, and a dot for a node. *)
Inductive Shape : Type :=
  | Polyline (a b : LatLng) (color : string)
  | CircleMarker (center : LatLng).

(** Line 114. *)
Definition edge_color (unpaved : bool) : string :=
  if unpaved then "#b45309" else "#16a34a".

(** Lines 111-115, one edge: it is left out when an end is not found
    among the nodes. *)
Definition draw_edge (nodes : list Node.t) (layer : list Shape) (e : Edge.t)
    : list Shape :=
  match find_node nodes (Some (Edge.from e)), find_node nodes (Some (Edge.to e)) with
  | Some a, Some b =>
      layer ++ [Polyline (point_of a) (point_of b) (edge_color (Edge.unpaved e))]
  | _, _ => layer
  end.

(** Lines 107-121: the shapes on the layer of the graph after the
    call, which begins by clearing it. *)
Definition renderGraph (g : Graph.t) : list Shape :=
  fold_left (λ layer n, layer ++ [CircleMarker (point_of n)]) (Graph.nodes g)
            (fold_left (draw_edge (Graph.nodes g)) (Graph.edges g) []).
End Ui.

(* ================================================================== *)
(** * Walks and their cost *)
(* ================================================================== *)

Section Walks.
Context {W : Type} `{NumOps W}.

(** A walk from [s] to [t]: consecutive entries of the adjacency
    lists, each taken from the list of the node the previous one
    points to. *)
Inductive is_walk (adjacency : Adjacency W) : string → string → list (AdjEntry W) → Prop :=
  | walk_nil s : is_walk adjacency s s []
  | walk_cons s es e t w :
      adj_get adjacency s = Some es → e ∈ es →
      is_walk adjacency (to e) t w →
      is_walk adjacency s t (e :: w).

(** The nodes a walk from [s] goes through. *)
Definition walk_nodes (s : string) (w : list (AdjEntry W)) : list string :=
  s :: map to w.

(** The cost of an edge under the options: its weight times the
    multiplier if it is unpaved and avoidance is on, its weight
    otherwise. *)
Definition effective_cost (avoid : bool) (uf : W) (e : AdjEntry W) : number W :=
  if avoid && unpaved e then num_mul (weight e) uf else Fin (weight e).

(** The sum of the effective costs along a walk, added up from its
    first edge on. *)
Definition walk_cost (avoid : bool) (uf : W) (w : list (AdjEntry W)) : number W :=
  fold_left (λ acc e, js_add acc (effective_cost avoid uf e)) w (Fin num0).

(** Avoidance is in effect when the options say so; the multiplier is
    the one the options give, and 3 when they give none. *)
Definition avoidance (opts : Opts W) : bool :=
  match avoidUnpaved opts with
  | Some b => b
  | None => false
  end.

Definition multiplier (opts : Opts W) : W :=
  match unpavedFactor opts with
  | Some f => f
  | None => num_lit 3
  end.
End Walks.

(** Over the reals every operation is exact, and the cost of a walk is
    the real sum of its effective costs. *)
Definition real_cost (avoid : bool) (uf : R) (w : list (AdjEntry R)) : R :=
  fold_left (λ acc e, (acc + if avoid && unpaved e then weight e * uf else weight e)%R)
            w 0%R.

(* ================================================================== *)
(** * The vocabulary of the properties *)
(* ================================================================== *)

(** Every weight of every adjacency list is non-negative. *)
Definition weights_nonneg {W} `{NumOps W} (adjacency : Adjacency W) : Prop :=
  Forall (λ kes, Forall (λ e, num_le num0 (weight e)) kes.2) adjacency.

(** The goal was never given a predecessor: the tables after the loop
    have no [prev[goal]]. *)
Definition never_assigned {W} `{NumOps W} (adjacency : Adjacency W) (start goal : string)
    (opts : Opts W) : Prop :=
  ∀ st, App.run adjacency start goal opts = Returned st → App.prev st !! goal = None.

(** ** The invariant of the loop of [dijkstra] *)

Section TableDefs.
Context {W : Type} `{NumOps W}.
Variable adjacency : Adjacency W.
Variables start goal : string.
Variable avoid : bool.
Variable uf : W.
Local Abbreviation state := (@App.state W).

(** The cost the code adds for an edge: [w * factor]. *)
Definition step_cost (e : AdjEntry W) : number W :=
  num_mul (weight e) (App.factor_of avoid uf e).

(** The distance the code accumulates along a walk. *)
Definition code_cost (w : list (AdjEntry W)) : number W :=
  fold_left (λ acc e, js_add acc (step_cost e)) w (Fin num0).

(** The walk that the [prev] links spell out, from [start] to a node:
    all its nodes but the last are visited. *)
Inductive chain (prev : gmap string string) (V : list string)
    : string → list (AdjEntry W) → Prop :=
  | chain_root : chain prev V start []
  | chain_snoc u es e w :
      chain prev V u w → u ∈ V →
      adj_get adjacency u = Some es → e ∈ es →
      prev !! to e = Some u →
      chain prev V (to e) (w ++ [e]).

(** A distance below [Infinity] is the cost of a chain, whose length is
    bounded by the number of visited nodes. *)
Definition tree_ok (dist : gmap string (number W)) (prev : gmap string string)
    (V : list string) (v : string) : Prop :=
  ∀ d, dist !! v = Some d → below_infinity d = true →
    ∃ w, chain prev V v w ∧ code_cost w = d ∧
         length w ≤ length V ∧ (v ∈ V → length w < length V).

(** What holds of [dist] and [prev] when the nodes of [V] have been
    visited. *)
Record tables_ok (dist : gmap string (number W)) (prev : gmap string string)
    (V : list string) : Prop := {
  ok_visited_keys : ∀ x, x ∈ V → x ∈ keys adjacency;
  ok_start : V ≠ [] → start ∈ V;
  ok_dist_keys : ∀ x, x ∈ keys adjacency → is_Some (dist !! x);
  ok_dist_dom : ∀ x, is_Some (dist !! x) → x ∈ keys adjacency ∨ x = start;
  ok_dist_nan : ∀ x, dist !! x ≠ Some NaN;
  ok_prev_start : prev !! start = None;
  ok_prev_fin : ∀ v u, prev !! v = Some u →
                       ∃ d, dist !! v = Some d ∧ below_infinity d = true;
  ok_visited_fin : ∀ x, x ∈ V → ∃ d, dist !! x = Some d ∧ below_infinity d = true;
  ok_tree : ∀ v, tree_ok dist prev V v;
  ok_start_fin : ∃ d, dist !! start = Some d ∧ below_infinity d = true;
}.

(** The invariant of the [while] loop. *)
Record InvS (st : state) : Prop := {
  inv_queue : ∀ x, x ∈ App.queue st ↔ x ∈ keys adjacency ∧ x ∉ App.visited st;
  inv_tables : tables_ok (App.dist st) (App.prev st) (App.visited st);
}.

(** The tables after lines 32-33: [u] leaves the queue and is visited. *)
Definition extract (st : state) (u : string) : state :=
  App.mkState (App.dist st) (App.prev st)
              (JsSet.add (App.visited st) u) (JsSet.delete (App.queue st) u).

(** The tables after lines 37-45: the edges [es] of [u] are relaxed. *)
Definition relaxed (st : state) (u : string) (es : list (AdjEntry W)) : state :=
  App.mkState
    (fold_left (App.relax avoid uf (App.visited st) u) es (App.dist st, App.prev st)).1
    (fold_left (App.relax avoid uf (App.visited st) u) es (App.dist st, App.prev st)).2
    (App.visited st) (App.queue st).

(** The distance of a visited node is a lower bound of the cost of
    every walk to it. *)
Definition lower_bound (st : state) : Prop :=
  ∀ x d w, x ∈ App.visited st → App.dist st !! x = Some d →
           is_walk adjacency start x w → js_le d (code_cost w).

(** Every edge out of a visited node has been relaxed. *)
Definition edges_relaxed (st : state) : Prop :=
  ∀ x es e dx, x ∈ App.visited st → adj_get adjacency x = Some es → e ∈ es →
    to e ∉ App.visited st → App.dist st !! x = Some dx →
    js_lt (js_add dx (step_cost e)) (to_number (App.dist st !! to e)) = false.

(** The invariant of the loop under non-negative weights. *)
Definition InvO (st : state) : Prop :=
  InvS st ∧ lower_bound st ∧ edges_relaxed st ∧ goal ∉ App.visited st.

End TableDefs.

(** ** Distances on the sphere *)

(** Latitude in [-90, 90] and longitude in [-180, 180]. *)
Definition in_range (a : LatLng) : Prop :=
  (-90 <= lat a <= 90)%R ∧ (-180 <= lng a <= 180)%R.

(** The term under the square root. *)
Definition hav_h (a b : LatLng) : R :=
  (sin (toRad (lat b - lat a) / 2) * sin (toRad (lat b - lat a) / 2) +
   cos (toRad (lat a)) * cos (toRad (lat b)) *
   sin (toRad (lng b - lng a) / 2) * sin (toRad (lng b - lng a) / 2))%R.

(** [x == y] on numbers: [NaN] is equal to nothing. *)
Definition js_equal {W} (x y : number W) : Prop :=
  match x, y with
  | Fin a, Fin b => a = b
  | Infinity, Infinity => True
  | NegInfinity, NegInfinity => True
  | _, _ => False
  end.

(** The distance from a point to a node, as line 84 computes it. *)
Definition dist_to (latlng : LatLng) (n : Node.t) : number R :=
  haversine latlng (mkLatLng (Node.lat n) (Node.lng n)).

(** ** The lattice of the grid *)

Section GridDefs.
Variables startLat startLng delta : R.
Variables rows cols : nat.
Variable node : nat → nat → Node.t.

(** The node of row [r] and column [c]. *)
Definition grid_node (r c : nat) : Node.t :=
  Node.mk (pretty (Grid.idx cols r c))
          (startLat + INR r * delta)%R (startLng + INR c * delta)%R.

(** The cells next to cell [(r, c)], in the order of lines 44-47. *)
Definition neighbor_cells (rows cols r c : nat) : list (nat * nat) :=
  (if 0 <? r then [(r - 1, c)] else []) ++
  (if r <? rows - 1 then [(r + 1, c)] else []) ++
  (if 0 <? c then [(r, c - 1)] else []) ++
  (if c <? cols - 1 then [(r, c + 1)] else []).

(** The edge from cell [p] to cell [q]. *)
Definition edge_of (p q : nat * nat) : Edge.t :=
  Edge.mk (Node.id (node p.1 p.2)) (Node.id (node q.1 q.2))
          (haversine (point_of (node p.1 p.2)) (point_of (node q.1 q.2)))
          false "paved".

(** The edges the builder pushes, cell after cell. *)
Definition grid_edges : list Edge.t :=
  flat_map (λ r, flat_map (λ c, map (edge_of (r, c)) (neighbor_cells rows cols r c))
                          (seq 0 cols))
           (seq 0 rows).

End GridDefs.


(** The position of the node of row [i] and column [j] of a grid of
    [rows] by [cols] nodes around [center]. *)
Definition lattice_point (center : LatLng) (rows cols : nat) (delta : R) (i j : nat)
    : LatLng :=
  mkLatLng (lat center - (INR rows - 1) * delta / 2 + INR i * delta)%R
           (lng center - (INR cols - 1) * delta / 2 + INR j * delta)%R.

(** ** The elements of a road graph *)

(** The id of the node of the graph for the OSM node [k]. *)
Definition node_id (k : Z) : string := "n" +:+ pretty k.

Section OsmDefs.
Variable nodeMap : list (Z * LatLng).

(** The edges of one segment: none if an end was not parsed. *)
Definition segment_edges (unpaved : bool) (surface : string) (seg : Z * Z) : list Edge.t :=
  match Osm.map_get nodeMap seg.1, Osm.map_get nodeMap seg.2 with
  | Some a, Some b =>
      [Edge.mk (node_id seg.1) (node_id seg.2) (haversine a b) unpaved surface;
       Edge.mk (node_id seg.2) (node_id seg.1) (haversine a b) unpaved surface]
  | _, _ => []
  end.

(** The edges of one way. *)
Definition way_edges (way : Element.t) : list Edge.t :=
  flat_map (segment_edges (Osm.isUnpaved (default ∅ (Element.tags way)))
                          (Osm.surface_of way
                             (Osm.isUnpaved (default ∅ (Element.tags way)))))
           (Osm.segments (default [] (Element.nodes way))).

End OsmDefs.

(** [nodeMap] and [ways] after lines 86-95. *)
Definition parsed_nodes (elements : list Element.t) : list (Z * LatLng) :=
  (fold_left Osm.parse_element elements ([], [])).1.

Definition parsed_ways (elements : list Element.t) : list Element.t :=
  (fold_left Osm.parse_element elements ([], [])).2.

(** An OSM node was parsed: the answer has an element of type [node]
    with that id. *)
Definition parsed (elements : list Element.t) (k : Z) : Prop :=
  ∃ el, el ∈ elements ∧ Element.type el = "node" ∧ Element.id el = k.


(** The area of a box in square degrees, in the arithmetic of the
    carrier: the height times the width, where a height or a width
    below 0 counts as 0. *)
Definition box_area {C} `{NumOps C} (south west north east : C) : number C :=
  js_mul (js_max0 (num_sub north south)) (js_max0 (num_sub east west)).

(** The bounding box is too large for the options: its area is above
    the threshold, which is 0.0025 when the options give none. *)
Definition too_large {C} `{NumOps C} (bounds : Bounds.t C) (options : Osm.Options C)
    : Prop :=
  js_lt (Fin (default (num_lit (25 # 10000)) (Osm.maxAreaDeg2 options)))
        (box_area (Bounds.lat (Bounds.getSouthWest bounds))
                  (Bounds.lng (Bounds.getSouthWest bounds))
                  (Bounds.lat (Bounds.getNorthEast bounds))
                  (Bounds.lng (Bounds.getNorthEast bounds))) = true.

(** ** Keys that an object literal does not inherit *)

(** A key that [Object.prototype] does not have. *)
Definition plain (k : string) : Prop := k ∉ TheFunction.object_prototype.

(** No key of the adjacency, no end of an edge, and neither the start
    nor the goal is a property of [Object.prototype]. *)
Definition plain_query {W} (adjacency : Adjacency W) (start goal : string) : Prop :=
  plain start ∧ plain goal ∧
  Forall plain (keys adjacency) ∧
  Forall (λ kes : string * list (AdjEntry W), Forall (λ e, plain (to e)) kes.2) adjacency.

(** The tables of app.js as tables of thefunction.js. *)
Definition as_object_tables {W} (st : @App.state W) : @TheFunction.state W :=
  TheFunction.mkState (App.dist st) (App.prev st) (App.visited st) (App.queue st).

(** The radius of the earth of line 67, in meters. *)
Definition earth_radius : R := 6371000%R.

(** ** The order of the links *)

(** [x] was visited, and before [v] if [v] was visited at all. *)
Definition before (V : list string) (x v : string) : Prop :=
  ∃ i, V !! i = Some x ∧ ∀ j, V !! j = Some v → i < j.

(** No node was visited twice, and the predecessor of a node was
    visited before the node. *)
Definition links_ordered (prev : gmap string string) (V : list string) : Prop :=
  NoDup V ∧ ∀ v u, prev !! v = Some u → before V u v.

(** The invariant of the loop, with the order of the links. *)
Definition InvL {W} `{NumOps W} (adjacency : Adjacency W) (start : string)
    (avoid : bool) (uf : W) (st : @App.state W) : Prop :=
  InvS adjacency start avoid uf st ∧ links_ordered (App.prev st) (App.visited st).

(** No entry of the adjacency is unpaved. *)
Definition all_paved {W} (adjacency : Adjacency W) : Prop :=
  Forall (λ kes : string * list (AdjEntry W), Forall (λ e, unpaved e = false) kes.2)
         adjacency.

(** ** Adjacency lists and edge lists *)

(** The entry of an adjacency list for an edge: [{ to: e.to, weight:
    e.weight, unpaved: e.unpaved, surface: e.surface }]. *)
Definition entry_of (e : Edge.t) : AdjEntry (number R) :=
  mkAdjEntry (Edge.to e) (Edge.weight e) (Edge.unpaved e) (Edge.surface e).

(** The entries for the edges that leave the node [k], in the order of
    the list of edges. *)
Definition entries_from (edges : list Edge.t) (k : string) : list (AdjEntry (number R)) :=
  entry_of <$> filter (λ e, Edge.from e = k) edges.

(** The id of the node of a cell of a grid of [cols] columns. *)
Definition cell_id (cols : nat) (p : nat * nat) : string := pretty (p.1 * cols + p.2).

(** ** Adjacency objects with finite weights *)

(** An entry whose weight is a finite number, as the builders store
    it: the weight is what [haversine] returned. *)
Definition lift_entry (e : AdjEntry R) : AdjEntry (number R) :=
  mkAdjEntry (to e) (Fin (weight e)) (unpaved e) (surface e).

Definition lift_adjacency (adjacency : Adjacency R) : Adjacency (number R) :=
  (λ kes : string * list (AdjEntry R), (kes.1, lift_entry <$> kes.2)) <$>
    (adjacency : list (string * list (AdjEntry R))).

(** The finite weight of an entry; 0 stands in for a weight that is
    not finite. *)
Definition finite_part (n : number R) : R :=
  match n with
  | Fin x => x
  | _ => 0%R
  end.

Definition lower_entry (e : AdjEntry (number R)) : AdjEntry R :=
  mkAdjEntry (to e) (finite_part (weight e)) (unpaved e) (surface e).

Definition lower_adjacency (adjacency : Adjacency (number R)) : Adjacency R :=
  (λ kes : string * list (AdjEntry (number R)), (kes.1, lower_entry <$> kes.2)) <$>
    (adjacency : list (string * list (AdjEntry (number R)))).


(** ** The nodes of a road graph *)

(** The node of the graph for an entry of [nodeMap]. *)
Definition node_of (entry : Z * LatLng) : Node.t :=
  Node.mk (node_id entry.1) (lat entry.2) (lng entry.2).

(** The elements of type [node] with the id [k], in the order of the
    answer. *)
Definition node_elements (elements : list Element.t) (k : Z) : list Element.t :=
  filter (λ el, Element.type el = "node" ∧ Element.id el = k) elements.

(** The graph without nodes. *)
Definition empty_graph : Graph.t := Graph.mk [] [] [].

(** ** The ids the builders make *)

(** The first character of a string is a decimal digit. *)
Definition digit_first (s : string) : bool :=
  match s with
  | String ch _ => (48 <=? Ascii.nat_of_ascii ch) && (Ascii.nat_of_ascii ch <=? 57)
  | EmptyString => false
  end.

(* ================================================================== *)
(** * Examples *)
(* ================================================================== *)

(** An entry of an adjacency list, with lengths in meters. *)
Definition road (dest : string) (meters : Q) (is_unpaved : bool) : AdjEntry Q :=
  mkAdjEntry dest meters is_unpaved (if is_unpaved then "gravel" else "paved").

(** Four crossings: the direct road from [a] to [d] through [b] is
    unpaved (100 m), the detour through [c] is paved (250 m); [z] has no
    road at all. *)
Definition town : Adjacency Q :=
  [ ("a", [road "b" 100%Q true; road "c" 125%Q false]);
    ("b", [road "a" 100%Q true; road "d" 0%Q false]);
    ("c", [road "a" 125%Q false; road "d" 125%Q false]);
    ("d", [road "b" 0%Q false; road "c" 125%Q false]);
    ("z", []) ].

(** [{ avoidUnpaved: true, unpavedFactor: 3 }] and [{}]. *)
Definition avoiding : Opts Q := mkOpts (Some true) (Some 3%Q).

Definition no_opts : Opts Q := mkOpts None None.

(** Two graphs with lengths in binary64.  On [steep] the goal [d] is
    two roads of [2^1023] m away from [a].  On [long_way] the road from
    [a] to [d] is [2^53 + 4] m long, and the way through [b] is [2^53]
    and [3] m. *)
Definition steep : Adjacency float :=
  [ ("a", [mkAdjEntry "b" 0x1p+1023%float false "paved"]);
    ("b", [mkAdjEntry "d" 0x1p+1023%float false "paved"]);
    ("d", []) ].

Definition long_way : Adjacency float :=
  [ ("a", [mkAdjEntry "d" 0x1.0000000000002p+53%float false "paved";
           mkAdjEntry "b" 0x1p+53%float false "paved"]);
    ("b", [mkAdjEntry "d" 0x1.8p+1%float false "paved"]);
    ("d", []) ].

(** The sum of the weights of a walk, taken exactly. *)
Definition exact_sum (w : list (AdjEntry float)) : Q :=
  fold_left (λ acc e, (acc + default 0 (Binary64.exact (weight e)))%Q) w 0%Q.

(** Three points. *)
Definition greenwich : LatLng := mkLatLng 51 0.

Definition paris : LatLng := mkLatLng 49 2.

Definition origin : LatLng := mkLatLng 0 0.

(** Two nodes on the equator, one degree east and one degree west of the
    origin, and a third one at the origin. *)
Definition east : Node.t := Node.mk "east" 0 1.

Definition west : Node.t := Node.mk "west" 0 (-1).

Definition here : Node.t := Node.mk "here" 0 0.

(** Two crossings joined by a road; the first one is called
    [constructor]. *)
Definition named_town : Adjacency Q :=
  [ ("constructor", [road "b" 100%Q false]);
    ("b", [road "constructor" 100%Q false]) ].

(** An Overpass answer: three nodes, a gravel way along them, and a
    second way. *)
Definition osm_node (k : Z) (la lo : R) : Element.t :=
  Element.mk "node" k la lo None None.

Definition gravel_way : Element.t :=
  Element.mk "way" 7 0 0 (Some [1; 2; 3]%Z) (Some {[ "surface" := "gravel" ]}).

(** A second way leads on to node 4, which the answer does not contain. *)
Definition dangling_way : Element.t :=
  Element.mk "way" 8 0 0 (Some [3; 4]%Z) None.

Definition answer : list Element.t :=
  [ osm_node 1 0 0; osm_node 2 0 1; osm_node 3 1 1; gravel_way; dangling_way ].

Definition response : Response.t := Response.mk true 200 (Returned (Some answer)).

(** A box of 0.05 by 0.05 degrees: its area is the default threshold. *)
Definition block : Bounds.t R :=
  Bounds.mk (Bounds.mkCorner 30%R 76%R) (Bounds.mkCorner (3005 / 100)%R (7605 / 100)%R).

Definition defaults : Osm.Options R := Osm.mkOptions None None None.

(** Boxes in binary64.  [district] is one degree by one degree.  The
    sides of [edge_box] are [1 + 2^-27] long, and [edge_options] puts
    the threshold at [1 + 2^-26]. *)
Definition district : Bounds.t float :=
  Bounds.mk (Bounds.mkCorner 30%float 76%float) (Bounds.mkCorner 31%float 77%float).

Definition edge_box : Bounds.t float :=
  Bounds.mk (Bounds.mkCorner 0%float 0%float)
            (Bounds.mkCorner 0x1.0000002p+0%float 0x1.0000002p+0%float).

Definition edge_options : Osm.Options float :=
  Osm.mkOptions None (Some 0x1.0000004p+0%float) None.

(** The state after [resetRoute]. *)
Definition fresh_route : Ui.state :=
  Ui.mkState None None None None None "Click on the map to pick start, then end." Ui.Dash.

(** Two nodes a degree apart on the equator, and the road between
    them; the start was picked at the first one. *)
Definition hamlet : Ui.graph :=
  Ui.mkGraph [east; here]
    [ ("east", [mkAdjEntry "here" 111195%R true "gravel"]);
      ("here", [mkAdjEntry "east" 111195%R true "gravel"]) ].

Definition start_picked : Ui.state :=
  Ui.mkState (Some "east") None (Some (Ui.mkMarker 0 1 "Start")) None None
             "Now click to choose the destination." Ui.Dash.

(** The same state when the start was picked on another graph, whose
    node had the id [12]. *)
Definition stale_start : Ui.state :=
  Ui.mkState (Some "12") None (Some (Ui.mkMarker 0 1 "Start")) None None
             "Now click to choose the destination." Ui.Dash.

(** Both ends picked. *)
Definition both_picked : Ui.state :=
  Ui.mkState (Some "east") (Some "here") (Some (Ui.mkMarker 0 1 "Start"))
             (Some (Ui.mkMarker 0 0 "End")) None
             "No route found between selected points." Ui.Dash.

(* ================================================================== *)
(** * Facts about numbers *)
(* ================================================================== *)

Section NumberOrder.
Context {W : Type} `{NumOps W}.

(** What is below something is below [Infinity]. *)
Lemma js_lt_below (a b : number W) : js_lt a b = true → below_infinity a = true.
Proof. by destruct a, b. Qed.

Lemma below_infinity_lt (a : number W) : below_infinity a = js_lt a Infinity.
Proof. by destruct a. Qed.

Lemma js_lt_NaN_r (a : number W) : js_lt a NaN = false.
Proof. by destruct a. Qed.

Lemma js_le_Fin (a b : W) : js_le (Fin a) (Fin b) ↔ num_le a b.
Proof. unfold js_le. simpl. naive_solver. Qed.

Lemma js_le_Infinity (a : number W) : a ≠ NaN → js_le a Infinity.
Proof. intros Ha. split_and!; [done|done|by destruct a]. Qed.
End NumberOrder.

Section NumberFacts.
Context {W : Type} `{NumLaws W}.

Lemma js_lt_irrefl (a : number W) : js_lt a a = false.
Proof. destruct a; simpl; try done. apply num_le_refl. Qed.

(** If [b' < b] and not [y < b], then not [y < b']. *)
Lemma js_lt_lower (y b b' : number W) :
  js_lt y b = false → js_lt b' b = true → js_lt y b' = false.
Proof.
  destruct y as [a| | |], b as [x| | |], b' as [x'| | |]; simpl; try done.
  intros Hxa Hx'x. eapply num_le_trans; [|exact Hxa]. by apply num_lt_le.
Qed.

Lemma js_le_refl (a : number W) : a ≠ NaN → js_le a a.
Proof. intros Ha. split_and!; [done|done|apply js_lt_irrefl]. Qed.

Lemma js_le_trans (a b c : number W) : js_le a b → js_le b c → js_le a c.
Proof.
  intros (Ha & Hb & Hab) (_ & Hc & Hbc). split_and!; [done|done|].
  destruct a as [x| | |], b as [y| | |], c as [z| | |]; simpl in *; try done.
  by eapply num_le_trans.
Qed.

(** What is at least a number that is not below [Infinity] is not
    below it either. *)
Lemma js_le_above (a b : number W) :
  js_le a b → below_infinity a = false → below_infinity b = false.
Proof.
  intros (Ha & Hb & Hab) Hinf. destruct a, b; simpl in *; done.
Qed.

(** Sums keep the order in their first operand. *)
Lemma js_add_mono_l (a b c : number W) :
  a ≠ NegInfinity → js_le a b → js_le (Fin num0) c →
  js_le (js_add a c) (js_add b c).
Proof.
  intros Ha' (Ha & Hb & Hab) (_ & Hc & Hc0).
  destruct c as [z| | |]; try done.
  - destruct a as [x| | |], b as [y| | |]; simpl in *; try done.
    + by apply num_add_mono.
    + apply js_le_Infinity.
      by pose proof (num_add_mono x x z (num_le_refl x)) as (Hn & _ & _).
  - destruct a as [x| | |], b as [y| | |]; simpl in *; try done.
Qed.

(** A sum with a number that is not negative is not smaller. *)
Lemma js_add_nonneg (a c : number W) :
  a ≠ NaN → a ≠ NegInfinity → js_le (Fin num0) c → js_le a (js_add a c).
Proof.
  intros Ha Ha' (_ & Hc & Hc0).
  destruct a as [x| | |], c as [z| | |]; simpl in *; try done.
  by apply num_add_nonneg.
Qed.

(** Sums keep the order in their second operand. *)
Lemma js_add_mono_r (a c c' : number W) :
  js_le (Fin num0) a → js_le c c' → js_le (Fin num0) c →
  js_le (js_add a c) (js_add a c').
Proof.
  intros (_ & Ha & Ha0) (Hc & Hc' & Hcc) (_ & _ & Hc0).
  destruct a as [x| | |]; try done.
  - destruct c as [z| | |], c' as [z'| | |]; simpl in *; try done.
    + rewrite (num_add_comm x z), (num_add_comm x z'). by apply num_add_mono.
    + pose proof (num_add_nonneg x z Hc0) as (_ & Hn & _).
      split_and!; [done|done|]. by destruct (num_add x z).
  - destruct c as [z| | |], c' as [z'| | |]; simpl in *; try done.
Qed.
End NumberFacts.

(* ================================================================== *)
(** * Facts about Sets *)
(* ================================================================== *)

Section SetFacts.
Implicit Types (s l : list string) (x y : string).

Lemma has_true s x : JsSet.has s x = true ↔ x ∈ s.
Proof. unfold JsSet.has. by rewrite bool_decide_eq_true. Qed.

Lemma has_false s x : JsSet.has s x = false ↔ x ∉ s.
Proof. unfold JsSet.has. by rewrite bool_decide_eq_false. Qed.

Lemma elem_of_add s x y : y ∈ JsSet.add s x ↔ y ∈ s ∨ y = x.
Proof.
  unfold JsSet.add. destruct (JsSet.has s x) eqn:E.
  - apply has_true in E. naive_solver.
  - rewrite elem_of_app, list_elem_of_singleton. done.
Qed.

Lemma elem_of_delete s x y : y ∈ JsSet.delete s x ↔ y ∈ s ∧ y ≠ x.
Proof. unfold JsSet.delete. rewrite list_elem_of_filter. naive_solver. Qed.

Lemma length_delete s x : x ∈ s → length (JsSet.delete s x) < length s.
Proof.
  unfold JsSet.delete. induction s as [|y s IH]; intros Hx.
  - by apply elem_of_nil in Hx.
  - rewrite filter_cons. destruct (decide (y ≠ x)) as [Hne|Heq].
    + simpl. apply elem_of_cons in Hx as [->|Hx]; [done|]. specialize (IH Hx). lia.
    + simpl. pose proof (length_filter (λ y, y ≠ x) s). lia.
Qed.

Lemma elem_of_fold_add l s y : y ∈ fold_left JsSet.add l s ↔ y ∈ s ∨ y ∈ l.
Proof.
  revert s. induction l as [|x l IH]; intros s; simpl.
  - rewrite elem_of_nil. naive_solver.
  - rewrite IH, elem_of_add, elem_of_cons. naive_solver.
Qed.

Lemma elem_of_of_list l y : y ∈ JsSet.of_list l ↔ y ∈ l.
Proof. unfold JsSet.of_list. rewrite elem_of_fold_add, elem_of_nil. naive_solver. Qed.
End SetFacts.

(* ================================================================== *)
(** * app.js, [dijkstra]: the selection of the next node *)
(* ================================================================== *)

Section Pick.
Context {W : Type} `{NumOps W}.
Implicit Types (dist : gmap string (number W)) (q : list string).

Lemma pick_snoc dist q n :
  App.pick dist (q ++ [n]) = App.pick_step dist (App.pick dist q) n.
Proof. unfold App.pick. by rewrite fold_left_app. Qed.

(** As long as nothing was selected, [best] is still [Infinity]. *)
Lemma pick_None_best dist q :
  (App.pick dist q).1 = None → (App.pick dist q).2 = Infinity.
Proof.
  induction q as [|n q IH] using rev_ind; [done|].
  rewrite pick_snoc. unfold App.pick_step.
  destruct (js_lt _ _); [done|]. exact IH.
Qed.

(** [u === null] after the scan: no node of the queue has a finite
    distance. *)
Lemma pick_None dist q y :
  (App.pick dist q).1 = None → y ∈ q →
  js_lt (to_number (dist !! y)) Infinity = false.
Proof.
  induction q as [|n q IH] using rev_ind; intros Hp Hy.
  - by apply elem_of_nil in Hy.
  - rewrite pick_snoc in Hp. unfold App.pick_step in Hp.
    destruct (js_lt (to_number (dist !! n)) _) eqn:E; [done|].
    apply elem_of_app in Hy as [Hy|Hy%list_elem_of_singleton].
    + by apply IH.
    + subst y. by rewrite (pick_None_best _ _ Hp) in E.
Qed.

(** The selected node is in the queue and its distance is below
    [Infinity]. *)
Lemma pick_Some dist q u :
  (App.pick dist q).1 = Some u →
  u ∈ q ∧ ∃ d, dist !! u = Some d ∧ below_infinity d = true ∧
               (App.pick dist q).2 = d.
Proof.
  induction q as [|n q IH] using rev_ind; intros Hp; [done|].
  rewrite pick_snoc in *. unfold App.pick_step in *.
  destruct (js_lt (to_number (dist !! n)) _) eqn:E.
  - simpl in *. injection Hp as ->. split; [set_solver|].
    apply js_lt_below in E.
    destruct (dist !! u) as [d|]; simpl in *; [eauto|done].
  - destruct (IH Hp) as [? ?]. split; [set_solver|done].
Qed.
End Pick.

Section PickMin.
Context {W : Type} `{NumLaws W}.

(** The selected distance is minimal over the queue. *)
Lemma pick_min (dist : gmap string (number W)) (q : list string) (y : string) :
  y ∈ q → js_lt (to_number (dist !! y)) (App.pick dist q).2 = false.
Proof.
  induction q as [|n q IH] using rev_ind; intros Hy.
  - by apply elem_of_nil in Hy.
  - rewrite pick_snoc. unfold App.pick_step.
    destruct (js_lt (to_number (dist !! n)) _) eqn:E; simpl.
    + apply elem_of_app in Hy as [Hy|Hy%list_elem_of_singleton].
      * eapply js_lt_lower; [by apply IH|exact E].
      * subst y. apply js_lt_irrefl.
    + apply elem_of_app in Hy as [Hy|Hy%list_elem_of_singleton].
      * by apply IH.
      * by subst y.
Qed.
End PickMin.

(* ================================================================== *)
(** * app.js, [dijkstra]: the shape of the tables *)
(* ================================================================== *)

Section Adjacency.
Context {W : Type}.
Implicit Types (adjacency : Adjacency W).

Lemma adj_get_keys adjacency u :
  u ∈ keys adjacency ↔ is_Some (adj_get adjacency u).
Proof.
  unfold keys. induction adjacency as [|[k es] rest IH]; simpl.
  - rewrite elem_of_nil. split; [done|]. by intros [? ?].
  - rewrite elem_of_cons. destruct (decide (k = u)) as [->|Hne].
    + split; eauto.
    + rewrite IH. naive_solver.
Qed.

Lemma is_walk_snoc adjacency s u es e w :
  is_walk adjacency s u w → adj_get adjacency u = Some es → e ∈ es →
  is_walk adjacency s (to e) (w ++ [e]).
Proof.
  intros Hw Hu He. induction Hw as [s|s es' e' t w Hs He' Hw IH]; simpl.
  - eapply walk_cons; eauto. constructor.
  - eapply walk_cons; eauto.
Qed.

(** Every node of a walk that ends at a key is a key. *)
Lemma is_walk_source_key adjacency s t w :
  is_walk adjacency s t w → t ∈ keys adjacency → s ∈ keys adjacency.
Proof.
  intros Hw Ht. destruct Hw; [done|]. apply adj_get_keys. eauto.
Qed.

(** A walk that starts inside a set of nodes and ends outside of it
    leaves the set through some edge. *)
Lemma walk_crossing adjacency (V : list string) s t w :
  is_walk adjacency s t w → s ∈ V → t ∉ V →
  ∃ w1 x es e w2,
    w = w1 ++ e :: w2 ∧ is_walk adjacency s x w1 ∧ x ∈ V ∧
    adj_get adjacency x = Some es ∧ e ∈ es ∧ (to e ∉ V) ∧
    is_walk adjacency (to e) t w2.
Proof.
  induction 1 as [s|s es e t w Hs He Hw IH]; intros HsV HtV; [done|].
  destruct (decide (to e ∈ V)) as [Hin|Hout].
  - destruct (IH Hin HtV) as (w1 & x & es' & e' & w2 & -> & Hw1 & Hx & Hes' & He' & Hto & Hw2).
    exists (e :: w1), x, es', e', w2. split_and!; try done.
    eapply walk_cons; eauto.
  - exists [], s, es, e, w. split_and!; try done. constructor.
Qed.
End Adjacency.

Section Tables.
Context {W : Type} `{NumOps W}.
Variable adjacency : Adjacency W.
Variables start goal : string.
Variable avoid : bool.
Variable uf : W.
Local Abbreviation state := (@App.state W).
Local Abbreviation step_cost := (step_cost avoid uf).
Local Abbreviation code_cost := (code_cost avoid uf).
Local Abbreviation chain := (chain adjacency start).
Local Abbreviation chain_root := (chain_root adjacency start).
Local Abbreviation chain_snoc := (chain_snoc adjacency start).
Local Abbreviation tree_ok := (tree_ok adjacency start avoid uf).
Local Abbreviation tables_ok := (tables_ok adjacency start avoid uf).
Local Abbreviation ok_visited_keys := (ok_visited_keys adjacency start avoid uf).
Local Abbreviation ok_start := (ok_start adjacency start avoid uf).
Local Abbreviation ok_dist_keys := (ok_dist_keys adjacency start avoid uf).
Local Abbreviation ok_dist_dom := (ok_dist_dom adjacency start avoid uf).
Local Abbreviation ok_dist_nan := (ok_dist_nan adjacency start avoid uf).
Local Abbreviation ok_prev_start := (ok_prev_start adjacency start avoid uf).
Local Abbreviation ok_prev_fin := (ok_prev_fin adjacency start avoid uf).
Local Abbreviation ok_visited_fin := (ok_visited_fin adjacency start avoid uf).
Local Abbreviation ok_tree := (ok_tree adjacency start avoid uf).
Local Abbreviation ok_start_fin := (ok_start_fin adjacency start avoid uf).
Local Abbreviation InvS := (InvS adjacency start avoid uf).
Local Abbreviation relaxed := (relaxed avoid uf).
Local Abbreviation lower_bound := (lower_bound adjacency start avoid uf).
Local Abbreviation edges_relaxed := (edges_relaxed adjacency avoid uf).
Local Abbreviation InvO := (InvO adjacency start goal avoid uf).

Lemma chain_is_walk prev V v w :
  chain prev V v w → is_walk adjacency start v w.
Proof.
  induction 1; [constructor|]. eapply is_walk_snoc; eauto.
Qed.

Lemma chain_nil prev V v : chain prev V v [] → v = start.
Proof.
  inversion 1 as [|u es e w ? ? ? ? ? Hw]; [done|]. by destruct w.
Qed.

Lemma chain_nonempty prev V v w :
  chain prev V v w → w ≠ [] → is_Some (prev !! v).
Proof. destruct 1; [done|]. eauto. Qed.

Lemma chain_mono prev V V' v w :
  (∀ x, x ∈ V → x ∈ V') → chain prev V v w → chain prev V' v w.
Proof.
  intros HV. induction 1; [constructor|]. eapply chain_snoc; eauto.
Qed.

(** Writing [prev] at an unvisited node keeps the chains of the others. *)
Lemma chain_insert prev V v' u' v w :
  v' ∉ V → v ≠ v' → chain prev V v w → chain (<[v' := u']> prev) V v w.
Proof.
  intros Hv' Hne Hc. induction Hc as [|u es e w Hc IH Hu Hes He Hp]; [constructor|].
  eapply chain_snoc; eauto.
  - apply IH. intros ->. done.
  - by rewrite lookup_insert_ne.
Qed.

Lemma code_cost_snoc w e :
  code_cost (w ++ [e]) = js_add (code_cost w) (step_cost e).
Proof. unfold code_cost. by rewrite fold_left_app. Qed.

(** Following the links from a node with a chain rebuilds the nodes
    of the chain. *)
Lemma unwind_chain prev V v w fuel acc :
  prev !! start = None → chain prev V v w → length w < fuel →
  App.unwind prev fuel (Some v) acc = Returned (walk_nodes start w ++ acc).
Proof.
  intros Hs Hc. revert fuel acc.
  induction Hc as [|u es e w Hc IH Hu Hes He Hp]; intros fuel acc Hf.
  - destruct fuel as [|fuel]; [simpl in Hf; lia|]. simpl. rewrite Hs. by destruct fuel.
  - rewrite length_app in Hf. simpl in Hf.
    destruct fuel as [|fuel]; [lia|]. simpl. rewrite Hp.
    rewrite IH by lia. unfold walk_nodes. rewrite map_app. simpl.
    by rewrite <- app_assoc.
Qed.

(** ** The tables before the loop *)

Lemma init_dist_lookup (l : list string) (d : gmap string (number W)) x :
  fold_left (λ d n, <[n := Infinity]> d) l d !! x =
  if bool_decide (x ∈ l) then Some Infinity else d !! x.
Proof.
  revert d. induction l as [|n l IH]; intros d; simpl; [done|].
  rewrite IH. destruct (decide (x ∈ l)) as [Hl|Hl].
  - rewrite !bool_decide_eq_true_2; [done|set_solver|done].
  - rewrite (bool_decide_eq_false_2 (x ∈ l)) by done.
    destruct (decide (n = x)) as [->|Hne].
    + rewrite lookup_insert_eq. rewrite bool_decide_eq_true_2; [done|set_solver].
    + rewrite lookup_insert_ne by done.
      rewrite bool_decide_eq_false_2; [done|set_solver].
Qed.

Lemma init_dist x :
  App.dist (App.init adjacency start) !! x =
  if decide (x = start) then Some (Fin num0)
  else if bool_decide (x ∈ keys adjacency) then Some Infinity else None.
Proof.
  unfold App.init. simpl. destruct (decide (x = start)) as [->|Hne].
  - by rewrite lookup_insert_eq.
  - rewrite lookup_insert_ne by done. by rewrite init_dist_lookup, lookup_empty.
Qed.

Lemma init_ok : InvS (App.init adjacency start).
Proof.
  split; [|split]; simpl.
  - intros x. rewrite elem_of_of_list. rewrite elem_of_nil. naive_solver.
  - intros x Hx. by apply elem_of_nil in Hx.
  - done.
  - intros x Hx. pose proof (init_dist x) as E. simpl in E. rewrite E.
    destruct (decide _); [eauto|]. rewrite bool_decide_eq_true_2 by done. eauto.
  - intros x [n Hn]. pose proof (init_dist x) as E. simpl in E. rewrite E in Hn.
    destruct (decide _); [auto|]. destruct (bool_decide _) eqn:B; [|done].
    apply bool_decide_eq_true in B. auto.
  - intros x Hn. pose proof (init_dist x) as E. simpl in E. rewrite E in Hn.
    destruct (decide _); [done|]. by destruct (bool_decide _).
  - apply lookup_empty.
  - intros v u Hv. by rewrite lookup_empty in Hv.
  - intros x Hx. by apply elem_of_nil in Hx.
  - intros v d Hv Hd. pose proof (init_dist v) as E. simpl in E. rewrite E in Hv.
    destruct (decide _) as [->|].
    + injection Hv as <-. exists []. split_and!; [constructor|done|done|].
      intros Hx. by apply elem_of_nil in Hx.
    + destruct (bool_decide _); [|done]. injection Hv as <-. done.
  - exists (Fin num0). pose proof (init_dist start) as E. simpl in E. rewrite E.
    by rewrite decide_True.
Qed.

(** ** One relaxation *)

Lemma relax_ok V u es e d p :
  tables_ok d p V → u ∈ V → adj_get adjacency u = Some es → e ∈ es →
  tables_ok (App.relax avoid uf V u (d, p) e).1 (App.relax avoid uf V u (d, p) e).2 V ∧
  (∀ x, x ∈ V → (App.relax avoid uf V u (d, p) e).1 !! x = d !! x).
Proof.
  intros Hok Hu Hes He. unfold App.relax.
  destruct (JsSet.has V (to e)) eqn:Hhas; [done|]. apply has_false in Hhas.
  cbn [fst snd].
  destruct (ok_visited_fin _ _ _ Hok u Hu) as (du & Hdu & Hbu). rewrite Hdu.
  cbn [to_number]. fold (step_cost e).
  destruct (js_lt (js_add du (step_cost e)) _) eqn:Hlt; [|done]. cbn [fst snd].
  pose proof (js_lt_below _ _ Hlt) as Hbelow.
  assert (start ∈ V) as Hstart.
  { apply (ok_start _ _ _ Hok). intros ->. by apply elem_of_nil in Hu. }
  assert (to e ≠ start) as Hne_start by (intros E; by rewrite E in Hhas).
  assert (to e ≠ u) as Hne_u by (intros E; by rewrite E in Hhas).
  assert (is_Some (d !! to e)) as Hsome.
  { destruct (d !! to e); [eauto|]. simpl in Hlt. by rewrite js_lt_NaN_r in Hlt. }
  split; [split|].
  - apply Hok.
  - apply Hok.
  - intros x Hx. destruct (decide (x = to e)) as [->|Hne].
    + rewrite lookup_insert_eq. eauto.
    + rewrite lookup_insert_ne by done. by apply Hok.
  - intros x Hx. destruct (decide (x = to e)) as [->|Hne].
    + by apply Hok.
    + rewrite lookup_insert_ne in Hx by done. by apply Hok.
  - intros x. destruct (decide (x = to e)) as [->|Hne].
    + rewrite lookup_insert_eq. intros [= E]. by rewrite E in Hbelow.
    + rewrite lookup_insert_ne by done. by apply Hok.
  - rewrite lookup_insert_ne by done. apply Hok.
  - intros v u'. destruct (decide (v = to e)) as [->|Hne].
    + rewrite !lookup_insert_eq. eauto.
    + rewrite !lookup_insert_ne by done. by apply Hok.
  - intros x Hx. rewrite lookup_insert_ne by (intros <-; done). by apply Hok.
  - intros v x. destruct (decide (v = to e)) as [->|Hne].
    + rewrite lookup_insert_eq. intros [= <-] _.
      destruct (ok_tree _ _ _ Hok u du Hdu Hbu) as (w & Hc & Hcost & Hlen & Hlen').
      exists (w ++ [e]). split_and!.
      * apply (chain_snoc _ _ u es e w); [|done|done|done|].
        -- apply chain_insert; [done|done|done].
        -- by rewrite lookup_insert_eq.
      * by rewrite code_cost_snoc, Hcost.
      * rewrite length_app. simpl. specialize (Hlen' Hu). lia.
      * done.
    + rewrite lookup_insert_ne by done. intros Hv Hbv.
      destruct (ok_tree _ _ _ Hok v x Hv Hbv) as (w & Hc & Hcost & Hlen & Hlen').
      exists w. split_and!; try done. apply chain_insert; done.
  - rewrite lookup_insert_ne by done. apply (ok_start_fin _ _ _ Hok).
  - intros x Hx. rewrite lookup_insert_ne by (intros <-; done). done.
Qed.

Lemma relax_fold_ok V u es l d p :
  tables_ok d p V → u ∈ V → adj_get adjacency u = Some es →
  (∀ e, e ∈ l → e ∈ es) →
  tables_ok (fold_left (App.relax avoid uf V u) l (d, p)).1
            (fold_left (App.relax avoid uf V u) l (d, p)).2 V ∧
  (∀ x, x ∈ V → (fold_left (App.relax avoid uf V u) l (d, p)).1 !! x = d !! x).
Proof.
  intros Hok Hu Hes. revert d p Hok.
  induction l as [|e l IH]; intros d p Hok Hl; simpl; [done|].
  destruct (relax_ok V u es e d p) as [Hok' Hsame]; [done|done|done|set_solver|].
  destruct (App.relax avoid uf V u (d, p) e) as [d' p'] eqn:E. simpl in *.
  destruct (IH d' p' Hok') as [Hok'' Hsame']; [set_solver|].
  split; [done|]. intros x Hx. rewrite Hsame' by done. by apply Hsame.
Qed.

(** ** One iteration *)

Lemma picked_fresh st u :
  InvS st → (App.pick (App.dist st) (App.queue st)).1 = Some u →
  u ∈ keys adjacency ∧ (u ∉ App.visited st) ∧
  JsSet.add (App.visited st) u = App.visited st ++ [u] ∧
  ∃ d, App.dist st !! u = Some d ∧ below_infinity d = true.
Proof.
  intros [Hq Hok] Hp. apply pick_Some in Hp as [Hu (x & Hx & Hb & _)].
  apply Hq in Hu as [Hk Hv]. split_and!; eauto.
  unfold JsSet.add. apply has_false in Hv. by rewrite Hv.
Qed.

Lemma extract_ok st u :
  InvS st → (App.pick (App.dist st) (App.queue st)).1 = Some u →
  InvS (extract st u).
Proof.
  intros Hinv Hp. destruct (picked_fresh st u Hinv Hp) as (Hk & Hv & Hadd & x & Hx & Hbx).
  destruct Hinv as [Hq Hok]. unfold extract. rewrite Hadd.
  split; [|split]; simpl.
  - intros y. rewrite elem_of_delete, Hq, elem_of_app, list_elem_of_singleton.
    naive_solver.
  - intros y [Hy| ->%list_elem_of_singleton]%elem_of_app; [by apply Hok|done].
  - intros _. destruct (App.visited st) as [|v0 V0] eqn:EV.
    + destruct (ok_tree _ _ _ Hok u x Hx Hbx) as (w & Hc & _ & Hlen & _).
      destruct w; [|simpl in Hlen; lia].
      apply chain_nil in Hc as ->. set_solver.
    + apply elem_of_app. left. by apply (ok_start _ _ _ Hok).
  - apply Hok.
  - apply Hok.
  - apply Hok.
  - apply Hok.
  - apply Hok.
  - intros y [Hy| ->%list_elem_of_singleton]%elem_of_app; [by apply Hok|eauto].
  - intros v d Hd Hbd.
    destruct (ok_tree _ _ _ Hok v d Hd Hbd) as (w & Hc & Hcost & Hlen & Hlen').
    exists w. rewrite length_app. simpl. split_and!; try done; try lia.
    eapply chain_mono; [|done]. set_solver.
  - apply (ok_start_fin _ _ _ Hok).
Qed.

Lemma relaxed_ok st u es :
  InvS st → u ∈ App.visited st → adj_get adjacency u = Some es →
  InvS (relaxed st u es).
Proof.
  intros [Hq Hok] Hu Hes.
  destruct (relax_fold_ok (App.visited st) u es es (App.dist st) (App.prev st))
    as [Hok' _]; try done.
Qed.

(** ** The loop *)

Lemma loop_invariant (P Q : state → Prop) :
  (∀ st, P st → InvS st) →
  (∀ st, P st → (App.pick (App.dist st) (App.queue st)).1 = Some goal →
         Q (extract st goal)) →
  (∀ st u es, P st → (App.pick (App.dist st) (App.queue st)).1 = Some u →
              u ≠ goal → adj_get adjacency u = Some es →
              P (relaxed (extract st u) u es)) →
  ∀ fuel st, P st → length (App.queue st) ≤ fuel →
    ∃ st', App.loop adjacency goal avoid uf fuel st = Returned st' ∧
           ((Q st' ∧ goal ∈ App.visited st') ∨
            (P st' ∧ (App.pick (App.dist st') (App.queue st')).1 = None)).
Proof.
  intros HP Hgoal Hstep. induction fuel as [|fuel IH]; intros st Hst Hlen.
  - destruct (App.queue st) eqn:Eq; [|simpl in Hlen; lia].
    exists st. simpl. rewrite Eq. split; [done|]. by right.
  - simpl. destruct (App.queue st) as [|q0 q] eqn:Eq.
    { exists st. rewrite Eq. split; [done|]. by right. }
    rewrite <- Eq in *. clear Eq q0 q.
    destruct (App.pick (App.dist st) (App.queue st)).1 as [u|] eqn:Ep.
    2: { exists st. split; [done|]. by right. }
    destruct (decide (u = goal)) as [->|Hne].
    + exists (extract st goal). split; [done|]. left. split; [by apply Hgoal|].
      simpl. apply elem_of_add. by right.
    + pose proof (HP st Hst) as Hinv.
      destruct (picked_fresh st u Hinv Ep) as (Hk & _).
      apply adj_get_keys in Hk as [es Hes]. rewrite Hes.
      apply (IH (relaxed (extract st u) u es)).
      * by apply Hstep.
      * simpl. apply pick_Some in Ep as [Hu _].
        pose proof (length_delete _ _ Hu). lia.
Qed.

Lemma step_ok st u es :
  InvS st → (App.pick (App.dist st) (App.queue st)).1 = Some u →
  adj_get adjacency u = Some es → InvS (relaxed (extract st u) u es).
Proof.
  intros Hst Hp Hes. apply relaxed_ok; [by apply extract_ok| |done].
  simpl. apply elem_of_add. by right.
Qed.

Lemma loop_ok : ∀ fuel st,
  InvS st → length (App.queue st) ≤ fuel →
  ∃ st', App.loop adjacency goal avoid uf fuel st = Returned st' ∧ InvS st' ∧
         (goal ∈ App.visited st' ∨
          (App.pick (App.dist st') (App.queue st')).1 = None).
Proof.
  intros fuel st Hst Hlen.
  destruct (loop_invariant InvS InvS) with (fuel := fuel) (st := st)
    as (st' & Hloop & Hpost); try done.
  - intros; by apply extract_ok.
  - intros; by apply step_ok.
  - exists st'. naive_solver.
Qed.

(** ** The path *)

(** Lines 49-56 on tables that satisfy the invariant: either the goal
    has no predecessor and is not the start, and the path is empty, or
    the path is that of a chain whose cost is the distance of the goal. *)
Lemma rebuild_ok (st : state) :
  InvS st →
  ∃ path,
    App.rebuild st start goal = Returned path ∧
    ((App.prev st !! goal = None ∧ goal ≠ start ∧ path = []) ∨
     (∃ w, chain (App.prev st) (App.visited st) goal w ∧
           path = walk_nodes start w ∧
           App.dist st !! goal = Some (code_cost w) ∧
           below_infinity (code_cost w) = true)).
Proof.
  intros [_ Hok]. unfold App.rebuild.
  assert (∀ d, App.dist st !! goal = Some d → below_infinity d = true →
    ∃ path, App.unwind (App.prev st) (S (length (App.visited st))) (Some goal) []
              = Returned path ∧
      ∃ w, chain (App.prev st) (App.visited st) goal w ∧
           path = walk_nodes start w ∧
           App.dist st !! goal = Some (code_cost w) ∧
           below_infinity (code_cost w) = true) as Hfin.
  { intros d Hd Hb.
    destruct (ok_tree _ _ _ Hok goal d Hd Hb) as (w & Hc & Hcost & Hlen & _).
    exists (walk_nodes start w). split.
    - rewrite (unwind_chain _ _ _ _ _ _ (ok_prev_start _ _ _ Hok) Hc) by lia.
      by rewrite app_nil_r.
    - exists w. by rewrite Hcost. }
  destruct (App.prev st !! goal) as [u|] eqn:Ep.
  - rewrite bool_decide_eq_true_2 by eauto. simpl orb. cbv iota.
    destruct (ok_prev_fin _ _ _ Hok goal u Ep) as (d & Hd & Hb).
    destruct (Hfin d Hd Hb) as (path & Hp & Hw). exists path. rewrite <- Ep. auto.
  - rewrite (bool_decide_eq_false_2 (is_Some None)) by (by intros [? ?]).
    simpl orb. destruct (decide (goal = start)) as [Heq|Hne].
    + rewrite bool_decide_eq_true_2 by done.
      destruct (ok_start_fin _ _ _ Hok) as (d & Hd & Hb). rewrite <- Heq in Hd.
      destruct (Hfin d Hd Hb) as (path & Hp & Hw). exists path. rewrite <- Ep. auto.
    + rewrite bool_decide_eq_false_2 by done. exists []. auto.
Qed.

(** ** Optimality *)

Context {HL : NumLaws W}.
Hypothesis weights_nonneg :
  ∀ u es e, adj_get adjacency u = Some es → e ∈ es → num_le num0 (weight e).
Hypothesis factor_ge_1 : num_le num1 uf.

Lemma step_cost_effective e : step_cost e = effective_cost avoid uf e.
Proof.
  unfold step_cost, effective_cost, App.factor_of.
  destruct (avoid && unpaved e); [done|apply num_mul_1].
Qed.

Lemma code_cost_walk_cost w : code_cost w = walk_cost avoid uf w.
Proof.
  unfold code_cost, walk_cost. generalize (Fin (num0 : W)).
  induction w as [|e w IH]; intros a; simpl; [done|].
  by rewrite step_cost_effective, IH.
Qed.

(** A weight that is not negative, times a multiplier of at least 1,
    is not negative. *)
Lemma num_mul_nonneg (w f : W) :
  num_le num0 w → num_le num1 f → js_le (Fin num0) (num_mul w f).
Proof.
  intros Hw Hf. eapply js_le_trans; [apply js_le_Fin, Hw|].
  rewrite <- (num_mul_1 w). by apply num_mul_mono.
Qed.

Lemma step_cost_nonneg u es e :
  adj_get adjacency u = Some es → e ∈ es → js_le (Fin num0) (step_cost e).
Proof.
  intros Hes He. pose proof (weights_nonneg u es e Hes He) as Hw.
  unfold step_cost, App.factor_of. destruct (avoid && unpaved e).
  - by apply num_mul_nonneg.
  - rewrite num_mul_1. by apply js_le_Fin.
Qed.

Lemma is_walk_nonneg s t w e :
  is_walk adjacency s t w → e ∈ w → js_le (Fin num0) (step_cost e).
Proof.
  induction 1 as [s|s es e' t w Hs He' Hw IH]; intros He.
  - by apply elem_of_nil in He.
  - apply elem_of_cons in He as [->|He]; [|by apply IH].
    by eapply step_cost_nonneg.
Qed.

(** Extending a walk does not make it cheaper. *)
Lemma fold_cost_ge (w : list (AdjEntry W)) (a : number W) :
  js_le (Fin num0) a →
  (∀ e, e ∈ w → js_le (Fin num0) (step_cost e)) →
  js_le a (fold_left (λ acc e, js_add acc (step_cost e)) w a).
Proof.
  revert a. induction w as [|e w IH]; intros a Ha Hw; simpl.
  - apply js_le_refl. by destruct Ha as (_ & ? & _).
  - assert (js_le a (js_add a (step_cost e))) as Hstep.
    { apply js_add_nonneg.
      - by destruct Ha as (_ & ? & _).
      - intros ->. by destruct Ha as (_ & _ & ?).
      - apply Hw. set_solver. }
    eapply js_le_trans; [exact Hstep|]. apply IH.
    + by eapply js_le_trans.
    + intros e' He'. apply Hw. set_solver.
Qed.

Lemma code_cost_nonneg s t w : is_walk adjacency s t w → js_le (Fin num0) (code_cost w).
Proof.
  intros Hw. apply fold_cost_ge.
  - by apply js_le_refl.
  - intros e' He'. by eapply is_walk_nonneg.
Qed.

Lemma code_cost_prefix s x es e t w1 w2 :
  is_walk adjacency s x w1 → adj_get adjacency x = Some es → e ∈ es →
  is_walk adjacency (to e) t w2 →
  js_le (js_add (code_cost w1) (step_cost e)) (code_cost (w1 ++ e :: w2)).
Proof.
  intros Hw1 Hes He Hw2. unfold code_cost at 2. rewrite fold_left_app. simpl.
  fold (code_cost w1). apply fold_cost_ge.
  - pose proof (code_cost_nonneg s x w1 Hw1) as H1.
    eapply js_le_trans; [exact H1|]. apply js_add_nonneg.
    + by destruct H1 as (_ & ? & _).
    + intros E. rewrite E in H1. by destruct H1 as (_ & _ & ?).
    + by eapply step_cost_nonneg.
  - intros e' He'. by eapply is_walk_nonneg.
Qed.

(** The cost of replacing the beginning of a walk by a cheaper one. *)
Lemma cost_through s x es e t w1 w2 (dx : number W) :
  is_walk adjacency s x w1 → adj_get adjacency x = Some es → e ∈ es →
  is_walk adjacency (to e) t w2 →
  js_le (Fin num0) dx → js_le dx (code_cost w1) →
  js_le (js_add dx (step_cost e)) (code_cost (w1 ++ e :: w2)).
Proof.
  intros Hw1 Hes He Hw2 Hdx0 Hdx.
  eapply js_le_trans; [|by eapply code_cost_prefix].
  apply js_add_mono_l; [|done|by eapply step_cost_nonneg].
  intros E. rewrite E in Hdx0. by destruct Hdx0 as (_ & _ & ?).
Qed.

(** The distance of a visited node is not negative. *)
Lemma visited_nonneg dist prev V x :
  tables_ok dist prev V → x ∈ V →
  ∃ dx, dist !! x = Some dx ∧ below_infinity dx = true ∧ js_le (Fin num0) dx.
Proof.
  intros Hok Hx. destruct (ok_visited_fin _ _ _ Hok x Hx) as (dx & Hdx & Hbx).
  exists dx. split_and!; [done|done|].
  destruct (ok_tree _ _ _ Hok x dx Hdx Hbx) as (w & Hc & <- & _).
  eapply code_cost_nonneg. by eapply chain_is_walk.
Qed.

Lemma lower_bound_extract st u :
  InvS st → lower_bound st → edges_relaxed st →
  (App.pick (App.dist st) (App.queue st)).1 = Some u →
  lower_bound (extract st u).
Proof.
  intros Hinv Hlb Hrx Hp.
  destruct (picked_fresh st u Hinv Hp) as (Hk & Hv & Hadd & du & Hdu & Hbu).
  intros x d w Hx Hd Hw. simpl in Hx, Hd. rewrite Hadd in Hx.
  apply elem_of_app in Hx as [Hx| ->%list_elem_of_singleton]; [by eapply Hlb|].
  destruct Hinv as [Hq Hok].
  assert (d = du) as -> by congruence.
  destruct (decide (App.visited st = [])) as [HV|HV].
  - destruct (ok_tree _ _ _ Hok u du Hdu Hbu) as (w0 & Hc & Hcost & Hlen & _).
    rewrite HV in Hlen. destruct w0; [|simpl in Hlen; lia].
    rewrite <- Hcost. by eapply code_cost_nonneg.
  - pose proof (ok_start _ _ _ Hok HV) as Hstart.
    destruct (walk_crossing adjacency (App.visited st) start u w Hw Hstart Hv)
      as (w1 & x & es & e & w2 & -> & Hw1 & Hx & Hes & He & Hto & Hw2).
    destruct (visited_nonneg _ _ _ x Hok Hx) as (dx & Hdx & Hbx & Hdx0).
    pose proof (cost_through start x es e u w1 w2 dx Hw1 Hes He Hw2 Hdx0
                  (Hlb x dx w1 Hx Hdx Hw1)) as Hthrough.
    eapply js_le_trans; [|exact Hthrough].
    assert (to e ∈ keys adjacency) as Hkey by (by eapply is_walk_source_key).
    destruct (ok_dist_keys _ _ _ Hok (to e) Hkey) as [n Hn].
    pose proof (ok_dist_nan _ _ _ Hok (to e)) as Hnan.
    pose proof (Hrx x es e dx Hx Hes He Hto Hdx) as Hrelaxed.
    pose proof (pick_Some _ _ _ Hp) as (_ & d' & Hd' & _ & Hbest).
    assert (d' = du) as -> by congruence.
    pose proof (pick_min (App.dist st) (App.queue st) (to e)) as Hmin.
    rewrite Hbest in Hmin. rewrite Hn in Hrelaxed, Hmin, Hnan. simpl in Hrelaxed, Hmin.
    assert (n ≠ NaN) as Hn' by (intros ->; done).
    apply (js_le_trans _ n).
    + split_and!; [by destruct du|done|]. apply Hmin. apply Hq. done.
    + split_and!; [done|by destruct Hthrough as (? & _ & _)|done].
Qed.

(** A relaxation only lowers distances, and settles the edge it handles. *)
Lemma relax_lowers V u e d p y (a : number W) :
  js_lt a (to_number (d !! y)) = false →
  js_lt a (to_number ((App.relax avoid uf V u (d, p) e).1 !! y)) = false.
Proof.
  intros Hy. unfold App.relax. destruct (JsSet.has V (to e)); [done|].
  cbn [fst snd].
  destruct (js_lt (js_add (to_number (d !! u)) _) (to_number (d !! to e))) eqn:Hlt;
    [|done].
  cbn [fst]. destruct (decide (y = to e)) as [->|Hne].
  - rewrite lookup_insert_eq. cbn [to_number]. by eapply js_lt_lower.
  - by rewrite lookup_insert_ne.
Qed.

Lemma relax_settles V u du e d p :
  d !! u = Some du → to e ∉ V →
  js_lt (js_add du (step_cost e))
        (to_number ((App.relax avoid uf V u (d, p) e).1 !! to e)) = false.
Proof.
  intros Hu Hto. unfold App.relax. apply has_false in Hto. rewrite Hto.
  cbn [fst snd]. rewrite Hu. cbn [to_number]. fold (step_cost e).
  destruct (js_lt (js_add du (step_cost e)) (to_number (d !! to e))) eqn:Hlt;
    [|done].
  cbn [fst]. rewrite lookup_insert_eq. apply js_lt_irrefl.
Qed.

Lemma relax_fold_lowers V u l d p y (a : number W) :
  js_lt a (to_number (d !! y)) = false →
  js_lt a (to_number ((fold_left (App.relax avoid uf V u) l (d, p)).1 !! y)) = false.
Proof.
  revert d p. induction l as [|e l IH]; intros d p Hy; simpl; [done|].
  destruct (App.relax avoid uf V u (d, p) e) as [d' p'] eqn:E.
  apply IH. pose proof (relax_lowers V u e d p y a Hy) as Hl. by rewrite E in Hl.
Qed.

Lemma relax_keeps_visited V u e d p x :
  x ∈ V → (App.relax avoid uf V u (d, p) e).1 !! x = d !! x.
Proof.
  intros Hx. unfold App.relax. destruct (JsSet.has V (to e)) eqn:Hhas; [done|].
  apply has_false in Hhas. cbn [fst snd].
  destruct (js_lt (js_add _ _) _); [|done]. cbn [fst].
  rewrite lookup_insert_ne; [done|]. by intros <-.
Qed.

Lemma relax_fold_settles V u du l d p e :
  u ∈ V → d !! u = Some du → e ∈ l → to e ∉ V →
  js_lt (js_add du (step_cost e))
        (to_number ((fold_left (App.relax avoid uf V u) l (d, p)).1 !! to e)) = false.
Proof.
  intros HuV. revert d p. induction l as [|e' l IH]; intros d p Hu He Hto; simpl.
  - by apply elem_of_nil in He.
  - destruct (App.relax avoid uf V u (d, p) e') as [d' p'] eqn:E.
    assert (d' !! u = Some du) as Hu'.
    { pose proof (relax_keeps_visited V u e' d p u HuV) as K.
      rewrite E in K. simpl in K. by rewrite K. }
    apply elem_of_cons in He as [->|He]; [|by apply IH].
    apply relax_fold_lowers.
    pose proof (relax_settles V u du e' d p Hu Hto) as K. by rewrite E in K.
Qed.

Lemma InvO_init : InvO (App.init adjacency start).
Proof.
  split_and!.
  - apply init_ok.
  - intros x d w Hx. by apply elem_of_nil in Hx.
  - intros x es e dx Hx. by apply elem_of_nil in Hx.
  - apply not_elem_of_nil.
Qed.

Lemma InvO_goal st :
  InvO st → (App.pick (App.dist st) (App.queue st)).1 = Some goal →
  InvS (extract st goal) ∧ lower_bound (extract st goal).
Proof.
  intros (Hinv & Hlb & Hrx & _) Hp. split.
  - by apply extract_ok.
  - by apply lower_bound_extract.
Qed.

Lemma InvO_step st u es :
  InvO st → (App.pick (App.dist st) (App.queue st)).1 = Some u →
  u ≠ goal → adj_get adjacency u = Some es →
  InvO (relaxed (extract st u) u es).
Proof.
  intros (Hinv & Hlb & Hrx & Hng) Hp Hne Hes.
  destruct (picked_fresh st u Hinv Hp) as (Hk & Hv & Hadd & _).
  pose proof (extract_ok st u Hinv Hp) as [Hq' Hok'].
  assert (u ∈ App.visited (extract st u)) as Hu'.
  { simpl. rewrite Hadd. set_solver. }
  destruct (relax_fold_ok (App.visited (extract st u)) u es es
              (App.dist (extract st u)) (App.prev (extract st u)))
    as [_ Hsame]; try done.
  split_and!.
  - by apply step_ok.
  - intros x d w Hx Hd Hw. simpl in Hx. simpl in Hd.
    pose proof (Hsame x Hx) as E. simpl in E. rewrite E in Hd.
    by apply (lower_bound_extract st u Hinv Hlb Hrx Hp x d w).
  - intros x es' e dx Hx Hes' He Hto Hdx. simpl in Hx, Hto, Hdx |- *.
    pose proof (Hsame x Hx) as E. simpl in E. rewrite E in Hdx.
    rewrite Hadd in Hx.
    apply elem_of_app in Hx as [Hx| ->%list_elem_of_singleton].
    + apply relax_fold_lowers. apply (Hrx x es' e dx); try done.
      intros Hin. apply Hto. rewrite Hadd. set_solver.
    + assert (es' = es) as -> by congruence.
      by apply relax_fold_settles.
  - simpl. rewrite Hadd. set_solver.
Qed.

(** With non-negative weights the loop ends with the goal visited,
    whenever a walk whose cost is below [Infinity] leads to the goal. *)
Lemma loop_reaches_goal w0 :
  start ∈ keys adjacency → goal ∈ keys adjacency →
  is_walk adjacency start goal w0 → below_infinity (code_cost w0) = true →
  ∃ st, App.loop adjacency goal avoid uf
          (length (App.queue (App.init adjacency start))) (App.init adjacency start)
          = Returned st ∧
        InvS st ∧ lower_bound st ∧ goal ∈ App.visited st.
Proof.
  intros Hs Hg Hw0 Hcost0.
  destruct (loop_invariant InvO (λ st, InvS st ∧ lower_bound st))
    with (fuel := length (App.queue (App.init adjacency start)))
         (st := App.init adjacency start)
    as (st & Hloop & [[[Hinv Hlb] Hin]|[(Hinv & Hlb & Hrx & Hng) Hp]]).
  - by intros st [? _].
  - apply InvO_goal.
  - apply InvO_step.
  - apply InvO_init.
  - done.
  - by exists st.
  - exfalso. destruct Hinv as [Hq Hok].
    destruct (decide (App.visited st = [])) as [HV|HV].
    + destruct (ok_start_fin _ _ _ Hok) as (d & Hd & Hb).
      assert (start ∈ App.queue st) as Hsq.
      { apply Hq. rewrite HV. split; [done|apply not_elem_of_nil]. }
      pose proof (pick_None _ _ start Hp Hsq) as K. rewrite Hd in K. simpl in K.
      rewrite <- below_infinity_lt in K. congruence.
    + pose proof (ok_start _ _ _ Hok HV) as Hstart.
      destruct (walk_crossing adjacency (App.visited st) start goal w0 Hw0 Hstart Hng)
        as (w1 & x & es & e & w2 & -> & Hw1 & Hx & Hes & He & Hto & Hw2).
      destruct (visited_nonneg _ _ _ x Hok Hx) as (dx & Hdx & Hbx & Hdx0).
      pose proof (cost_through start x es e goal w1 w2 dx Hw1 Hes He Hw2 Hdx0
                    (Hlb x dx w1 Hx Hdx Hw1)) as Hthrough.
      assert (to e ∈ keys adjacency) as Hkey by (by eapply is_walk_source_key).
      pose proof (Hrx x es e dx Hx Hes He Hto Hdx) as Hle.
      assert (to e ∈ App.queue st) as Hyq by (by apply Hq).
      pose proof (pick_None _ _ (to e) Hp Hyq) as K.
      destruct (ok_dist_keys _ _ _ Hok (to e) Hkey) as [n Hn].
      pose proof (ok_dist_nan _ _ _ Hok (to e)) as Hnan.
      rewrite Hn in Hle, K, Hnan. simpl in Hle, K.
      assert (n = Infinity) as -> by (destruct n; done).
      rewrite <- below_infinity_lt in Hle.
      pose proof (js_le_above _ _ Hthrough Hle). congruence.
Qed.

(** The path and the distance [dijkstra] computes from the final
    tables, when a walk whose cost is below [Infinity] leads to the
    goal. *)
Lemma optimal_result w0 :
  start ∈ keys adjacency → goal ∈ keys adjacency →
  is_walk adjacency start goal w0 → below_infinity (walk_cost avoid uf w0) = true →
  ∃ st w,
    App.loop adjacency goal avoid uf
      (length (App.queue (App.init adjacency start))) (App.init adjacency start)
      = Returned st ∧
    App.rebuild st start goal = Returned (walk_nodes start w) ∧
    App.dist st !! goal = Some (walk_cost avoid uf w) ∧
    below_infinity (walk_cost avoid uf w) = true ∧
    is_walk adjacency start goal w ∧
    ∀ w', is_walk adjacency start goal w' →
          js_le (walk_cost avoid uf w) (walk_cost avoid uf w').
Proof.
  intros Hs Hg Hw0 Hcost0. rewrite <- code_cost_walk_cost in Hcost0.
  destruct (loop_reaches_goal w0 Hs Hg Hw0 Hcost0) as (st & Hloop & Hinv & Hlb & Hin).
  destruct (rebuild_ok st Hinv)
    as (path & Hpath & [(Hnone & Hne & _)|(w & Hc & -> & Hd & Hb)]).
  - exfalso. destruct Hinv as [_ Hok].
    destruct (ok_visited_fin _ _ _ Hok goal Hin) as (d & Hd & Hb).
    destruct (ok_tree _ _ _ Hok goal d Hd Hb) as (w & Hc & _).
    destruct w as [|e w].
    + by apply chain_nil in Hc.
    + destruct (chain_nonempty _ _ _ _ Hc) as [u Hu]; [done|congruence].
  - exists st, w. split_and!; try done.
    + by rewrite <- code_cost_walk_cost.
    + by rewrite <- code_cost_walk_cost.
    + by eapply chain_is_walk.
    + intros w' Hw'. rewrite <- !code_cost_walk_cost. by eapply Hlb.
Qed.
End Tables.

(* ================================================================== *)
(** * The rationals and the reals as numbers *)
(* ================================================================== *)

Lemma Q_le_iff (a b : Q) : num_le a b ↔ (a <= b)%Q.
Proof.
  unfold num_le. simpl. rewrite negb_false_iff. apply Qle_bool_iff.
Qed.

Lemma Q_ltb_iff (a b : Q) : num_ltb a b = true ↔ (a < b)%Q.
Proof.
  simpl. rewrite negb_true_iff, <- not_true_iff_false, Qle_bool_iff.
  split; [apply Qnot_le_lt|apply Qlt_not_le].
Qed.

Lemma Qmult_1_r_eq (w : Q) : (w * 1)%Q = w.
Proof.
  destruct w as [n d]. unfold Qmult. simpl. f_equal; [apply Z.mul_1_r|apply Pos.mul_1_r].
Qed.

Lemma Qplus_comm_eq (a b : Q) : (a + b)%Q = (b + a)%Q.
Proof.
  destruct a as [n d], b as [n' d']. unfold Qplus. simpl.
  f_equal; [apply Z.add_comm|apply Pos.mul_comm].
Qed.

#[export] Instance Q_laws : NumLaws Q.
Proof.
  split.
  - intros a. apply Q_le_iff, Qle_refl.
  - intros a b c. rewrite !Q_le_iff. apply Qle_trans.
  - intros a b. rewrite Q_ltb_iff, Q_le_iff. apply Qlt_le_weak.
  - intros a b. simpl. f_equal. apply Qplus_comm_eq.
  - intros a b c. cbn [num_add Q_ops]. rewrite js_le_Fin, !Q_le_iff. intros Hab.
    apply Qplus_le_compat; [done|apply Qle_refl].
  - intros a c. cbn [num_add Q_ops]. rewrite js_le_Fin, !Q_le_iff. simpl. intros Hc.
    eapply Qle_trans; [|apply (Qplus_le_compat a a 0 c); [apply Qle_refl|done]].
    rewrite Qplus_0_r. apply Qle_refl.
  - intros w f f'. cbn [num_mul Q_ops]. rewrite js_le_Fin, !Q_le_iff. simpl.
    intros Hw Hf. rewrite !(Qmult_comm w). by apply Qmult_le_compat_r.
  - intros w. simpl. f_equal. apply Qmult_1_r_eq.
  - apply Q_le_iff. done.
  - apply Q_le_iff. done.
Qed.

Lemma R_le_iff (a b : R) : num_le a b ↔ (a <= b)%R.
Proof.
  unfold num_le. simpl. destruct (Rlt_dec b a); split; intros; try done; lra.
Qed.

Lemma R_ltb_iff (a b : R) : num_ltb a b = true ↔ (a < b)%R.
Proof. simpl. destruct (Rlt_dec a b); split; intros; try done. Qed.

#[export] Instance R_laws : NumLaws R.
Proof.
  split.
  - intros a. apply R_le_iff. lra.
  - intros a b c. rewrite !R_le_iff. lra.
  - intros a b. rewrite R_ltb_iff, R_le_iff. lra.
  - intros a b. simpl. f_equal. lra.
  - intros a b c. cbn [num_add R_ops]. rewrite js_le_Fin, !R_le_iff. lra.
  - intros a c. cbn [num_add R_ops]. rewrite js_le_Fin, !R_le_iff. simpl. lra.
  - intros w f f'. cbn [num_mul R_ops]. rewrite js_le_Fin, !R_le_iff. simpl.
    intros Hw Hf. by apply Rmult_le_compat_l.
  - intros w. simpl. f_equal. lra.
  - apply R_le_iff. simpl. lra.
  - apply R_le_iff. simpl. rewrite RMicromega.Q2R_1 || idtac. unfold Q2R. simpl. lra.
Qed.

(* ================================================================== *)
(** * app.js, [dijkstra]: results *)
(* ================================================================== *)

Section DijkstraResults.
Context {W : Type} `{NumOps W}.
Implicit Types (adjacency : Adjacency W) (opts : Opts W).

Lemma is_walk_last adjacency s t w :
  is_walk adjacency s t w → last (walk_nodes s w) = Some t.
Proof.
  unfold walk_nodes. induction 1 as [s|s es e t w Hs He Hw IH]; [done|].
  simpl in *. by destruct (map to w).
Qed.

(** The loop ends, in tables that satisfy the invariant. *)
Lemma run_returns adjacency start goal opts :
  ∃ st, App.run adjacency start goal opts = Returned st ∧
        InvS adjacency start (App.avoid_of opts) (App.factor_given opts) st.
Proof.
  unfold App.run.
  destruct (loop_ok adjacency start goal (App.avoid_of opts) (App.factor_given opts)
              (length (App.queue (App.init adjacency start)))
              (App.init adjacency start)) as (st & Hloop & Hinv & _).
  - apply init_ok.
  - done.
  - eauto.
Qed.

(** [dijkstra] returns, whatever its arguments: it never throws. *)
Lemma dijkstra_returns adjacency start goal opts :
  ∃ st path,
    App.run adjacency start goal opts = Returned st ∧
    App.rebuild st start goal = Returned path ∧
    InvS adjacency start (App.avoid_of opts) (App.factor_given opts) st ∧
    App.dijkstra adjacency start goal opts =
      Returned (mkPathResult (App.dist st !! goal) path (length (App.visited st))).
Proof.
  destruct (run_returns adjacency start goal opts) as (st & Hrun & Hinv).
  destruct (rebuild_ok adjacency start goal _ _ st Hinv) as (path & Hpath & _).
  exists st, path. split_and!; try done.
  unfold App.dijkstra. rewrite Hrun. simpl. rewrite Hpath. done.
Qed.

Lemma unreachable_never_assigned adjacency start goal opts :
  ¬ (∃ w, is_walk adjacency start goal w) → never_assigned adjacency start goal opts.
Proof.
  intros Hno st Hrun.
  destruct (run_returns adjacency start goal opts) as (st' & Hrun' & [_ Hok]).
  assert (st' = st) as -> by congruence.
  destruct (App.prev st !! goal) as [u|] eqn:Ep; [|done].
  destruct (ok_prev_fin _ _ _ _ _ _ _ Hok goal u Ep) as (x & Hx & Hb).
  destruct (ok_tree _ _ _ _ _ _ _ Hok goal x Hx Hb) as (w & Hc & _).
  exfalso. apply Hno. exists w. by eapply chain_is_walk.
Qed.
End DijkstraResults.

(* ================================================================== *)
(** * app.js, [dijkstra]: runs on the example town *)
(* ================================================================== *)

(** Avoiding unpaved roads with factor 3, the gravel road a-b costs 300
    and the paved detour through c is returned. *)
Example town_avoiding :
  App.dijkstra town "a" "d" avoiding
  = Returned {| distance := Some (Fin 250%Q); path := ["a"; "c"; "d"];
                visitedCount := 3 |}.
Proof. vm_compute. reflexivity. Qed.

(** Without options the gravel road is taken. *)
Example town_plain :
  App.dijkstra town "a" "d" no_opts
  = Returned {| distance := Some (Fin 100%Q); path := ["a"; "b"; "d"];
                visitedCount := 3 |}.
Proof. vm_compute. reflexivity. Qed.

(** The isolated node z is not reached: every other node is visited. *)
Example town_isolated :
  App.dijkstra town "a" "z" no_opts
  = Returned {| distance := Some Infinity; path := []; visitedCount := 4 |}.
Proof. vm_compute. reflexivity. Qed.

(** From a node to itself. *)
Example town_here :
  App.dijkstra town "a" "a" no_opts
  = Returned {| distance := Some (Fin 0%Q); path := ["a"]; visitedCount := 1 |}.
Proof. vm_compute. reflexivity. Qed.

(* ================================================================== *)
(** * app.js, [dijkstra]: the properties of the specification *)
(* ================================================================== *)

Lemma adj_get_elem_of {W} (adjacency : Adjacency W) u es :
  adj_get adjacency u = Some es → (u, es) ∈ adjacency.
Proof.
  induction adjacency as [|[k es'] rest IH]; simpl; [done|].
  destruct (decide (k = u)) as [->|Hne].
  - intros [= ->]. set_solver.
  - intros Hu. set_solver.
Qed.

Lemma weights_nonneg_get {W} `{NumOps W} (adjacency : Adjacency W) u es e :
  weights_nonneg adjacency → adj_get adjacency u = Some es → e ∈ es →
  num_le num0 (weight e).
Proof.
  intros Hw Hu He. apply adj_get_elem_of in Hu.
  unfold weights_nonneg in Hw. rewrite Forall_forall in Hw.
  specialize (Hw (u, es) Hu). simpl in Hw. rewrite Forall_forall in Hw. by apply Hw.
Qed.

Lemma num3_ge_1 {W} `{NumLaws W} : num_le (num1 : W) App.num3.
Proof. apply num_1_le_3. Qed.

(** C1, as the code has it.  On an adjacency with non-negative weights,
    with a multiplier of at least 1, for a start and a goal that are
    nodes of the graph, and a goal that a walk from the start reaches
    at a cost below [Infinity], [dijkstra] returns a path that begins at
    the start, ends at the goal and follows a walk [w] of the adjacency,
    and the distance it returns is the cost of [w], the least cost of
    all walks from the start to the goal.  The cost of an edge is its
    weight times the multiplier if it is unpaved and avoidance is on,
    its weight otherwise; the cost of a walk is the sum of the costs of
    its edges as the arithmetic of the numbers adds them up, edge after
    edge from the start. *)
Theorem dijkstra_optimal {W} `{NumLaws W}
    (adjacency : Adjacency W) (start goal : string) (opts : Opts W)
    (w0 : list (AdjEntry W)) :
  weights_nonneg adjacency →
  (∀ f, unpavedFactor opts = Some f → num_le num1 f) →
  start ∈ keys adjacency → goal ∈ keys adjacency →
  is_walk adjacency start goal w0 →
  below_infinity (walk_cost (avoidance opts) (multiplier opts) w0) = true →
  ∃ r w,
    App.dijkstra adjacency start goal opts = Returned r ∧
    is_walk adjacency start goal w ∧
    path r = walk_nodes start w ∧
    head (path r) = Some start ∧ last (path r) = Some goal ∧
    distance r = Some (walk_cost (avoidance opts) (multiplier opts) w) ∧
    below_infinity (walk_cost (avoidance opts) (multiplier opts) w) = true ∧
    ∀ w', is_walk adjacency start goal w' →
          js_le (walk_cost (avoidance opts) (multiplier opts) w)
                (walk_cost (avoidance opts) (multiplier opts) w').
Proof.
  intros Hw Hf Hs Hg Hw0 Hcost0.
  change (avoidance opts) with (App.avoid_of opts) in *.
  change (multiplier opts) with (App.factor_given opts) in *.
  assert (num_le num1 (App.factor_given opts)) as Hf'.
  { unfold App.factor_given. destruct (unpavedFactor opts) as [f|] eqn:E; simpl.
    - by apply Hf.
    - apply num3_ge_1. }
  destruct (optimal_result adjacency start goal (App.avoid_of opts) (App.factor_given opts))
    with (w0 := w0) as (st & w & Hloop & Hpath & Hd & Hb & Hwalk & Hmin); try done.
  { intros u es e. by apply weights_nonneg_get. }
  exists (mkPathResult (App.dist st !! goal) (walk_nodes start w) (length (App.visited st))), w.
  split_and!; try done.
  - unfold App.dijkstra, App.run. rewrite Hloop. simpl. by rewrite Hpath.
  - simpl. by eapply is_walk_last.
Qed.

Lemma dijkstra_optimal_witness :
  ∃ r w,
    App.dijkstra town "a" "d" avoiding = Returned r ∧
    is_walk town "a" "d" w ∧
    path r = walk_nodes "a" w ∧
    head (path r) = Some "a" ∧ last (path r) = Some "d" ∧
    distance r = Some (walk_cost true 3%Q w) ∧
    below_infinity (walk_cost true 3%Q w) = true ∧
    ∀ w', is_walk town "a" "d" w' →
          js_le (walk_cost true 3%Q w) (walk_cost true 3%Q w').
Proof.
  apply (dijkstra_optimal town "a" "d" avoiding
           [road "b" 100%Q true; road "d" 0%Q false]).
  - repeat constructor.
  - intros f [= <-]. reflexivity.
  - unfold keys. simpl. repeat constructor.
  - unfold keys. simpl. repeat constructor.
  - eapply walk_cons; [reflexivity|repeat constructor|].
    eapply walk_cons; [reflexivity|repeat constructor|]. constructor.
  - reflexivity.
Defined.

(** C1, as the claim has it, fails in binary64.  On [steep] every
    weight is positive and the goal can be reached, yet the sum along
    the only walk is [Infinity], which is not below the [Infinity] the
    goal starts with: [dijkstra] returns the empty path.  On
    [long_way] the walk through [b] is exactly [2^53 + 3] m long, one
    less than the road from [a] to [d]; the sum [2^53 + 3] is rounded
    to [2^53 + 4], and [dijkstra] returns the road and [2^53 + 4]. *)
Lemma dijkstra_optimal_counterexample :
  (weights_nonneg steep ∧ "a" ∈ keys steep ∧ "d" ∈ keys steep ∧
   is_walk steep "a" "d" [mkAdjEntry "b" 0x1p+1023%float false "paved";
                          mkAdjEntry "d" 0x1p+1023%float false "paved"] ∧
   App.dijkstra steep "a" "d" (mkOpts None None) =
     Returned (mkPathResult (Some Infinity) [] 2)) ∧
  (weights_nonneg long_way ∧ "a" ∈ keys long_way ∧ "d" ∈ keys long_way ∧
   is_walk long_way "a" "d" [mkAdjEntry "b" 0x1p+53%float false "paved";
                             mkAdjEntry "d" 0x1.8p+1%float false "paved"] ∧
   exact_sum [mkAdjEntry "b" 0x1p+53%float false "paved";
              mkAdjEntry "d" 0x1.8p+1%float false "paved"] == 9007199254740995 ∧
   Binary64.exact 0x1.0000000000002p+53%float = Some 9007199254740996%Q ∧
   App.dijkstra long_way "a" "d" (mkOpts None None) =
     Returned (mkPathResult (Some (Fin 0x1.0000000000002p+53%float)) ["a"; "d"] 3)).
Proof.
  split; split_and!.
  - repeat constructor.
  - unfold keys. simpl. repeat constructor.
  - unfold keys. simpl. repeat constructor.
  - eapply walk_cons; [reflexivity|repeat constructor|].
    eapply walk_cons; [reflexivity|repeat constructor|]. constructor.
  - by vm_compute.
  - repeat constructor.
  - unfold keys. simpl. repeat constructor.
  - unfold keys. simpl. repeat constructor.
  - eapply walk_cons; [reflexivity|repeat constructor|].
    eapply walk_cons; [reflexivity|repeat constructor|]. constructor.
  - by vm_compute.
  - by vm_compute.
  - by vm_compute.
Qed.

(** C2, as the code has it.  [dijkstra] has no error for an unknown
    node.  If the start or the goal is not a key of the adjacency, it
    returns a result all the same: the one-node path and distance 0 if
    the goal is the start, and otherwise the empty path, with distance
    [Infinity] if the goal is a key and [undefined] if it is not. *)
Theorem dijkstra_unknown_node {W} `{NumOps W}
    (adjacency : Adjacency W) (start goal : string) (opts : Opts W) :
  start ∉ keys adjacency ∨ goal ∉ keys adjacency →
  ∃ r, App.dijkstra adjacency start goal opts = Returned r ∧
       if decide (goal = start)
       then path r = [start] ∧ distance r = Some (Fin num0) ∧ visitedCount r = 0
       else path r = [] ∧
            distance r = if bool_decide (goal ∈ keys adjacency)
                         then Some Infinity else None.
Proof.
  intros Hunknown.
  destruct (dijkstra_returns adjacency start goal opts)
    as (st & path & Hrun & Hpath & Hinv & Hres).
  pose proof (rebuild_ok adjacency start goal _ _ st Hinv) as (path' & Hpath' & Hcases).
  assert (path' = path) as -> by congruence.
  destruct Hinv as [_ Hok]. eexists. split; [exact Hres|]. simpl.
  (* with an unknown start, nothing is ever visited *)
  assert (start ∉ keys adjacency → App.visited st = []) as Hnone.
  { intros Hs. destruct (App.visited st) as [|v V] eqn:EV; [done|].
    exfalso. apply Hs. apply (ok_visited_keys _ _ _ _ _ _ _ Hok).
    by apply (ok_start _ _ _ _ _ _ _ Hok). }
  assert (∀ w, chain adjacency start (App.prev st) [] goal w → w = [] ∧ goal = start)
    as Hchain.
  { intros w Hc. destruct Hc as [|u es e w Hc Hu]; [done|]. by apply elem_of_nil in Hu. }
  destruct (decide (goal = start)) as [->|Hne].
  - assert (start ∉ keys adjacency) as Hs by (by destruct Hunknown).
    specialize (Hnone Hs). rewrite Hnone in *.
    destruct Hcases as [(_ & ? & _)|(w & Hc & -> & Hd & _)]; [done|].
    destruct (Hchain w Hc) as [-> _]. rewrite Hd. done.
  - assert (∀ d, App.dist st !! goal = Some d → below_infinity d = false) as Hnofin.
    { intros d Hd. destruct (below_infinity d) eqn:Hb; [exfalso|done].
      destruct Hunknown as [Hs|Hg].
      - destruct (ok_tree _ _ _ _ _ _ _ Hok goal d Hd Hb) as (w & Hc & _).
        rewrite (Hnone Hs) in Hc. by destruct (Hchain w Hc).
      - destruct (ok_dist_dom _ _ _ _ _ _ _ Hok goal); [eauto|done|done]. }
    destruct Hcases as [(_ & _ & ->)|(w & _ & _ & Hd & Hb)];
      [|apply Hnofin in Hd; congruence].
    split; [done|]. destruct (decide (goal ∈ keys adjacency)) as [Hg|Hg].
    + rewrite bool_decide_eq_true_2 by done.
      destruct (ok_dist_keys _ _ _ _ _ _ _ Hok goal Hg) as [n Hn].
      pose proof (ok_dist_nan _ _ _ _ _ _ _ Hok goal) as Hnan.
      pose proof (Hnofin n Hn) as Hb.
      rewrite Hn in *. by destruct n.
    + rewrite bool_decide_eq_false_2 by done.
      destruct (App.dist st !! goal) eqn:Ed; [|done].
      destruct (ok_dist_dom _ _ _ _ _ _ _ Hok goal); [eauto|done|done].
Qed.

Lemma dijkstra_unknown_node_witness :
  ∃ r, App.dijkstra town "a" "q" no_opts = Returned r ∧
       path r = [] ∧ distance r = None.
Proof.
  destruct (dijkstra_unknown_node town "a" "q" no_opts) as (r & Hr & Hp & Hd).
  - right. unfold keys. simpl. intros Hin.
    repeat (apply elem_of_cons in Hin as [Hin|Hin]; [discriminate Hin|]).
    by apply elem_of_nil in Hin.
  - exists r. split_and!; [exact Hr|exact Hp|exact Hd].
Defined.

(** C2, as the claim has it, fails: the goal ["q"] is not a node of the
    graph, and [dijkstra] returns a result instead of throwing. *)
Lemma dijkstra_unknown_node_counterexample :
  ("q" ∉ keys town) ∧
  App.dijkstra town "a" "q" no_opts =
    Returned {| distance := None; path := []; visitedCount := 4 |} ∧
  ¬ (∃ e, App.dijkstra town "a" "q" no_opts = Thrown e).
Proof.
  split_and!.
  - unfold keys. simpl. intros Hin.
    repeat (apply elem_of_cons in Hin as [Hin|Hin]; [discriminate Hin|]).
    by apply elem_of_nil in Hin.
  - vm_compute. reflexivity.
  - intros [e He]. vm_compute in He. discriminate He.
Qed.

(** C5. An unreachable goal.  If the goal is not the start and was never
    given a predecessor (as is the case when no walk leads from the
    start to the goal), [dijkstra] returns the empty path, and a
    distance that is never a finite number: [Infinity] when the goal is
    a key of the adjacency, [undefined] when it is not. *)
Theorem dijkstra_unreachable {W} `{NumOps W}
    (adjacency : Adjacency W) (start goal : string) (opts : Opts W) :
  goal ≠ start →
  never_assigned adjacency start goal opts ∨
    ¬ (∃ w, is_walk adjacency start goal w) →
  ∃ r, App.dijkstra adjacency start goal opts = Returned r ∧
       path r = [] ∧
       (∀ x, distance r ≠ Some (Fin x)) ∧
       distance r = if bool_decide (goal ∈ keys adjacency)
                    then Some Infinity else None.
Proof.
  intros Hne Hun.
  assert (never_assigned adjacency start goal opts) as Hnever.
  { destruct Hun as [?|Hno]; [done|by apply unreachable_never_assigned]. }
  destruct (dijkstra_returns adjacency start goal opts)
    as (st & path & Hrun & Hpath & Hinv & Hres).
  pose proof (rebuild_ok adjacency start goal _ _ st Hinv) as (path' & Hpath' & Hcases).
  assert (path' = path) as -> by congruence.
  pose proof (Hnever st Hrun) as Hprev.
  destruct Hinv as [_ Hok]. eexists. split; [exact Hres|]. simpl.
  assert (∀ d, App.dist st !! goal = Some d → below_infinity d = false) as Hnofin.
  { intros d Hd. destruct (below_infinity d) eqn:Hb; [exfalso|done].
    destruct (ok_tree _ _ _ _ _ _ _ Hok goal d Hd Hb) as (w & Hc & _).
    destruct w as [|e w].
    - by apply chain_nil in Hc.
    - destruct (chain_nonempty _ _ _ _ _ _ Hc) as [u Hu]; [done|congruence]. }
  destruct Hcases as [(_ & _ & ->)|(w & _ & _ & Hd & Hb)];
    [|apply Hnofin in Hd; congruence].
  split_and!; [done| |].
  { intros x Hx. by apply Hnofin in Hx. }
  destruct (decide (goal ∈ keys adjacency)) as [Hg|Hg].
  - rewrite bool_decide_eq_true_2 by done.
    destruct (ok_dist_keys _ _ _ _ _ _ _ Hok goal Hg) as [n Hn].
    pose proof (ok_dist_nan _ _ _ _ _ _ _ Hok goal) as Hnan.
    pose proof (Hnofin n Hn) as Hb.
    rewrite Hn in *. by destruct n.
  - rewrite bool_decide_eq_false_2 by done.
    destruct (App.dist st !! goal) eqn:Ed; [|done].
    destruct (ok_dist_dom _ _ _ _ _ _ _ Hok goal); [eauto|done|done].
Qed.

Lemma dijkstra_unreachable_witness :
  ∃ r, App.dijkstra town "a" "z" no_opts = Returned r ∧
       path r = [] ∧
       (∀ x, distance r ≠ Some (Fin x)) ∧
       distance r = Some Infinity.
Proof.
  apply (dijkstra_unreachable town "a" "z" no_opts).
  - discriminate.
  - left. intros st Hrun. vm_compute in Hrun. injection Hrun as <-. reflexivity.
Defined.

(* ================================================================== *)
(** * Great-circle distance: symmetry *)
(* ================================================================== *)

Lemma haversine_unfold a b :
  haversine a b =
  if Rlt_dec (hav_h a b) 0 then NaN
  else Fin (2 * 6371000 * asin (Rmin 1 (sqrt (hav_h a b))))%R.
Proof. reflexivity. Qed.

Lemma sin_half_swap (x y : R) :
  (sin (toRad (x - y) / 2) * sin (toRad (x - y) / 2) =
   sin (toRad (y - x) / 2) * sin (toRad (y - x) / 2))%R.
Proof.
  replace (toRad (x - y) / 2)%R with (- (toRad (y - x) / 2))%R
    by (unfold toRad; lra).
  rewrite sin_neg. ring.
Qed.

Lemma hav_h_sym a b : hav_h a b = hav_h b a.
Proof.
  unfold hav_h.
  rewrite (sin_half_swap (lat b) (lat a)).
  rewrite !Rmult_assoc. rewrite (sin_half_swap (lng b) (lng a)). ring.
Qed.

Lemma cos_toRad_nonneg (x : R) : (-90 <= x <= 90)%R → (0 <= cos (toRad x))%R.
Proof.
  intros [Hlo Hhi]. pose proof PI_RGT_0 as Hpi.
  assert (x * PI <= 90 * PI)%R by (apply Rmult_le_compat_r; lra).
  assert (-90 * PI <= x * PI)%R by (apply Rmult_le_compat_r; lra).
  apply cos_ge_0; unfold toRad; lra.
Qed.

Lemma hav_h_nonneg a b : in_range a → in_range b → (0 <= hav_h a b)%R.
Proof.
  intros [Ha _] [Hb _]. unfold hav_h.
  pose proof (cos_toRad_nonneg _ Ha) as Hca.
  pose proof (cos_toRad_nonneg _ Hb) as Hcb.
  apply Rplus_le_le_0_compat.
  - apply Rle_0_sqr.
  - rewrite Rmult_assoc. apply Rmult_le_pos.
    + by apply Rmult_le_pos.
    + apply Rle_0_sqr.
Qed.

Lemma hav_h_same a : hav_h a a = 0%R.
Proof.
  unfold hav_h, toRad.
  replace ((lat a - lat a) * PI / 180 / 2)%R with 0%R by lra.
  replace ((lng a - lng a) * PI / 180 / 2)%R with 0%R by lra.
  rewrite sin_0. ring.
Qed.

(** In range, the distance is a finite number. *)
Lemma haversine_finite a b :
  in_range a → in_range b →
  haversine a b = Fin (2 * 6371000 * asin (Rmin 1 (sqrt (hav_h a b))))%R.
Proof.
  intros Ha Hb. rewrite haversine_unfold.
  pose proof (hav_h_nonneg a b Ha Hb).
  destruct (Rlt_dec (hav_h a b) 0); [lra|done].
Qed.

(** From a point to itself the distance is 0. *)
Lemma haversine_same (a : LatLng) : haversine a a = Fin 0%R.
Proof.
  rewrite haversine_unfold, hav_h_same.
  destruct (Rlt_dec 0 0) as [?|_]; [lra|].
  rewrite sqrt_0. rewrite Rmin_right by lra. rewrite asin_0. f_equal. lra.
Qed.

(** C9. For coordinates in range, the distance from [a] to [b] equals
    the distance from [b] to [a], and the distance from [a] to [a] is 0. *)
Theorem haversine_symmetric (a b : LatLng) :
  in_range a → in_range b →
  js_equal (haversine a b) (haversine b a) ∧ haversine a a = Fin 0%R.
Proof.
  intros Ha Hb. split.
  - rewrite (haversine_finite a b Ha Hb), (haversine_finite b a Hb Ha). simpl.
    by rewrite (hav_h_sym a b).
  - apply haversine_same.
Qed.

Lemma haversine_symmetric_witness :
  js_equal (haversine greenwich paris) (haversine paris greenwich) ∧
  haversine greenwich greenwich = Fin 0%R.
Proof.
  apply (haversine_symmetric greenwich paris);
    unfold in_range, greenwich, paris; cbn [lat lng]; lra.
Defined.

(* ================================================================== *)
(** * app.js, [nearestNodeId] *)
(* ================================================================== *)

Section Scan.
Variable distance_of : Node.t → number R.
Implicit Types (l : list Node.t) (n : Node.t).

Lemma scan_snoc l n :
  Nearest.scan distance_of (l ++ [n]) =
  Nearest.scan_step distance_of (Nearest.scan distance_of l) n.
Proof. unfold Nearest.scan. by rewrite fold_left_app. Qed.

Lemma scan_step_unfold acc n :
  Nearest.scan_step distance_of acc n =
  if js_lt (distance_of n) acc.2 then (Some (Node.id n), distance_of n) else acc.
Proof. reflexivity. Qed.

(** [bestId] is still [null]: no node had a distance below [Infinity]. *)
Lemma scan_None l :
  (Nearest.scan distance_of l).1 = None →
  (Nearest.scan distance_of l).2 = Infinity ∧
  ∀ n, n ∈ l → js_lt (distance_of n) Infinity = false.
Proof.
  induction l as [|m l IH] using rev_ind; intros Hs.
  - split; [done|]. intros n Hn. by apply elem_of_nil in Hn.
  - rewrite scan_snoc, scan_step_unfold in *.
    destruct (js_lt (distance_of m) _) eqn:E; [done|].
    destruct (IH Hs) as [Hbest Hall]. split; [done|].
    intros n [Hn| ->%list_elem_of_singleton]%elem_of_app; [by apply Hall|].
    by rewrite Hbest in E.
Qed.

(** [bestId] is the id of a node of the list, at distance [best],
    which is below [Infinity]. *)
Lemma scan_Some l i :
  (Nearest.scan distance_of l).1 = Some i →
  ∃ n, n ∈ l ∧ Node.id n = i ∧ below_infinity (distance_of n) = true ∧
       (Nearest.scan distance_of l).2 = distance_of n.
Proof.
  induction l as [|m l IH] using rev_ind; intros Hs; [done|].
  rewrite scan_snoc, scan_step_unfold in *.
  destruct (js_lt (distance_of m) _) eqn:E.
  - simpl in Hs. injection Hs as <-. apply js_lt_below in E.
    exists m. split_and!; [set_solver|done|done|done].
  - destruct (IH Hs) as (n & Hn & ? & ? & ?). exists n.
    split_and!; [set_solver|done|done|done].
Qed.

(** No node is closer than [best]. *)
Lemma scan_min l n :
  n ∈ l → js_lt (distance_of n) (Nearest.scan distance_of l).2 = false.
Proof.
  induction l as [|m l IH] using rev_ind; intros Hn.
  - by apply elem_of_nil in Hn.
  - rewrite scan_snoc, scan_step_unfold.
    destruct (js_lt (distance_of m) _) eqn:E; simpl.
    + apply elem_of_app in Hn as [Hn| ->%list_elem_of_singleton].
      * eapply js_lt_lower; [by apply IH|exact E].
      * apply js_lt_irrefl.
    + apply elem_of_app in Hn as [Hn| ->%list_elem_of_singleton]; [by apply IH|done].
Qed.
End Scan.

(** Two numbers none of which is below the other, and none of which is
    [NaN] or [Infinity], are equal. *)
Lemma js_equal_between (a b : number R) :
  below_infinity a = true → below_infinity b = true →
  js_lt a b = false → js_lt b a = false → js_equal a b.
Proof.
  destruct a as [x| | |], b as [y| | |]; simpl; try done.
  destruct (Rlt_dec x y), (Rlt_dec y x); try done. intros _ _ _ _. lra.
Qed.

(** C3, as the code has it.  On a graph without nodes, [nearestNodeId]
    returns [null]; and it raises no error, on this graph or any other. *)
Theorem nearest_empty (latlng : LatLng) :
  nearestNodeId latlng [] = Returned None ∧
  ∀ nodes e, nearestNodeId latlng nodes ≠ Thrown e.
Proof. split; [reflexivity|]. intros nodes e. discriminate. Qed.

(** C3, as the claim has it, fails: the call returns [null], it does not
    throw. *)
Lemma nearest_empty_counterexample :
  nearestNodeId origin [] = Returned None ∧
  ¬ (∃ e, nearestNodeId origin [] = Thrown e).
Proof. split; [reflexivity|]. intros [e He]. discriminate He. Qed.

(** C4, as the code has it.  Whatever the distances are that
    [haversine] computes: among lists that are permutations of each
    other, [nearestNodeId] returns the same id provided no two nodes
    with different ids are at the same computed distance from the
    point.  Ties are broken by the order of the list. *)
Theorem nearest_reordering (computed : LatLng → LatLng → number R)
    (latlng : LatLng) (l1 l2 : list Node.t) :
  l1 ≡ₚ l2 →
  (∀ n m, n ∈ l1 → m ∈ l1 →
          js_equal (computed latlng (point_of n)) (computed latlng (point_of m)) →
          Node.id n = Node.id m) →
  nearestNodeId_with computed latlng l1 = nearestNodeId_with computed latlng l2.
Proof.
  intros Hperm Hties. unfold nearestNodeId_with. f_equal.
  set (d := λ n : Node.t, computed latlng (mkLatLng (Node.lat n) (Node.lng n))).
  destruct (Nearest.scan d l1).1 as [i1|] eqn:E1,
           (Nearest.scan d l2).1 as [i2|] eqn:E2.
  - destruct (scan_Some _ _ _ E1) as (n1 & Hn1 & <- & Hd1 & Hb1).
    destruct (scan_Some _ _ _ E2) as (n2 & Hn2 & <- & Hd2 & Hb2).
    f_equal. apply Hties; [done|by rewrite Hperm|].
    assert (n2 ∈ l1) as Hn2' by (by rewrite Hperm).
    assert (n1 ∈ l2) as Hn1' by (by rewrite <- Hperm).
    pose proof (scan_min d l1 n2 Hn2') as H21.
    pose proof (scan_min d l2 n1 Hn1') as H12.
    rewrite Hb1 in H21. rewrite Hb2 in H12.
    by apply js_equal_between.
  - destruct (scan_Some _ _ _ E1) as (n1 & Hn1 & _ & Hd1 & _).
    destruct (scan_None _ _ E2) as [_ Hall].
    assert (n1 ∈ l2) as Hn1' by (by rewrite <- Hperm).
    specialize (Hall n1 Hn1'). rewrite <- below_infinity_lt in Hall. congruence.
  - destruct (scan_Some _ _ _ E2) as (n2 & Hn2 & _ & Hd2 & _).
    destruct (scan_None _ _ E1) as [_ Hall].
    assert (n2 ∈ l1) as Hn2' by (by rewrite Hperm).
    specialize (Hall n2 Hn2'). rewrite <- below_infinity_lt in Hall. congruence.
  - done.
Qed.

Lemma in_range_origin : in_range origin.
Proof. unfold in_range, origin. cbn [lat lng]. lra. Qed.

Lemma east_west_equidistant : dist_to origin east = dist_to origin west.
Proof.
  unfold dist_to. rewrite !haversine_unfold.
  assert (hav_h origin (mkLatLng (Node.lat east) (Node.lng east)) =
          hav_h origin (mkLatLng (Node.lat west) (Node.lng west))) as ->; [|done].
  unfold hav_h, origin, east, west. cbn [lat lng Node.lat Node.lng].
  replace (toRad (-1 - 0) / 2)%R with (- (toRad (1 - 0) / 2))%R by (unfold toRad; lra).
  rewrite sin_neg. ring.
Qed.

Lemma dist_to_east_finite : ∃ x, dist_to origin east = Fin x.
Proof.
  eexists. unfold dist_to. apply haversine_finite; [apply in_range_origin|].
  unfold in_range, east. cbn [lat lng Node.lat Node.lng]. lra.
Qed.

(** C4, as the claim has it, fails: with two nodes at the same distance
    from the point, the order of the list decides. *)
Lemma nearest_reordering_counterexample :
  [east; west] ≡ₚ [west; east] ∧
  js_equal (dist_to origin east) (dist_to origin west) ∧
  nearestNodeId origin [east; west] = Returned (Some "east") ∧
  nearestNodeId origin [west; east] = Returned (Some "west").
Proof.
  destruct dist_to_east_finite as [x Hx].
  pose proof east_west_equidistant as Heq. rewrite Hx in Heq. symmetry in Heq.
  assert (js_lt (Fin x) (Fin x) = false) as Hirr by apply js_lt_irrefl.
  split_and!.
  - apply perm_swap.
  - by rewrite Hx, Heq.
  - change (nearestNodeId origin [east; west])
      with (Returned (A := option string) (Nearest.scan (dist_to origin) [east; west]).1).
    unfold Nearest.scan. simpl fold_left.
    rewrite !scan_step_unfold. rewrite Hx. cbn [snd js_lt].
    rewrite Heq. cbn [snd]. by rewrite Hirr.
  - change (nearestNodeId origin [west; east])
      with (Returned (A := option string) (Nearest.scan (dist_to origin) [west; east]).1).
    unfold Nearest.scan. simpl fold_left.
    rewrite !scan_step_unfold. rewrite Heq. cbn [snd js_lt].
    rewrite Hx. cbn [snd]. by rewrite Hirr.
Qed.

Lemma dist_to_here : dist_to origin here = Fin 0%R.
Proof.
  unfold dist_to, here. cbn [Node.lat Node.lng].
  apply haversine_same.
Qed.

Lemma dist_to_east_nonzero x : dist_to origin east = Fin x → x ≠ 0%R.
Proof.
  unfold dist_to. rewrite haversine_finite; first last.
  { unfold in_range, east. cbn [lat lng Node.lat Node.lng]. lra. }
  { apply in_range_origin. }
  intros [= <-] Hzero.
  set (h := hav_h origin (mkLatLng (Node.lat east) (Node.lng east))) in *.
  assert (0 < h)%R as Hh.
  { unfold h, hav_h, origin, east. cbn [lat lng Node.lat Node.lng].
    replace (toRad (0 - 0) / 2)%R with 0%R by (unfold toRad; lra).
    replace (toRad 0) with 0%R by (unfold toRad; lra).
    rewrite sin_0, cos_0.
    assert (0 < sin (toRad (1 - 0) / 2))%R as Hsin.
    { pose proof PI_RGT_0. apply sin_gt_0; unfold toRad; lra. }
    pose proof (Rmult_lt_0_compat _ _ Hsin Hsin). lra. }
  pose proof (sqrt_lt_R0 h Hh) as Hsqrt.
  assert (0 < Rmin 1 (sqrt h) <= 1)%R as Hy.
  { split; [apply Rmin_glb_lt; lra|apply Rmin_l]. }
  change (hav_h origin (mkLatLng 0 1)) with h in Hzero.
  assert (asin (Rmin 1 (sqrt h)) = 0%R) as Hasin by lra.
  pose proof (sin_asin (Rmin 1 (sqrt h))) as Hs.
  rewrite Hasin, sin_0 in Hs. lra.
Qed.

Lemma nearest_reordering_witness :
  nearestNodeId origin [east; here] = nearestNodeId origin [here; east].
Proof.
  apply (nearest_reordering haversine origin [east; here] [here; east]).
  - apply perm_swap.
  - intros n m Hn Hm Heq.
    apply elem_of_cons in Hn as [->|Hn]; apply elem_of_cons in Hm as [->|Hm];
      try (apply list_elem_of_singleton in Hn as ->);
      try (apply list_elem_of_singleton in Hm as ->); try reflexivity.
    + exfalso. change (js_equal (dist_to origin east) (dist_to origin here)) in Heq.
      rewrite dist_to_here in Heq.
      destruct (dist_to origin east) as [x| | |] eqn:E; simpl in Heq; try done.
      by apply (dist_to_east_nonzero x E).
    + exfalso. change (js_equal (dist_to origin here) (dist_to origin east)) in Heq.
      rewrite dist_to_here in Heq.
      destruct (dist_to origin east) as [x| | |] eqn:E; simpl in Heq; try done.
      by apply (dist_to_east_nonzero x E).
Defined.

(* ================================================================== *)
(** * thefunction.js against app.js *)
(* ================================================================== *)

(** C10 fails on the code.  From the node called [constructor] to its
    neighbour, app.js returns the path of the two nodes; thefunction.js,
    whose [prev] is an object literal, finds [Object.prototype.constructor]
    as the predecessor of the start and puts it in front of the path. *)
Theorem dijkstra_copies_differ :
  App.dijkstra named_town "constructor" "b" no_opts =
    Returned {| distance := Some (Fin 100%Q);
                path := ["constructor"; "b"];
                visitedCount := 2 |} ∧
  TheFunction.dijkstra named_town "constructor" "b" no_opts =
    Returned (TheFunction.mkResult
                (VNum (Fin 100%Q))
                [VProto "constructor"; VStr "constructor"; VStr "b"]
                2).
Proof. split; vm_compute; reflexivity. Qed.

(* ================================================================== *)
(** * Loops and adjacency objects *)
(* ================================================================== *)

(** A loop whose body appends and never throws. *)
Lemma for_each_append {A B : Type} (f : list B → A → outcome (list B))
    (g : A → list B) (l : list A) (acc : list B) :
  (∀ x acc', x ∈ l → f acc' x = Returned (acc' ++ g x)) →
  for_each f l acc = Returned (acc ++ flat_map g l).
Proof.
  revert acc. induction l as [|x l IH]; intros acc Hf; simpl.
  - by rewrite app_nil_r.
  - rewrite Hf by set_solver. simpl. rewrite IH by (intros; apply Hf; set_solver).
    by rewrite app_assoc.
Qed.

Lemma length_flat_map {A B : Type} (g : A → list B) (l : list A) :
  length (flat_map g l) = sum_list_with (λ x, length (g x)) l.
Proof.
  induction l as [|x l IH]; simpl; [done|]. rewrite length_app. lia.
Qed.

Lemma elem_of_flat_map {A B : Type} (g : A → list B) (l : list A) (y : B) :
  y ∈ flat_map g l ↔ ∃ x, x ∈ l ∧ y ∈ g x.
Proof.
  rewrite list_elem_of_In, in_flat_map. setoid_rewrite list_elem_of_In. done.
Qed.

Lemma elem_of_keys_put {W} (adjacency : Adjacency W) k v x :
  x ∈ keys (adj_put adjacency k v) ↔ x ∈ keys adjacency ∨ x = k.
Proof.
  unfold keys. induction adjacency as [|[k' v'] rest IH]; simpl.
  - set_solver.
  - destruct (decide (k' = k)) as [->|Hne]; simpl; set_solver.
Qed.

Lemma keys_put_all {W} (nodes : list Node.t) (adjacency : Adjacency W) x :
  x ∈ keys (fold_left (λ adj n, adj_put adj (Node.id n) []) nodes adjacency) ↔
  x ∈ keys adjacency ∨ ∃ n, n ∈ nodes ∧ Node.id n = x.
Proof.
  revert adjacency. induction nodes as [|n nodes IH]; intros adjacency; simpl.
  - set_solver.
  - rewrite IH, elem_of_keys_put. set_solver.
Qed.

(** The adjacency lists are built without a [TypeError] as soon as
    every edge starts at a node. *)
Lemma build_adjacency_returns (nodes : list Node.t) (edges : list Edge.t) :
  (∀ e, e ∈ edges → ∃ n, n ∈ nodes ∧ Node.id n = Edge.from e) →
  ∃ adjacency, build_adjacency nodes edges = Returned adjacency.
Proof.
  intros Hfrom. unfold build_adjacency.
  assert (∀ e, e ∈ edges →
    Edge.from e ∈ keys (fold_left (λ adj n, adj_put adj (Node.id n) []) nodes
                          ([] : Adjacency (number R)))) as Hkeys.
  { intros e He. apply keys_put_all. right. destruct (Hfrom e He) as (n & ? & ?). eauto. }
  clear Hfrom. revert Hkeys. generalize (fold_left (λ adj n, adj_put adj (Node.id n) [])
                                 nodes ([] : Adjacency (number R))).
  induction edges as [|e edges IH]; intros adjacency Hkeys; [simpl; eauto|].
  assert (Edge.from e ∈ keys adjacency) as Hk by (apply Hkeys; set_solver).
  apply adj_get_keys in Hk as [l E]. cbn [for_each].
  assert (∃ adjacency', adj_push adjacency e = Returned adjacency' ∧
            ∀ x, x ∈ keys adjacency → x ∈ keys adjacency') as (adjacency' & -> & Hsub).
  { unfold adj_push. rewrite E. eexists. split; [done|].
    intros x Hx. apply elem_of_keys_put. by left. }
  simpl. apply IH. intros e' He'. apply Hsub, Hkeys. set_solver.
Qed.

(* ================================================================== *)
(** * graph.js: the nodes of the grid *)
(* ================================================================== *)

Section GridNodes.
Variables startLat startLng delta : R.
Variable cols : nat.
Local Abbreviation grid_node := (grid_node startLat startLng delta cols).

Lemma push_row r n (l : list Node.t) :
  fold_left (Grid.push_node startLat startLng delta r) (seq 0 n) (l, r * cols) =
  (l ++ map (λ c, Node.mk (pretty (r * cols + c))
                          (startLat + INR r * delta)%R (startLng + INR c * delta)%R)
            (seq 0 n),
   r * cols + n).
Proof.
  induction n as [|n IH].
  - simpl. by rewrite app_nil_r, Nat.add_0_r.
  - rewrite seq_S, fold_left_app, IH. simpl. unfold Grid.push_node. simpl.
    rewrite map_app. simpl. rewrite <- app_assoc. f_equal. lia.
Qed.

Lemma make_nodes_rows rows :
  Grid.make_nodes startLat startLng delta rows cols =
  (flat_map (λ r, map (grid_node r) (seq 0 cols)) (seq 0 rows), rows * cols).
Proof.
  unfold Grid.make_nodes. induction rows as [|m IH].
  - done.
  - rewrite seq_S, fold_left_app, IH. simpl.
    rewrite push_row. rewrite flat_map_app. simpl. rewrite app_nil_r.
    f_equal. lia.
Qed.

Lemma length_grid rows :
  length (flat_map (λ r, map (grid_node r) (seq 0 cols)) (seq 0 rows)) = rows * cols.
Proof.
  induction rows as [|m IH]; [done|].
  rewrite seq_S, flat_map_app, length_app, IH. simpl.
  rewrite app_nil_r, length_map, length_seq. lia.
Qed.

Lemma lookup_grid rows r c :
  r < rows → c < cols →
  flat_map (λ r, map (grid_node r) (seq 0 cols)) (seq 0 rows) !! Grid.idx cols r c
  = Some (grid_node r c).
Proof.
  unfold Grid.idx. induction rows as [|m IH]; intros Hr Hc; [lia|].
  rewrite seq_S, flat_map_app. simpl. rewrite app_nil_r.
  destruct (decide (r < m)) as [Hlt|Hge].
  - rewrite lookup_app_l; [by apply IH|]. rewrite length_grid. nia.
  - assert (r = m) as -> by lia.
    rewrite lookup_app_r; rewrite length_grid; [|lia].
    replace (m * cols + c - m * cols) with c by lia.
    rewrite list_lookup_fmap, lookup_seq_lt by done. done.
Qed.
End GridNodes.

(* ================================================================== *)
(** * graph.js: the edges of the grid *)
(* ================================================================== *)

Lemma neighbors_cells rows cols r c :
  Grid.neighbors rows cols r c =
  map (λ q, Grid.idx cols q.1 q.2) (neighbor_cells rows cols r c).
Proof.
  unfold Grid.neighbors, neighbor_cells.
  destruct (0 <? r), (r <? rows - 1), (0 <? c), (c <? cols - 1); reflexivity.
Qed.

Lemma elem_of_if_singleton {A} (b : bool) (x y : A) :
  y ∈ (if b then [x] else []) ↔ b = true ∧ y = x.
Proof.
  destruct b; rewrite ?list_elem_of_singleton, ?elem_of_nil; naive_solver.
Qed.

Lemma cell_eq (r c r' c' : nat) : (r', c') = (r, c) ↔ r' = r ∧ c' = c.
Proof. split; [by intros [= -> ->]|by intros [-> ->]]. Qed.

Lemma elem_of_neighbor_cells rows cols r c r' c' :
  r < rows → c < cols →
  (r', c') ∈ neighbor_cells rows cols r c ↔
  r' < rows ∧ c' < cols ∧
  ((r' + 1 = r ∧ c' = c) ∨ (r' = r + 1 ∧ c' = c) ∨
   (r' = r ∧ c' + 1 = c) ∨ (r' = r ∧ c' = c + 1)).
Proof.
  intros Hr Hc. unfold neighbor_cells.
  rewrite !elem_of_app, !elem_of_if_singleton, !Nat.ltb_lt, !cell_eq. lia.
Qed.

Lemma length_neighbor_cells rows cols r c :
  length (neighbor_cells rows cols r c) =
  ((if 0 <? r then 1 else 0) + (if r <? rows - 1 then 1 else 0)) +
  ((if 0 <? c then 1 else 0) + (if c <? cols - 1 then 1 else 0)).
Proof.
  unfold neighbor_cells.
  destruct (0 <? r), (r <? rows - 1), (0 <? c), (c <? cols - 1); reflexivity.
Qed.

Section GridEdges.
Variables rows cols : nat.
Variable node : nat → nat → Node.t.
Variable nodes : list Node.t.
Local Abbreviation edge_of := (edge_of node).
Local Abbreviation grid_edges := (grid_edges rows cols node).
Hypothesis nodes_lookup :
  ∀ r c, r < rows → c < cols → nodes !! Grid.idx cols r c = Some (node r c).

Lemma push_edges_cells p cells acc :
  p.1 < rows → p.2 < cols →
  (∀ q, q ∈ cells → q.1 < rows ∧ q.2 < cols) →
  for_each (Grid.push_edge nodes (nodes !! Grid.idx cols p.1 p.2))
           (map (λ q, Grid.idx cols q.1 q.2) cells) acc
  = Returned (acc ++ map (edge_of p) cells).
Proof.
  intros Hp1 Hp2. rewrite (nodes_lookup _ _ Hp1 Hp2).
  revert acc. induction cells as [|q cells IH]; intros acc Hq.
  - simpl. by rewrite app_nil_r.
  - cbn [map for_each].
    destruct (Hq q) as [Hq1 Hq2]; [set_solver|].
    assert (Grid.push_edge nodes (Some (node p.1 p.2)) acc (Grid.idx cols q.1 q.2)
            = Returned (acc ++ [edge_of p q])) as ->.
    { unfold Grid.push_edge. by rewrite (nodes_lookup _ _ Hq1 Hq2). }
    simpl. rewrite IH by (intros; apply Hq; set_solver).
    by rewrite <- app_assoc.
Qed.

Lemma cell_spec r c acc :
  r < rows → c < cols →
  Grid.cell nodes rows cols r acc c =
  Returned (acc ++ map (edge_of (r, c)) (neighbor_cells rows cols r c)).
Proof.
  intros Hr Hc. unfold Grid.cell. rewrite neighbors_cells.
  apply (push_edges_cells (r, c)); [done|done|].
  intros [r' c'] Hq. apply elem_of_neighbor_cells in Hq; [|done|done]. simpl. tauto.
Qed.

Lemma make_edges_spec : Grid.make_edges nodes rows cols = Returned grid_edges.
Proof.
  unfold Grid.make_edges, grid_edges.
  rewrite (for_each_append _
             (λ r, flat_map (λ c, map (edge_of (r, c)) (neighbor_cells rows cols r c))
                            (seq 0 cols))); [done|].
  intros r acc Hr. apply elem_of_seq in Hr.
  apply for_each_append. intros c acc' Hc'. apply elem_of_seq in Hc'.
  apply cell_spec; lia.
Qed.

Lemma elem_of_grid_edges e :
  e ∈ grid_edges ↔
  ∃ r c r' c', r < rows ∧ c < cols ∧
               (r', c') ∈ neighbor_cells rows cols r c ∧ e = edge_of (r, c) (r', c').
Proof.
  unfold grid_edges. rewrite elem_of_flat_map. split.
  - intros (r & Hr & He). apply elem_of_seq in Hr.
    apply elem_of_flat_map in He as (c & Hc & He). apply elem_of_seq in Hc.
    apply list_elem_of_fmap in He as ([r' c'] & -> & Hq).
    exists r, c, r', c'. split_and!; [lia|lia|done|done].
  - intros (r & c & r' & c' & Hr & Hc & Hq & ->).
    exists r. split; [apply elem_of_seq; lia|].
    apply elem_of_flat_map. exists c. split; [apply elem_of_seq; lia|].
    apply list_elem_of_fmap. by exists (r', c').
Qed.
End GridEdges.

(** ** Counting the edges *)

Lemma sum_positive (n : nat) :
  sum_list_with (λ k, if 0 <? k then 1 else 0) (seq 0 n) = n - 1.
Proof.
  induction n as [|n IH]; [done|].
  rewrite seq_S, sum_list_with_app, IH. simpl. destruct n; simpl; lia.
Qed.

Lemma sum_below (m n : nat) :
  sum_list_with (λ k, if k <? m then 1 else 0) (seq 0 n) = n `min` m.
Proof.
  induction n as [|n IH]; [done|].
  rewrite seq_S, sum_list_with_app, IH. cbn [sum_list_with Nat.add].
  destruct (Nat.ltb_spec n m); lia.
Qed.

Lemma sum_list_with_add {A} (f g : A → nat) (l : list A) :
  sum_list_with (λ x, f x + g x) l = sum_list_with f l + sum_list_with g l.
Proof. induction l as [|x l IH]; simpl; lia. Qed.

Lemma sum_list_with_const {A} (k : nat) (l : list A) :
  sum_list_with (λ _, k) l = length l * k.
Proof. induction l as [|x l IH]; simpl; lia. Qed.

Lemma sum_list_with_ext {A} (f g : A → nat) (l : list A) :
  (∀ x, f x = g x) → sum_list_with f l = sum_list_with g l.
Proof. intros Hfg. induction l as [|x l IH]; simpl; [done|]. by rewrite Hfg, IH. Qed.

(** The number of neighbours along one axis of length [n]: [2 (n - 1)]. *)
Lemma sum_axis (n : nat) :
  sum_list_with (λ k, (if 0 <? k then 1 else 0) + (if k <? n - 1 then 1 else 0)) (seq 0 n)
  = 2 * (n - 1).
Proof. rewrite sum_list_with_add, sum_positive, sum_below. lia. Qed.

Lemma length_grid_edges rows cols node :
  length (grid_edges rows cols node) = 2 * (rows * (cols - 1) + cols * (rows - 1)).
Proof.
  unfold grid_edges. rewrite length_flat_map.
  rewrite (sum_list_with_ext _
    (λ r, cols * ((if 0 <? r then 1 else 0) + (if r <? rows - 1 then 1 else 0))
          + 2 * (cols - 1))).
  - rewrite sum_list_with_add, sum_list_with_const, length_seq.
    assert (∀ (f : nat → nat) l, sum_list_with (λ r, cols * f r) l
                                 = cols * sum_list_with f l) as Hscale.
    { intros f l. induction l as [|x l IH]; simpl; lia. }
    rewrite (Hscale (λ r, (if 0 <? r then 1 else 0) + (if r <? rows - 1 then 1 else 0))).
    rewrite sum_axis. lia.
  - intros r. rewrite length_flat_map.
    rewrite (sum_list_with_ext _
      (λ c, ((if 0 <? r then 1 else 0) + (if r <? rows - 1 then 1 else 0))
            + ((if 0 <? c then 1 else 0) + (if c <? cols - 1 then 1 else 0)))).
    + rewrite sum_list_with_add, sum_list_with_const, length_seq, sum_axis. lia.
    + intros c. by rewrite length_map, length_neighbor_cells.
Qed.

(* ================================================================== *)
(** * graph.js: [buildGridGraph] *)
(* ================================================================== *)

Lemma haversine_comm (a b : LatLng) : haversine a b = haversine b a.
Proof. by rewrite !haversine_unfold, hav_h_sym. Qed.




(* ================================================================== *)
(** * osm.js: parsing the elements *)
(* ================================================================== *)

Section OsmMaps.
Context {V : Type}.
Implicit Types (m : list (Z * V)) (k : Z).

Lemma map_get_set m k v k' :
  Osm.map_get (Osm.map_set m k v) k' = if decide (k = k') then Some v else Osm.map_get m k'.
Proof.
  induction m as [|[k0 v0] m IH]; simpl.
  - done.
  - destruct (decide (k0 = k)) as [->|Hne]; simpl.
    + destruct (decide (k = k')); done.
    + rewrite IH. destruct (decide (k0 = k')) as [->|?]; [|done].
      by rewrite decide_False.
Qed.

Lemma map_get_elem_of m k : is_Some (Osm.map_get m k) ↔ k ∈ m.*1.
Proof.
  induction m as [|[k0 v0] m IH]; simpl.
  - rewrite elem_of_nil. split; [by intros [? ?]|done].
  - rewrite elem_of_cons. destruct (decide (k0 = k)) as [->|Hne].
    + split; eauto.
    + rewrite IH. naive_solver.
Qed.
End OsmMaps.

Lemma node_id_truthy k : Osm.truthy (Some (node_id k)) = true.
Proof. reflexivity. Qed.

(** The elements of type [node] fill [nodeMap], the ways of two nodes
    or more fill [ways]. *)
Lemma parse_elements_nodes (elements : list Element.t) acc k :
  is_Some (Osm.map_get (fold_left Osm.parse_element elements acc).1 k) ↔
  is_Some (Osm.map_get acc.1 k) ∨
  ∃ el, el ∈ elements ∧ Element.type el = "node" ∧ Element.id el = k.
Proof.
  revert acc. induction elements as [|el elements IH]; intros acc; simpl.
  - set_solver.
  - rewrite IH. unfold Osm.parse_element at 1.
    destruct (decide (Element.type el = "node")) as [Hn|Hn]; simpl.
    + rewrite map_get_set. destruct (decide (Element.id el = k)) as [Hk|Hk].
      * split; [|eauto]. intros _. right. exists el. set_solver.
      * set_solver.
    + assert (is_Some (Osm.map_get
                (if decide (Element.type el = "way")
                 then match Element.nodes el with
                      | Some ns => if 2 <=? length ns then (acc.1, acc.2 ++ [el]) else acc
                      | None => acc
                      end
                 else acc).1 k) ↔ is_Some (Osm.map_get acc.1 k)) as ->.
      { destruct (decide _); [|done]. destruct (Element.nodes el); [|done].
        by destruct (2 <=? _). }
      set_solver.
Qed.


(** [idToIndex] knows exactly the keys of [nodeMap], and every id it
    holds is the id of a node of [nodes]. *)
Lemma index_nodes_get (nodeMap : list (Z * LatLng)) acc k :
  (∀ k', is_Some (Osm.map_get acc.2 k') → Osm.map_get acc.2 k' = Some (node_id k')) →
  Osm.map_get (fold_left Osm.index_node nodeMap acc).2 k =
  if bool_decide (k ∈ nodeMap.*1) then Some (node_id k) else Osm.map_get acc.2 k.
Proof.
  revert acc. induction nodeMap as [|[k0 p0] nodeMap IH]; intros acc Hacc; simpl.
  - done.
  - rewrite IH.
    + unfold Osm.index_node. simpl. rewrite map_get_set.
      destruct (decide (k ∈ nodeMap.*1)) as [Hin|Hnin].
      * rewrite !bool_decide_eq_true_2; [done|set_solver|done].
      * rewrite (bool_decide_eq_false_2 (k ∈ nodeMap.*1)) by done.
        destruct (decide (k0 = k)) as [->|Hne].
        -- rewrite bool_decide_eq_true_2; [done|set_solver].
        -- rewrite bool_decide_eq_false_2; [done|set_solver].
    + intros k'. unfold Osm.index_node. simpl. rewrite map_get_set.
      destruct (decide (k0 = k')) as [->|?]; [done|]. apply Hacc.
Qed.

Lemma index_nodes_ids (nodeMap : list (Z * LatLng)) acc k :
  k ∈ nodeMap.*1 →
  ∃ n, n ∈ (fold_left Osm.index_node nodeMap acc).1 ∧ Node.id n = node_id k.
Proof.
  assert (∀ m acc' n, n ∈ acc'.1 → n ∈ (fold_left Osm.index_node m acc').1) as Hkeep.
  { induction m as [|e m IH]; intros acc' n Hn; simpl; [done|].
    apply IH. unfold Osm.index_node. simpl. set_solver. }
  revert acc. induction nodeMap as [|[k0 p0] nodeMap IH]; intros acc Hk; simpl in *.
  - by apply elem_of_nil in Hk.
  - apply elem_of_cons in Hk as [->|Hk]; [|by apply IH].
    exists (Node.mk (node_id k0) (lat p0) (lng p0)). split; [|done].
    apply Hkeep. unfold Osm.index_node. simpl. set_solver.
Qed.

(** ** The edges of a way *)

Section OsmEdges.
Variable nodeMap : list (Z * LatLng).
Variable idToIndex : list (Z * string).
Local Abbreviation segment_edges := (segment_edges nodeMap).
Local Abbreviation way_edges := (way_edges nodeMap).
Hypothesis index_get : ∀ k,
  Osm.map_get idToIndex k = if bool_decide (k ∈ nodeMap.*1) then Some (node_id k) else None.

Lemma push_segment_spec unpaved surface edges seg :
  Osm.push_segment nodeMap idToIndex unpaved surface edges seg =
  edges ++ segment_edges unpaved surface seg.
Proof.
  unfold Osm.push_segment, segment_edges.
  destruct (Osm.map_get nodeMap seg.1) as [a|] eqn:Ea; [|by rewrite app_nil_r].
  destruct (Osm.map_get nodeMap seg.2) as [b|] eqn:Eb; [|by rewrite app_nil_r].
  rewrite !index_get.
  rewrite !bool_decide_eq_true_2 by (apply map_get_elem_of; eauto).
  by rewrite !node_id_truthy.
Qed.

Lemma push_way_spec edges way :
  Osm.push_way nodeMap idToIndex edges way = edges ++ way_edges way.
Proof.
  unfold Osm.push_way, way_edges.
  generalize (Osm.segments (default [] (Element.nodes way))). intros segs.
  revert edges. induction segs as [|seg segs IH]; intros edges; simpl.
  - by rewrite app_nil_r.
  - by rewrite push_segment_spec, IH, app_assoc.
Qed.

Lemma push_ways_spec ways edges :
  fold_left (Osm.push_way nodeMap idToIndex) ways edges = edges ++ flat_map way_edges ways.
Proof.
  revert edges. induction ways as [|way ways IH]; intros edges; simpl.
  - by rewrite app_nil_r.
  - by rewrite push_way_spec, IH, app_assoc.
Qed.

(** Both ends of every edge were parsed. *)
Lemma way_edges_ends way e :
  e ∈ way_edges way →
  ∃ a b, a ∈ nodeMap.*1 ∧ b ∈ nodeMap.*1 ∧
         Edge.from e = node_id a ∧ Edge.to e = node_id b.
Proof.
  unfold way_edges. intros (seg & _ & He)%elem_of_flat_map.
  unfold segment_edges in He.
  destruct (Osm.map_get nodeMap seg.1) as [a|] eqn:Ea; [|by apply elem_of_nil in He].
  destruct (Osm.map_get nodeMap seg.2) as [b|] eqn:Eb; [|by apply elem_of_nil in He].
  assert (seg.1 ∈ nodeMap.*1) by (apply map_get_elem_of; eauto).
  assert (seg.2 ∈ nodeMap.*1) by (apply map_get_elem_of; eauto).
  apply elem_of_cons in He as [->|He]; [by exists seg.1, seg.2|].
  apply list_elem_of_singleton in He as ->. by exists seg.2, seg.1.
Qed.
End OsmEdges.

(* ================================================================== *)
(** * osm.js: [fetchRoadGraph] *)
(* ================================================================== *)

Lemma parsed_nodes_elem_of elements k :
  k ∈ (parsed_nodes elements).*1 ↔ parsed elements k.
Proof.
  unfold parsed_nodes, parsed. rewrite <- map_get_elem_of, parse_elements_nodes. simpl.
  split; [|eauto]. intros [[? ?]|?]; done.
Qed.

(** Parsing never fails, and the edges are those of the ways. *)
Lemma parse_returns (elements : list Element.t) :
  ∃ g, Osm.parse elements = Returned g ∧
       Graph.edges g = flat_map (way_edges (parsed_nodes elements)) (parsed_ways elements).
Proof.
  unfold Osm.parse. fold (parsed_nodes elements) (parsed_ways elements).
  set (nodeMap := parsed_nodes elements). set (ways := parsed_ways elements).
  set (indexed := fold_left Osm.index_node nodeMap ([], [])).
  assert (∀ k, Osm.map_get indexed.2 k =
               if bool_decide (k ∈ nodeMap.*1) then Some (node_id k) else None) as Hidx.
  { intros k. unfold indexed. rewrite index_nodes_get; [done|].
    simpl. by intros k' [? ?]. }
  rewrite (push_ways_spec nodeMap indexed.2 Hidx). simpl.
  destruct (build_adjacency_returns indexed.1 (flat_map (way_edges nodeMap) ways))
    as [adjacency Hadj].
  { intros e (way & _ & He)%elem_of_flat_map.
    destruct (way_edges_ends nodeMap way e He) as (a & b & Ha & _ & Hfrom & _).
    rewrite Hfrom. by apply index_nodes_ids. }
  rewrite Hadj. simpl. eauto.
Qed.

(** ** The guard *)

Lemma too_large_iff {C} `{NumOps C} (bounds : Bounds.t C) (options : Osm.Options C) :
  too_large bounds options ↔
  js_lt (Fin (default (num_lit (25 # 10000)) (Osm.maxAreaDeg2 options)))
        (Osm.bboxAreaDeg2 bounds) = true.
Proof. done. Qed.

(** What is left of a call when the box passes the guard, and when it
    does not. *)
Lemma guard_passed {C} `{NumOps C} (bounds : Bounds.t C) (options : Osm.Options C)
    (fetched : outcome Response.t) :
  ¬ too_large bounds options →
  fetchRoadGraph bounds options fetched =
    (resp ← fetched;
     if negb (Response.ok resp)
     then Thrown (Error ("Overpass API error: " +:+ pretty (Response.status resp)))
     else data ← Response.json resp; Osm.parse (default [] data)).
Proof.
  rewrite too_large_iff. intros Harea. unfold fetchRoadGraph.
  by destruct (js_lt _ _).
Qed.

Lemma guard_failed {C} `{NumOps C} (bounds : Bounds.t C) (options : Osm.Options C)
    (fetched : outcome Response.t) :
  too_large bounds options →
  fetchRoadGraph bounds options fetched = Thrown (Error Osm.area_message).
Proof.
  rewrite too_large_iff. intros Harea. unfold fetchRoadGraph. by rewrite Harea.
Qed.

Lemma too_large_dec {C} `{NumOps C} (bounds : Bounds.t C) (options : Osm.Options C) :
  too_large bounds options ∨ ¬ too_large bounds options.
Proof. unfold too_large. destruct (js_lt _ _); [by left|by right]. Qed.

(** Over the reals. *)
Lemma js_max0_real (x : R) : js_max0 (Fin x) = Fin (Rmax 0 x).
Proof.
  cbn [js_max0]. change (num_ltb x num0) with (if Rlt_dec x 0 then true else false).
  change (@num0 R R_ops) with 0%R.
  destruct (Rlt_dec x 0); f_equal; [by rewrite Rmax_left by lra|by rewrite Rmax_right by lra].
Qed.

Lemma bbox_area_real (b : Bounds.t R) :
  Osm.bboxAreaDeg2 b =
  Fin (Rmax 0 (Bounds.lat (Bounds.getNorthEast b) - Bounds.lat (Bounds.getSouthWest b)) *
       Rmax 0 (Bounds.lng (Bounds.getNorthEast b) - Bounds.lng (Bounds.getSouthWest b)))%R.
Proof.
  unfold Osm.bboxAreaDeg2. cbn [num_sub R_ops]. by rewrite !js_max0_real.
Qed.

Lemma limit_real : (num_lit (25 # 10000) : R) = (25 / 10000)%R.
Proof. cbn [num_lit R_ops]. unfold Q2R. simpl. lra. Qed.

(** C6, as the code has it.  The area the guard looks at is the product
    the code computes: the height and the width of the box, each 0 when
    it would be negative, multiplied in the arithmetic of the carrier.
    With an answer whose body can be read, [fetchRoadGraph] throws the
    error of line 59 exactly when that product is above [maxAreaDeg2],
    which is 0.0025 when the options give none; it does not throw it
    when the product equals the threshold or is below.  When the
    product is above, the error is thrown whatever the network would
    have answered: the elements are not looked at. *)
Theorem area_guard {C} `{NumOps C} (south west north east : C) (options : Osm.Options C)
    (resp : Response.t) (data : option (list Element.t)) :
  Response.json resp = Returned data →
  (fetchRoadGraph (Bounds.mk (Bounds.mkCorner south west) (Bounds.mkCorner north east))
                  options (Returned resp) = Thrown (Error Osm.area_message)
   ↔ js_lt (Fin (default (num_lit (25 # 10000)) (Osm.maxAreaDeg2 options)))
           (js_mul (js_max0 (num_sub north south)) (js_max0 (num_sub east west)))
     = true) ∧
  (js_lt (Fin (default (num_lit (25 # 10000)) (Osm.maxAreaDeg2 options)))
         (js_mul (js_max0 (num_sub north south)) (js_max0 (num_sub east west)))
   = true →
   ∀ fetched,
     fetchRoadGraph (Bounds.mk (Bounds.mkCorner south west) (Bounds.mkCorner north east))
                    options fetched = Thrown (Error Osm.area_message)).
Proof.
  intros Hjson. unfold fetchRoadGraph, Osm.bboxAreaDeg2.
  cbn [Bounds.getSouthWest Bounds.getNorthEast Bounds.lat Bounds.lng].
  destruct (js_lt _ _).
  - split; [done|]. by intros _ fetched.
  - split; [|done]. split; [|done]. simpl.
    destruct (Response.ok resp); simpl.
    + rewrite Hjson. simpl.
      destruct (parse_returns (default [] data)) as (g & -> & _). done.
    + intros [= Hmsg].
Qed.

(** A box of one degree by one degree is too large for the default
    threshold. *)
Lemma area_guard_witness :
  fetchRoadGraph district (Osm.mkOptions None None None) (Returned response)
  = Thrown (Error Osm.area_message) ∧
  fetchRoadGraph district (Osm.mkOptions None None None) (Thrown TypeError)
  = Thrown (Error Osm.area_message).
Proof.
  destruct (area_guard 30%float 76%float 31%float 77%float
              (Osm.mkOptions None None None) response (Some answer)) as [_ Hthrows].
  - reflexivity.
  - split; apply Hthrows; vm_compute; reflexivity.
Defined.

(** C6, as the claim has it, fails in binary64.  The sides of
    [edge_box] are exactly [1 + 2^-27] long, so that its area,
    [1 + 2^-26 + 2^-54], is above the threshold [1 + 2^-26].  The
    product is rounded to [1 + 2^-26], which is not above the
    threshold, and the graph is built. *)
Lemma area_guard_counterexample :
  ∃ side limit,
    Binary64.exact 0x1.0000002p+0%float = Some side ∧ side == 1 + 1 / 2 ^ 27 ∧
    Binary64.exact 0x1.0000004p+0%float = Some limit ∧ limit == 1 + 1 / 2 ^ 26 ∧
    (limit < (side - 0) * (side - 0))%Q ∧
    Osm.bboxAreaDeg2 edge_box = Fin 0x1.0000004p+0%float ∧
    ∃ g, fetchRoadGraph edge_box edge_options (Returned response) = Returned g.
Proof.
  eexists _, _. split_and!.
  - vm_compute. reflexivity.
  - vm_compute. reflexivity.
  - vm_compute. reflexivity.
  - vm_compute. reflexivity.
  - vm_compute. reflexivity.
  - vm_compute. reflexivity.
  - destruct (parse_returns answer) as (g & Hg & _). exists g. rewrite <- Hg.
    unfold fetchRoadGraph.
    replace (js_lt _ (Osm.bboxAreaDeg2 edge_box)) with false by (vm_compute; reflexivity).
    reflexivity.
Qed.

(** ** The surface of a way *)

Lemma isUnpaved_spec (tags : gmap string string) :
  Osm.isUnpaved tags = true ↔
  Osm.tag_lower tags "surface" ∈ Osm.unpavedSurfaces ∨
  Osm.tag_lower tags "tracktype" ∈ Osm.unpavedTracktypes ∨
  Osm.tag_lower tags "highway" = "track".
Proof.
  unfold Osm.isUnpaved.
  destruct (decide (Osm.tag_lower tags "surface" ∈ Osm.unpavedSurfaces)) as [Hs|Hs].
  { rewrite bool_decide_eq_true_2 by done. split; auto. }
  rewrite (bool_decide_eq_false_2 _ Hs).
  destruct (decide (Osm.tag_lower tags "tracktype" ∈ Osm.unpavedTracktypes)) as [Ht|Ht].
  { rewrite (bool_decide_eq_true_2 _ Ht).
    rewrite bool_decide_eq_false_2; [simpl; split; auto|].
    intros E. rewrite E in Ht. unfold Osm.unpavedTracktypes in Ht.
    repeat (apply elem_of_cons in Ht as [Ht|Ht]; [discriminate Ht|]).
    by apply elem_of_nil in Ht. }
  rewrite (bool_decide_eq_false_2 _ Ht), andb_false_r.
  destruct (decide (Osm.tag_lower tags "highway" = "track")) as [Hh|Hh].
  - rewrite bool_decide_eq_true_2 by done. split; auto.
  - rewrite bool_decide_eq_false_2 by done. split; [done|]. intros [?|[?|?]]; done.
Qed.




(** ** An answer with one gravel way *)

Lemma block_area : Osm.bboxAreaDeg2 block = Fin (25 / 10000)%R.
Proof.
  rewrite bbox_area_real. unfold block.
  cbn [Bounds.getSouthWest Bounds.getNorthEast Bounds.lat Bounds.lng].
  rewrite !Rmax_right by lra. f_equal. lra.
Qed.

Lemma block_fits : ¬ too_large block defaults.
Proof.
  rewrite too_large_iff, block_area. cbn [js_lt default Osm.maxAreaDeg2 defaults].
  rewrite limit_real. intros Hlt. apply R_ltb_iff in Hlt. lra.
Qed.


(* ================================================================== *)
(** * thefunction.js against app.js: where the two agree *)
(* ================================================================== *)

Section Agreement.
Context {W : Type} `{NumOps W}.
Implicit Types (dist d : gmap string (number W)) (prev p : gmap string string).

Lemma plain_not_proto k : plain k → k ≠ "__proto__".
Proof. intros Hk ->. apply Hk. unfold TheFunction.object_prototype. set_solver. Qed.

Lemma obj_set_plain {V} (o : gmap string V) k v :
  plain k → TheFunction.obj_set o k v = <[k := v]> o.
Proof.
  intros Hk. unfold TheFunction.obj_set. by rewrite decide_False by by apply plain_not_proto.
Qed.

Lemma inherited_plain k : plain k → @TheFunction.inherited W k = VUndef.
Proof. intros Hk. unfold TheFunction.inherited. by rewrite bool_decide_eq_false_2. Qed.

Lemma dist_get_plain dist k :
  plain k → TheFunction.to_num (TheFunction.dist_get dist k) = to_number (dist !! k).
Proof.
  intros Hk. unfold TheFunction.dist_get. destruct (dist !! k); [done|].
  by rewrite inherited_plain.
Qed.

Lemma is_undefined_plain prev k :
  plain k →
  negb (TheFunction.is_undefined (@TheFunction.prev_get W prev k))
  = bool_decide (is_Some (prev !! k)).
Proof.
  intros Hk. unfold TheFunction.prev_get. destruct (prev !! k) as [y|].
  - symmetry. apply bool_decide_eq_true_2. eauto.
  - rewrite inherited_plain by done. symmetry. apply bool_decide_eq_false_2.
    by intros [? ?].
Qed.

Lemma pick_plain dist q :
  Forall plain q → TheFunction.pick dist q = App.pick dist q.
Proof.
  unfold TheFunction.pick, App.pick. generalize (@None string, @Infinity W).
  induction q as [|n q IH]; intros acc Hq; simpl; [done|].
  apply Forall_cons in Hq as [Hn Hq]. rewrite <- IH by done. f_equal.
  unfold TheFunction.pick_step, App.pick_step. by rewrite dist_get_plain.
Qed.

Lemma relax_plain avoid uf V u dp e :
  plain u → plain (to e) →
  TheFunction.relax avoid uf V u dp e = App.relax avoid uf V u dp e.
Proof.
  intros Hu He. unfold TheFunction.relax, App.relax.
  rewrite !dist_get_plain by done. rewrite !obj_set_plain by done. done.
Qed.

Lemma relax_fold_plain avoid uf V u es dp :
  plain u → Forall (λ e, plain (to e)) es →
  fold_left (TheFunction.relax avoid uf V u) es dp = fold_left (App.relax avoid uf V u) es dp.
Proof.
  intros Hu. revert dp. induction es as [|e es IH]; intros dp Hes; simpl; [done|].
  apply Forall_cons in Hes as [He Hes]. rewrite relax_plain by done. by apply IH.
Qed.

Lemma init_plain (adjacency : Adjacency W) start :
  plain start → Forall plain (keys adjacency) →
  TheFunction.init adjacency start = as_object_tables (App.init adjacency start).
Proof.
  intros Hs Hk. unfold TheFunction.init, App.init, as_object_tables. simpl.
  rewrite obj_set_plain by done. f_equal. f_equal.
  generalize (∅ : gmap string (number W)).
  induction Hk as [|k ks Hk Hks IH]; intros d; simpl; [done|].
  rewrite obj_set_plain by done. apply IH.
Qed.

Lemma loop_plain (adjacency : Adjacency W) goal avoid uf fuel st st' :
  Forall (λ kes : string * list (AdjEntry W), Forall (λ e, plain (to e)) kes.2) adjacency →
  Forall plain (App.queue st) →
  App.loop adjacency goal avoid uf fuel st = Returned st' →
  TheFunction.loop adjacency goal avoid uf fuel (as_object_tables st)
  = Returned (as_object_tables st').
Proof.
  intros Hadj. revert st. induction fuel as [|fuel IH]; intros st Hq; simpl.
  - destruct (App.queue st); [|done]. by intros [= <-].
  - destruct (App.queue st) as [|q0 q] eqn:Eq; [by intros [= <-]|].
    rewrite <- Eq in *. rewrite pick_plain by done.
    destruct (App.pick (App.dist st) (App.queue st)).1 as [u|] eqn:Ep; [|by intros [= <-]].
    destruct (decide (u = goal)) as [->|Hne]; [by intros [= <-]|].
    destruct (adj_get adjacency u) as [es|] eqn:Ees; [|done].
    assert (plain u) as Hu.
    { apply pick_Some in Ep as [Hin _]. rewrite Forall_forall in Hq. by apply Hq. }
    assert (Forall (λ e, plain (to e)) es) as Hes.
    { apply adj_get_elem_of in Ees. rewrite Forall_forall in Hadj.
      by apply (Hadj (u, es)). }
    rewrite relax_fold_plain by done. intros Hloop. apply IH in Hloop; [done|].
    simpl. apply Forall_forall. intros k [Hk _]%elem_of_delete.
    rewrite Forall_forall in Hq. by apply Hq.
Qed.

Lemma unwind_plain prev fuel fuel' x acc l :
  (∀ k y, prev !! k = Some y → plain y) → plain x → fuel ≤ fuel' →
  App.unwind prev fuel (Some x) acc = Returned l →
  TheFunction.unwind prev fuel' (VStr x) (VStr <$> acc) = Returned (@VStr W <$> l).
Proof.
  intros Hprev. revert fuel' x acc.
  induction fuel as [|fuel IH]; intros fuel' x acc Hx Hle; simpl; [done|].
  destruct fuel' as [|fuel']; [lia|]. simpl.
  unfold TheFunction.prev_get. destruct (prev !! x) as [y|] eqn:Ey.
  - intros Hl. apply (IH fuel' y (x :: acc)) in Hl; [done|by eapply Hprev|lia].
  - rewrite inherited_plain by done. intros Hl.
    destruct fuel; simpl in Hl; injection Hl as <-; by destruct fuel'.
Qed.
End Agreement.

(** The predecessor of a node is a visited node. *)
Lemma prev_visited {W} `{NumOps W} (adjacency : Adjacency W) start avoid uf
    (dist : gmap string (number W)) (prev : gmap string string) V v u :
  tables_ok adjacency start avoid uf dist prev V → prev !! v = Some u → u ∈ V.
Proof.
  intros Hok Hv. destruct (ok_prev_fin _ _ _ _ _ _ _ Hok v u Hv) as (x & Hx & Hb).
  destruct (ok_tree _ _ _ _ _ _ _ Hok v x Hx Hb) as (w & Hc & _).
  destruct Hc as [|u' es e w Hc Hu' Hes He Hp].
  - rewrite (ok_prev_start _ _ _ _ _ _ _ Hok) in Hv. done.
  - congruence.
Qed.

(** Away from the property names of [Object.prototype], the two copies
    return the same result. *)
Lemma dijkstra_copies_agree {W} `{NumOps W}
    (adjacency : Adjacency W) (start goal : string) (opts : Opts W) (r : PathResult W) :
  plain_query adjacency start goal →
  App.dijkstra adjacency start goal opts = Returned r →
  TheFunction.dijkstra adjacency start goal opts = Returned (of_app r).
Proof.
  intros (Hs & Hg & Hkeys & Hends) Hr.
  destruct (dijkstra_returns adjacency start goal opts)
    as (st & path & Hrun & Hpath & [Hq Hok] & Hres).
  rewrite Hres in Hr. injection Hr as <-.
  unfold TheFunction.dijkstra, TheFunction.run. rewrite init_plain by done.
  unfold App.run in Hrun.
  rewrite (loop_plain adjacency goal _ _ _ _ st Hends); [| |exact Hrun].
  2: { simpl. rewrite Forall_forall in Hkeys. apply Forall_forall.
       intros k Hk. apply Hkeys. by apply elem_of_of_list. }
  simpl.
  assert (TheFunction.rebuild (as_object_tables st) start goal = Returned (VStr <$> path))
    as ->.
  { assert (∀ k y', App.prev st !! k = Some y' → plain y') as Hprev.
    { intros k y' Hk. rewrite Forall_forall in Hkeys. apply Hkeys.
      apply (ok_visited_keys _ _ _ _ _ _ _ Hok). by eapply prev_visited. }
    unfold TheFunction.rebuild, App.rebuild in *.
    cbn [as_object_tables TheFunction.prev TheFunction.visited].
    rewrite (is_undefined_plain _ _ Hg).
    destruct (bool_decide (is_Some (App.prev st !! goal)) || bool_decide (goal = start)).
    - apply (unwind_plain (W:=W) _ _ (4 + length (App.visited st)) _ [] path) in Hpath;
        [done|done|done|lia].
    - by injection Hpath as <-. }
  simpl. unfold of_app. simpl. f_equal. f_equal.
  unfold TheFunction.dist_get. destruct (App.dist st !! goal); [done|].
  by apply inherited_plain.
Qed.

(* ================================================================== *)
(** * Great-circle distance: range and special cases *)
(* ================================================================== *)

Lemma asin_nonneg (y : R) : (0 <= y <= 1)%R → (0 <= asin y)%R.
Proof.
  intros Hy. destruct (Rle_lt_dec 0 (asin y)) as [?|Hneg]; [done|].
  exfalso. pose proof (asin_bound y) as [Hlo _]. pose proof PI_RGT_0.
  assert (sin (asin y) < 0)%R as Hs by (apply sin_lt_0_var; lra).
  rewrite sin_asin in Hs by lra. lra.
Qed.

Lemma Rmin_sqrt_bounds (h : R) : (0 <= Rmin 1 (sqrt h) <= 1)%R.
Proof.
  split; [|apply Rmin_l]. apply Rmin_glb; [lra|apply sqrt_pos].
Qed.

(** When the term under the root is not negative, the distance is a
    number between 0 and half the circumference. *)
Lemma haversine_value a b :
  (0 <= hav_h a b)%R →
  ∃ d, haversine a b = Fin d ∧ (0 <= d <= PI * earth_radius)%R.
Proof.
  intros Hh. rewrite haversine_unfold. destruct (Rlt_dec (hav_h a b) 0); [lra|].
  eexists. split; [done|].
  pose proof (Rmin_sqrt_bounds (hav_h a b)) as Hy.
  pose proof (asin_nonneg _ Hy) as Hlo.
  pose proof (asin_bound (Rmin 1 (sqrt (hav_h a b)))) as [_ Hhi].
  unfold earth_radius. pose proof PI_RGT_0. split; nra.
Qed.

Lemma haversine_range_value a b :
  in_range a → in_range b →
  ∃ d, haversine a b = Fin d ∧ (0 <= d <= PI * earth_radius)%R.
Proof. intros Ha Hb. apply haversine_value. by apply hav_h_nonneg. Qed.



(** X1. The distance between two points in range is a number between 0
    and half the circumference of the sphere, [PI * 6371000] meters. *)
Theorem haversine_bounds (a b : LatLng) :
  in_range a → in_range b →
  ∃ d, haversine a b = Fin d ∧ (0 <= d <= PI * earth_radius)%R.
Proof. apply haversine_range_value. Qed.

Lemma haversine_bounds_witness :
  ∃ d, haversine greenwich paris = Fin d ∧ (0 <= d <= PI * earth_radius)%R.
Proof.
  apply (haversine_bounds greenwich paris);
    unfold in_range, greenwich, paris; cbn [lat lng]; lra.
Defined.


(* ================================================================== *)
(** * app.js, [nearestNodeId]: the node that is returned *)
(* ================================================================== *)

(** Below what is below a bound is what the bound is not above. *)
Lemma js_lt_before (a b c : number R) :
  js_lt a b = true → js_lt c b = false → js_lt a c = true ∨ c = NaN.
Proof.
  destruct a as [x| | |], b as [y| | |], c as [z| | |]; simpl; try done; auto.
  destruct (Rlt_dec x y), (Rlt_dec z y), (Rlt_dec x z); try done; auto. lra.
Qed.

(** [bestId] is the id of the first node of the list at the least
    distance: the nodes before it are farther away, or at no distance
    that can be compared. *)
Lemma scan_first (distance_of : Node.t → number R) (l : list Node.t) (i : string) :
  (Nearest.scan distance_of l).1 = Some i →
  ∃ k n, l !! k = Some n ∧ Node.id n = i ∧ below_infinity (distance_of n) = true ∧
         (Nearest.scan distance_of l).2 = distance_of n ∧
         ∀ j m, j < k → l !! j = Some m →
                js_lt (distance_of n) (distance_of m) = true ∨ distance_of m = NaN.
Proof.
  induction l as [|m l IH] using rev_ind; intros Hs; [done|].
  rewrite scan_snoc, scan_step_unfold in *.
  destruct (js_lt (distance_of m) _) eqn:E.
  - simpl in Hs. injection Hs as <-.
    exists (length l), m. split_and!; try done.
    + by rewrite lookup_app_r, Nat.sub_diag by lia.
    + by eapply js_lt_below.
    + intros j m' Hj Hm'. rewrite lookup_app_l in Hm' by done.
      assert (m' ∈ l) as Hin by (by eapply list_elem_of_lookup_2).
      pose proof (scan_min distance_of l m' Hin) as Hmin.
      by eapply js_lt_before.
  - destruct (IH Hs) as (k & n & Hk & ? & ? & ? & Hbefore).
    exists k, n. split_and!; try done.
    + rewrite lookup_app_l; [done|]. by eapply lookup_lt_Some.
    + intros j m' Hj Hm'. apply (Hbefore j m' Hj).
      rewrite lookup_app_l in Hm'; [done|].
      apply lookup_lt_Some in Hk. lia.
Qed.

(** X4. Whatever the distances are that [haversine] computes:
    [nearestNodeId] returns [null] exactly when no node is at a distance
    below [Infinity]; and the id it returns otherwise is that of a node
    of the list that no node is closer than, and the first such node:
    those before it in the list are strictly farther away, or at the
    distance [NaN].  For a point and nodes in range, and at least one
    node, it returns the id of a node. *)
Theorem nearest_is_closest (computed : LatLng → LatLng → number R)
    (latlng : LatLng) (nodes : list Node.t) :
  (nearestNodeId_with computed latlng nodes = Returned None ↔
   ∀ n, n ∈ nodes → below_infinity (computed latlng (point_of n)) = false) ∧
  (∀ i, nearestNodeId_with computed latlng nodes = Returned (Some i) →
     ∃ k n,
       nodes !! k = Some n ∧ Node.id n = i ∧
       below_infinity (computed latlng (point_of n)) = true ∧
       (∀ m, m ∈ nodes →
             js_lt (computed latlng (point_of m)) (computed latlng (point_of n)) = false) ∧
       (∀ j m, j < k → nodes !! j = Some m →
               js_lt (computed latlng (point_of n)) (computed latlng (point_of m)) = true ∨
               computed latlng (point_of m) = NaN)) ∧
  (in_range latlng → Forall (λ n, in_range (point_of n)) nodes → nodes ≠ [] →
   ∃ n, n ∈ nodes ∧ nearestNodeId latlng nodes = Returned (Some (Node.id n))).
Proof.
  set (d := λ n : Node.t, computed latlng (mkLatLng (Node.lat n) (Node.lng n))).
  assert (∀ c, nearestNodeId_with c latlng nodes =
               Returned (Nearest.scan (λ n, c latlng (point_of n)) nodes).1) as Hunfold
    by done.
  split_and!.
  - rewrite Hunfold. fold d. split.
    + intros [= Hs] n Hn. destruct (scan_None d nodes Hs) as [_ Hall].
      rewrite below_infinity_lt. by apply Hall.
    + intros Hall. f_equal. destruct (Nearest.scan d nodes).1 as [i|] eqn:Ei; [|done].
      destruct (scan_Some d nodes i Ei) as (n & Hn & _ & Hb & _).
      specialize (Hall n Hn). unfold d, point_of in *. congruence.
  - intros i. rewrite Hunfold. fold d. intros [= Hs].
    destruct (scan_first d nodes i Hs) as (k & n & Hk & Hid & Hb & Hbest & Hbefore).
    exists k, n. split_and!; try done.
    intros m Hm. pose proof (scan_min d nodes m Hm) as Hmin. by rewrite Hbest in Hmin.
  - intros Hp Hnodes Hne. rewrite Forall_forall in Hnodes.
    unfold nearestNodeId. rewrite Hunfold.
    destruct (Nearest.scan (λ n, haversine latlng (point_of n)) nodes).1 as [i|] eqn:Ei.
    + destruct (scan_Some _ nodes i Ei) as (n & Hn & <- & _). by exists n.
    + exfalso. destruct nodes as [|n nodes]; [done|].
      destruct (scan_None _ _ Ei) as [_ Hall].
      specialize (Hall n ltac:(set_solver)). simpl in Hall.
      rewrite haversine_finite in Hall; [done|done|]. apply Hnodes. set_solver.
Qed.

(* ================================================================== *)
(** * app.js, [dijkstra]: what holds of every call *)
(* ================================================================== *)

Lemma before_irrefl V x : ¬ before V x x.
Proof. intros (i & Hi & Hlt). specialize (Hlt i Hi). lia. Qed.

Lemma before_trans V x u v :
  NoDup V → before V x u → before V u v → before V x v.
Proof.
  intros Hnd (i & Hi & Hxu) (k & Hk & Huv). exists i. split; [done|].
  intros j Hj. specialize (Hxu k Hk). specialize (Huv j Hj). lia.
Qed.

Lemma before_snoc V x v u :
  u ∉ V → before V x v → before (V ++ [u]) x v.
Proof.
  intros Hu (i & Hi & Hlt). exists i. split.
  - rewrite lookup_app_l; [done|]. by eapply lookup_lt_Some.
  - intros j Hj. destruct (decide (j < length V)) as [Hj'|Hj'].
    + rewrite lookup_app_l in Hj by done. by apply Hlt.
    + apply lookup_lt_Some in Hi. lia.
Qed.

Section Links.
Context {W : Type} `{NumOps W}.
Variable adjacency : Adjacency W.
Variables start goal : string.
Variable avoid : bool.
Variable uf : W.
Local Abbreviation state := (@App.state W).
Local Abbreviation InvS := (InvS adjacency start avoid uf).
Local Abbreviation chain := (chain adjacency start).
Local Abbreviation relaxed := (relaxed avoid uf).
Local Abbreviation InvL := (InvL adjacency start avoid uf).

Lemma relax_links V u dp e :
  u ∈ V → links_ordered dp.2 V → links_ordered (App.relax avoid uf V u dp e).2 V.
Proof.
  intros Hu [Hnd Hl]. unfold App.relax.
  destruct (JsSet.has V (to e)) eqn:Eh; [done|].
  apply has_false in Eh.
  destruct (js_lt _ _); [|done]. simpl. split; [done|].
  intros v u' Hv. destruct (decide (v = to e)) as [->|Hne].
  - rewrite lookup_insert_eq in Hv. injection Hv as <-.
    apply list_elem_of_lookup in Hu as [i Hi]. exists i. split; [done|].
    intros j Hj. exfalso. apply Eh. by eapply list_elem_of_lookup_2.
  - rewrite lookup_insert_ne in Hv by done. by apply Hl.
Qed.

Lemma relax_fold_links V u es dp :
  u ∈ V → links_ordered dp.2 V →
  links_ordered (fold_left (App.relax avoid uf V u) es dp).2 V.
Proof.
  intros Hu. revert dp. induction es as [|e es IH]; intros dp Hl; [done|].
  simpl. apply IH. by apply relax_links.
Qed.

Lemma extract_links st u :
  InvL st → (App.pick (App.dist st) (App.queue st)).1 = Some u →
  InvL (extract st u).
Proof.
  intros [Hinv [Hnd Hl]] Hp. split; [by apply extract_ok|].
  destruct (picked_fresh adjacency start avoid uf st u Hinv Hp) as (_ & Hv & Hadd & _).
  unfold extract. simpl. rewrite Hadd. split.
  - apply NoDup_app. split_and!; [done| |apply NoDup_singleton].
    intros x Hx ->%list_elem_of_singleton. done.
  - intros v u' Hvu. apply before_snoc; [done|]. by apply Hl.
Qed.

Lemma step_links st u es :
  InvL st → (App.pick (App.dist st) (App.queue st)).1 = Some u →
  adj_get adjacency u = Some es → InvL (relaxed (extract st u) u es).
Proof.
  intros HL Hp Hes. pose proof (extract_links st u HL Hp) as [Hinv' Hl'].
  destruct HL as [Hinv _]. split; [by apply step_ok|].
  unfold relaxed. cbn [App.prev App.visited].
  apply (relax_fold_links _ u es (App.dist (extract st u), App.prev (extract st u))).
  - simpl. apply elem_of_add. by right.
  - exact Hl'.
Qed.

Lemma init_links : InvL (App.init adjacency start).
Proof.
  split; [apply init_ok|]. simpl. split; [constructor|].
  intros v u Hv. by rewrite lookup_empty in Hv.
Qed.

(** The loop ends in tables that satisfy the invariant, with the goal
    visited or no node of a finite distance left in the queue. *)
Lemma loop_links :
  ∃ st, App.loop adjacency goal avoid uf
          (length (App.queue (App.init adjacency start))) (App.init adjacency start)
          = Returned st ∧
        InvL st ∧
        (goal ∈ App.visited st ∨ (App.pick (App.dist st) (App.queue st)).1 = None).
Proof.
  destruct (loop_invariant adjacency start goal avoid uf InvL InvL)
    with (fuel := length (App.queue (App.init adjacency start)))
         (st := App.init adjacency start)
    as (st & Hloop & Hpost).
  - by intros st [? _].
  - intros. by apply extract_links.
  - intros. by apply step_links.
  - apply init_links.
  - done.
  - exists st. naive_solver.
Qed.

(** The nodes of a chain are distinct. *)
Lemma chain_simple prev V v w :
  links_ordered prev V → chain prev V v w →
  NoDup (walk_nodes start w) ∧
  ∀ x, x ∈ walk_nodes start w → x = v ∨ before V x v.
Proof.
  intros [Hnd Hl]. induction 1 as [|u es e w Hc [IHn IHb] Hu Hes He Hp].
  - split; [apply NoDup_singleton|]. intros x ->%list_elem_of_singleton. by left.
  - pose proof (Hl _ _ Hp) as Hue.
    assert (walk_nodes start (w ++ [e]) = walk_nodes start w ++ [to e]) as ->.
    { unfold walk_nodes. by rewrite map_app. }
    split.
    + apply NoDup_app. split_and!; [done| |apply NoDup_singleton].
      intros x Hx ->%list_elem_of_singleton.
      destruct (IHb _ Hx) as [Heq|Hxu].
      * rewrite Heq in Hue. by apply (before_irrefl V u).
      * apply (before_irrefl V u). by eapply before_trans.
    + intros x [Hx| ->%list_elem_of_singleton]%elem_of_app; [|by left].
      right. destruct (IHb _ Hx) as [->|Hxu]; [done|]. by eapply before_trans.
Qed.

(** All the nodes of a chain but the last one are visited. *)
Lemma chain_visited prev V v w x :
  chain prev V v w → x ∈ walk_nodes start w → x = v ∨ x ∈ V.
Proof.
  induction 1 as [|u es e w Hc IH Hu Hes He Hp].
  - intros ->%list_elem_of_singleton. by left.
  - unfold walk_nodes in *. rewrite map_app, app_comm_cons.
    intros [Hx| ->%list_elem_of_singleton]%elem_of_app; [|by left].
    right. destruct (IH Hx) as [->|?]; done.
Qed.

Lemma visited_bound st :
  InvL st → length (App.visited st) ≤ length (keys adjacency).
Proof.
  intros [[_ Hok] [Hnd _]]. apply submseteq_length, NoDup_submseteq; [done|].
  apply (ok_visited_keys _ _ _ _ _ _ _ Hok).
Qed.

(** With the start among the keys, the loop visits it. *)
Lemma start_visited st :
  start ∈ keys adjacency → InvL st →
  goal ∈ App.visited st ∨ (App.pick (App.dist st) (App.queue st)).1 = None →
  start ∈ App.visited st.
Proof.
  intros Hs [[Hq Hok] _] Hend.
  destruct (decide (App.visited st = [])) as [HV|HV];
    [|by apply (ok_start _ _ _ _ _ _ _ Hok)].
  exfalso. destruct Hend as [Hg|Hp]; [rewrite HV in Hg; by apply elem_of_nil in Hg|].
  assert (start ∈ App.queue st) as Hsq.
  { apply Hq. rewrite HV. split; [done|apply not_elem_of_nil]. }
  pose proof (pick_None _ _ start Hp Hsq) as K.
  destruct (ok_start_fin _ _ _ _ _ _ _ Hok) as (d & Hd & Hb). rewrite Hd in K.
  simpl in K. rewrite <- below_infinity_lt in K. congruence.
Qed.

(** A node of a distance below [Infinity] is visited when the loop has
    ended. *)
Lemma finite_visited st v d :
  start ∈ keys adjacency → InvL st →
  goal ∈ App.visited st ∨ (App.pick (App.dist st) (App.queue st)).1 = None →
  App.dist st !! v = Some d → below_infinity d = true →
  v = goal ∨ v ∈ App.visited st →
  v ∈ App.visited st.
Proof.
  intros Hs HL Hend Hv Hb [->|Hin]; [|done].
  destruct HL as [[Hq Hok] HLo].
  destruct Hend as [Hg|Hp]; [done|].
  destruct (decide (goal ∈ App.visited st)) as [|Hnv]; [done|].
  exfalso.
  assert (goal ∈ keys adjacency) as Hk.
  { destruct (ok_dist_dom _ _ _ _ _ _ _ Hok goal) as [?| ->]; eauto. }
  assert (goal ∈ App.queue st) as Hgq by (by apply Hq).
  pose proof (pick_None _ _ goal Hp Hgq) as K. rewrite Hv in K.
  simpl in K. rewrite <- below_infinity_lt in K. congruence.
Qed.

End Links.

Section Calls.
Context {W : Type} `{NumOps W}.
Implicit Types (adjacency : Adjacency W) (opts : Opts W).

(** The tables [dijkstra] computes its result from. *)
Lemma dijkstra_tables adjacency start goal opts :
  ∃ st path,
    App.dijkstra adjacency start goal opts =
      Returned (mkPathResult (App.dist st !! goal) path (length (App.visited st))) ∧
    InvL adjacency start (App.avoid_of opts) (App.factor_given opts) st ∧
    (goal ∈ App.visited st ∨ (App.pick (App.dist st) (App.queue st)).1 = None) ∧
    ((App.prev st !! goal = None ∧ goal ≠ start ∧ path = []) ∨
     (∃ w, chain adjacency start (App.prev st) (App.visited st) goal w ∧
           path = walk_nodes start w ∧
           App.dist st !! goal =
             Some (code_cost (App.avoid_of opts) (App.factor_given opts) w) ∧
           below_infinity (code_cost (App.avoid_of opts) (App.factor_given opts) w)
             = true)).
Proof.
  destruct (loop_links adjacency start goal (App.avoid_of opts) (App.factor_given opts))
    as (st & Hloop & HL & Hend).
  destruct (rebuild_ok adjacency start goal _ _ st (proj1 HL)) as (path & Hpath & Hcases).
  exists st, path. split_and!; try done.
  unfold App.dijkstra, App.run. rewrite Hloop. simpl. by rewrite Hpath.
Qed.

(** An empty path comes with a distance that is not below [Infinity]. *)
Lemma no_link_no_distance adjacency start goal avoid uf st :
  InvS adjacency start avoid uf st → App.prev st !! goal = None → goal ≠ start →
  ∀ d, App.dist st !! goal = Some d → below_infinity d = false.
Proof.
  intros [_ Hok] Hprev Hne d Hd. destruct (below_infinity d) eqn:Hb; [exfalso|done].
  destruct (ok_tree _ _ _ _ _ _ _ Hok goal d Hd Hb) as (w & Hc & _).
  destruct w as [|e w].
  - by apply chain_nil in Hc.
  - destruct (chain_nonempty _ _ _ _ _ _ Hc) as [u Hu]; [done|congruence].
Qed.

(** From a start that is not a key to another node: no path. *)
Lemma unknown_start_no_path adjacency start goal opts :
  start ∉ keys adjacency → goal ≠ start →
  ∃ r, App.dijkstra adjacency start goal opts = Returned r ∧ path r = [] ∧
       ∀ d, distance r = Some d → below_infinity d = false.
Proof.
  intros Hs Hne.
  destruct (dijkstra_tables adjacency start goal opts)
    as (st & nodes & Hres & [Hinv HLo] & Hend & Hcases).
  eexists. split; [exact Hres|]. cbn [path distance].
  destruct Hcases as [(Hprev & _ & ->)|(w & Hc & -> & Hd & _)].
  - split; [done|]. by eapply no_link_no_distance.
  - exfalso. destruct Hinv as [_ Hok].
    assert (App.visited st = []) as HV.
    { destruct (App.visited st) as [|v V] eqn:EV; [done|]. exfalso. apply Hs.
      apply (ok_visited_keys _ _ _ _ _ _ _ Hok).
      by apply (ok_start _ _ _ _ _ _ _ Hok). }
    rewrite HV in Hc. destruct Hc as [|u es e w Hc Hu]; [done|].
    by apply elem_of_nil in Hu.
Qed.

(** The loop looks at the options through the multipliers of the
    entries of the adjacency only. *)
Lemma relax_fold_factor adjacency avoid uf avoid' uf' V u es dp :
  Forall (λ e, App.factor_of avoid uf e = App.factor_of avoid' uf' e) es →
  fold_left (App.relax avoid uf V u) es dp = fold_left (App.relax avoid' uf' V u) es dp.
Proof.
  intros Hes. revert dp. induction Hes as [|e es He Hes IH]; intros dp; [done|].
  simpl. rewrite <- IH. f_equal. unfold App.relax. by rewrite He.
Qed.

Lemma loop_factor adjacency goal avoid uf avoid' uf' fuel st :
  (∀ u es, adj_get adjacency u = Some es →
     Forall (λ e, App.factor_of avoid uf e = App.factor_of avoid' uf' e) es) →
  App.loop adjacency goal avoid uf fuel st = App.loop adjacency goal avoid' uf' fuel st.
Proof.
  intros Hf. revert st. induction fuel as [|fuel IH]; intros st; [done|].
  simpl. destruct (App.queue st); [done|].
  destruct (App.pick _ _).1 as [u|]; [|done].
  destruct (decide (u = goal)); [done|].
  destruct (adj_get adjacency u) as [es|] eqn:Es; [|done].
  rewrite (relax_fold_factor adjacency avoid uf avoid' uf') by eauto. apply IH.
Qed.

Lemma dijkstra_factor adjacency start goal opts opts' :
  (∀ u es, adj_get adjacency u = Some es →
     Forall (λ e, App.factor_of (App.avoid_of opts) (App.factor_given opts) e =
                  App.factor_of (App.avoid_of opts') (App.factor_given opts') e) es) →
  App.dijkstra adjacency start goal opts = App.dijkstra adjacency start goal opts'.
Proof.
  intros Hf. unfold App.dijkstra, App.run.
  by rewrite (loop_factor adjacency goal _ _ (App.avoid_of opts') (App.factor_given opts')).
Qed.

Lemma all_paved_get adjacency u es :
  all_paved adjacency → adj_get adjacency u = Some es →
  Forall (λ e, unpaved e = false) es.
Proof.
  intros Hp Hu. apply adj_get_elem_of in Hu.
  unfold all_paved in Hp. rewrite Forall_forall in Hp. by apply (Hp (u, es)).
Qed.

Lemma paved_any_options adjacency start goal opts opts' :
  (App.avoid_of opts = false ∧ App.avoid_of opts' = false) ∨ all_paved adjacency →
  App.dijkstra adjacency start goal opts = App.dijkstra adjacency start goal opts'.
Proof.
  intros Hcase. apply dijkstra_factor. intros u es Hu.
  apply Forall_forall. intros e He. unfold App.factor_of.
  destruct Hcase as [[-> ->]|Hp]; [done|].
  pose proof (all_paved_get adjacency u es Hp Hu) as Hes.
  rewrite Forall_forall in Hes. rewrite (Hes e He). by rewrite !andb_false_r.
Qed.

End Calls.

(** What holds of the result of every call. *)
Lemma dijkstra_facts {W} `{NumOps W}
    (adjacency : Adjacency W) (start goal : string) (opts : Opts W) :
  ∃ r, App.dijkstra adjacency start goal opts = Returned r ∧
       visitedCount r ≤ length (keys adjacency) ∧
       NoDup (path r) ∧
       ((path r = [] ∧ goal ≠ start ∧
         ∀ d, distance r = Some d → below_infinity d = false) ∨
        (∃ w, is_walk adjacency start goal w ∧
              path r = walk_nodes start w ∧
              distance r =
                Some (code_cost (App.avoid_of opts) (App.factor_given opts) w) ∧
              below_infinity (code_cost (App.avoid_of opts) (App.factor_given opts) w)
                = true)) ∧
       (start ∈ keys adjacency →
        (∀ x, x ∈ path r → x ∈ keys adjacency) ∧
        length (path r) ≤ visitedCount r ∧ 1 ≤ visitedCount r).
Proof.
  destruct (dijkstra_tables adjacency start goal opts)
    as (st & nodes & Hres & HL & Hend & Hcases).
  eexists. split; [exact Hres|]. cbn [visitedCount path distance].
  split; [by eapply visited_bound|].
  assert (start ∈ keys adjacency → 1 ≤ length (App.visited st)) as Hone.
  { intros Hs. pose proof (start_visited adjacency start goal _ _ st Hs HL Hend) as Hsv.
    destruct (App.visited st); [by apply elem_of_nil in Hsv|simpl; lia]. }
  destruct Hcases as [(Hprev & Hne & ->)|(w & Hc & -> & Hd & Hb)].
  - split; [constructor|]. split.
    + left. split_and!; try done. by eapply no_link_no_distance; [apply HL|..].
    + intros Hs. split_and!; [|simpl; lia|by apply Hone].
      intros x Hx. by apply elem_of_nil in Hx.
  - assert (NoDup (walk_nodes start w)) as Hnd by (by eapply chain_simple; [apply HL|]).
    split; [done|]. split.
    + right. exists w. split_and!; try done. by eapply chain_is_walk.
    + intros Hs.
      assert (∀ x, x ∈ walk_nodes start w → x ∈ App.visited st) as Hin.
      { intros x Hx.
        destruct (chain_visited adjacency start _ _ _ _ x Hc Hx) as [->|Hv]; [|done].
        eapply finite_visited; eauto. }
      split_and!; [| |by apply Hone].
      * intros x Hx. destruct HL as [[_ Hok] _].
        apply (ok_visited_keys _ _ _ _ _ _ _ Hok). by apply Hin.
      * by apply submseteq_length, NoDup_submseteq.
Qed.

(** X5. Whatever the adjacency, the weights and the options, [dijkstra]
    ends and throws nothing; it visits no more nodes than the adjacency
    has keys; no node is twice on the path; and either the path is
    empty, the goal is not the start and the distance is not a finite
    number, or the path is that of a walk from the start to the goal and
    the distance is the cost of that walk, a number below [Infinity]. *)
Theorem dijkstra_sound {W} `{NumLaws W}
    (adjacency : Adjacency W) (start goal : string) (opts : Opts W) :
  ∃ r, App.dijkstra adjacency start goal opts = Returned r ∧
       visitedCount r ≤ length (keys adjacency) ∧
       NoDup (path r) ∧
       ((path r = [] ∧ goal ≠ start ∧ ∀ x, distance r ≠ Some (Fin x)) ∨
        (∃ w, is_walk adjacency start goal w ∧
              path r = walk_nodes start w ∧
              head (path r) = Some start ∧ last (path r) = Some goal ∧
              distance r = Some (walk_cost (avoidance opts) (multiplier opts) w) ∧
              below_infinity (walk_cost (avoidance opts) (multiplier opts) w) = true)).
Proof.
  destruct (dijkstra_facts adjacency start goal opts)
    as (r & Hr & Hcount & Hnd & Hcases & _).
  exists r. split_and!; try done.
  destruct Hcases as [(? & ? & Hno)|(w & Hw & Hpath & Hd & Hb)].
  { left. split_and!; [done|done|]. intros x Hx. by apply Hno in Hx. }
  right. exists w.
  change (avoidance opts) with (App.avoid_of opts).
  change (multiplier opts) with (App.factor_given opts).
  pose proof (code_cost_walk_cost (App.avoid_of opts) (App.factor_given opts) w) as E.
  rewrite <- E. split_and!; try done.
  - by rewrite Hpath.
  - rewrite Hpath. by eapply is_walk_last.
Qed.

Lemma dijkstra_sound_witness :
  ∃ r, App.dijkstra town "a" "d" avoiding = Returned r ∧
       visitedCount r ≤ length (keys town) ∧
       NoDup (path r) ∧
       ((path r = [] ∧ "d" ≠ "a" ∧ ∀ x, distance r ≠ Some (Fin x)) ∨
        (∃ w, is_walk town "a" "d" w ∧
              path r = walk_nodes "a" w ∧
              head (path r) = Some "a" ∧ last (path r) = Some "d" ∧
              distance r = Some (walk_cost true 3%Q w) ∧
              below_infinity (walk_cost true 3%Q w) = true)).
Proof. exact (dijkstra_sound town "a" "d" avoiding). Defined.

(** X6. With the start among the keys of the adjacency, every node of
    the path is a key and was visited: the path is no longer than
    [visitedCount], which is at least 1. *)
Theorem dijkstra_path_visited {W} `{NumOps W}
    (adjacency : Adjacency W) (start goal : string) (opts : Opts W) :
  start ∈ keys adjacency →
  ∃ r, App.dijkstra adjacency start goal opts = Returned r ∧
       (∀ x, x ∈ path r → x ∈ keys adjacency) ∧
       length (path r) ≤ visitedCount r ∧ 1 ≤ visitedCount r.
Proof.
  intros Hs.
  destruct (dijkstra_facts adjacency start goal opts) as (r & Hr & _ & _ & _ & Hin).
  exists r. split; [done|]. by apply Hin.
Qed.

Lemma dijkstra_path_visited_witness :
  ∃ r, App.dijkstra town "a" "d" avoiding = Returned r ∧
       (∀ x, x ∈ path r → x ∈ keys town) ∧
       length (path r) ≤ visitedCount r ∧ 1 ≤ visitedCount r.
Proof.
  apply (dijkstra_path_visited town "a" "d" avoiding).
  unfold keys. simpl. repeat constructor.
Defined.

(** X7. From a key of the adjacency to itself: the path is the node
    alone, the distance is 0, and the node is the only one visited. *)
Theorem dijkstra_same_node {W} `{NumOps W}
    (adjacency : Adjacency W) (start : string) (opts : Opts W) :
  start ∈ keys adjacency →
  App.dijkstra adjacency start start opts =
    Returned {| distance := Some (Fin num0); path := [start]; visitedCount := 1 |}.
Proof.
  intros Hs. unfold App.dijkstra, App.run.
  set (st0 := App.init adjacency start).
  assert (start ∈ App.queue st0) as Hq by (by apply elem_of_of_list).
  assert ((App.pick (App.dist st0) (App.queue st0)).1 = Some start) as Hp.
  { destruct (App.pick (App.dist st0) (App.queue st0)).1 as [u|] eqn:Ep.
    - apply pick_Some in Ep as (Hu & x & Hx & Hb & _).
      unfold st0 in Hx. rewrite init_dist in Hx.
      destruct (decide (u = start)) as [->|Hne]; [done|].
      destruct (bool_decide _); [|done]. injection Hx as <-. done.
    - pose proof (pick_None _ _ start Ep Hq) as K.
      unfold st0 in K. rewrite init_dist, decide_True in K by done. done. }
  destruct (App.queue st0) as [|q0 q] eqn:Eq; [by apply elem_of_nil in Hq|].
  cbn [length App.loop]. rewrite Eq. rewrite Hp. rewrite decide_True by done.
  cbn [mbind outcome_bind].
  unfold App.rebuild. cbn [App.prev App.visited App.dist].
  assert (App.prev st0 = ∅) as -> by done.
  rewrite lookup_empty.
  rewrite (bool_decide_eq_false_2 (is_Some None)) by (by intros [? ?]).
  rewrite bool_decide_eq_true_2 by done. cbn [orb App.unwind].
  rewrite lookup_empty. cbn [mbind outcome_bind].
  unfold st0. rewrite init_dist, decide_True by done. done.
Qed.

Lemma dijkstra_same_node_witness :
  App.dijkstra town "c" "c" avoiding =
    Returned {| distance := Some (Fin 0%Q); path := ["c"]; visitedCount := 1 |}.
Proof.
  refine (dijkstra_same_node town "c" avoiding _).
  unfold keys. simpl. repeat constructor.
Defined.

(** X8. When [avoidUnpaved] is off or absent, or when no entry of the
    adjacency is unpaved, the options change nothing: the result is
    that of a call without options. *)
Theorem dijkstra_ignores_options {W} `{NumOps W}
    (adjacency : Adjacency W) (start goal : string) (opts : Opts W) :
  avoidance opts = false ∨ all_paved adjacency →
  App.dijkstra adjacency start goal opts =
  App.dijkstra adjacency start goal (mkOpts None None).
Proof.
  intros Hcase. apply paved_any_options. destruct Hcase as [Ha|Hp]; [|by right].
  left. by split.
Qed.

Lemma dijkstra_ignores_options_witness :
  App.dijkstra town "a" "d" (mkOpts (Some false) (Some 7%Q)) =
  App.dijkstra town "a" "d" (mkOpts None None).
Proof.
  apply (dijkstra_ignores_options town "a" "d" (mkOpts (Some false) (Some 7%Q))).
  left. reflexivity.
Defined.

(* ================================================================== *)
(** * app.js, [dijkstra]: what the penalty costs *)
(* ================================================================== *)

Section Penalty.
Context {W : Type} `{NumLaws W}.
Variable f : W.
Hypothesis f_ge_1 : num_le num1 f.

(** What is at most a number below [Infinity] is below it. *)
Lemma js_le_below (a b : number W) :
  js_le a b → below_infinity b = true → below_infinity a = true.
Proof. intros (Ha & Hb & Hab). by destruct a, b. Qed.

Lemma effective_cost_mono (uf : W) (e : AdjEntry W) :
  num_le num0 (weight e) →
  js_le (Fin num0) (effective_cost false uf e) ∧
  js_le (effective_cost false uf e) (effective_cost true f e).
Proof.
  intros Hw. unfold effective_cost. cbn [andb]. split; [by apply js_le_Fin|].
  destruct (unpaved e).
  - rewrite <- (num_mul_1 (weight e)) at 1. by apply num_mul_mono.
  - by apply js_le_refl.
Qed.

Lemma fold_cost_mono (uf : W) (w : list (AdjEntry W)) (a b : number W) :
  Forall (λ e, num_le num0 (weight e)) w → js_le (Fin num0) a → js_le a b →
  js_le (fold_left (λ acc e, js_add acc (effective_cost false uf e)) w a)
        (fold_left (λ acc e, js_add acc (effective_cost true f e)) w b).
Proof.
  intros Hw. revert a b. induction Hw as [|e w He Hw IH]; intros a b Ha Hab; [done|].
  simpl. destruct (effective_cost_mono uf e He) as [Hs0 Hss].
  assert (a ≠ NegInfinity) as Ha'.
  { intros ->. by destruct Ha as (_ & _ & ?). }
  apply IH.
  - eapply js_le_trans; [exact Ha|]. apply js_add_nonneg; [|done|done].
    by destruct Ha as (_ & ? & _).
  - apply (js_le_trans _ (js_add b (effective_cost false uf e))).
    + by apply js_add_mono_l.
    + apply js_add_mono_r; [exact (js_le_trans _ _ _ Ha Hab)|done|done].
Qed.

(** Avoiding unpaved roads does not make a walk cheaper. *)
Lemma walk_cost_mono (uf : W) (w : list (AdjEntry W)) :
  Forall (λ e, num_le num0 (weight e)) w →
  js_le (walk_cost false uf w) (walk_cost true f w).
Proof.
  intros Hw. unfold walk_cost. apply fold_cost_mono; [done| |]; by apply js_le_refl.
Qed.
End Penalty.

Lemma walk_weights_nonneg {W} `{NumOps W} (adjacency : Adjacency W) s t w :
  weights_nonneg adjacency → is_walk adjacency s t w →
  Forall (λ e, num_le num0 (weight e)) w.
Proof.
  intros Hw. induction 1 as [s|s es e t w Hs He Hwalk IH]; [constructor|].
  constructor; [|done].
  exact (weights_nonneg_get adjacency s es e Hw Hs He).
Qed.

(** The result of a call when a walk whose cost is below [Infinity]
    leads to the goal. *)
Lemma reachable_result_get {W} `{NumLaws W} (adjacency : Adjacency W) start goal opts w0 :
  (∀ u es e, adj_get adjacency u = Some es → e ∈ es → num_le num0 (weight e)) →
  num_le num1 (App.factor_given opts) →
  start ∈ keys adjacency → goal ∈ keys adjacency →
  is_walk adjacency start goal w0 →
  below_infinity (walk_cost (App.avoid_of opts) (App.factor_given opts) w0) = true →
  ∃ r w,
    App.dijkstra adjacency start goal opts = Returned r ∧
    is_walk adjacency start goal w ∧
    path r = walk_nodes start w ∧
    distance r = Some (walk_cost (App.avoid_of opts) (App.factor_given opts) w) ∧
    below_infinity (walk_cost (App.avoid_of opts) (App.factor_given opts) w) = true ∧
    ∀ w', is_walk adjacency start goal w' →
          js_le (walk_cost (App.avoid_of opts) (App.factor_given opts) w)
                (walk_cost (App.avoid_of opts) (App.factor_given opts) w').
Proof.
  intros Hw Hf Hs Hg Hw0 Hc0.
  destruct (optimal_result adjacency start goal (App.avoid_of opts) (App.factor_given opts))
    with (w0 := w0) as (st & w & Hloop & Hpath & Hd & Hb & Hwalk & Hmin); try done.
  exists (mkPathResult (App.dist st !! goal) (walk_nodes start w) (length (App.visited st))), w.
  split_and!; try done.
  unfold App.dijkstra, App.run. rewrite Hloop. simpl. by rewrite Hpath.
Qed.

Lemma reachable_result {W} `{NumLaws W} (adjacency : Adjacency W) start goal opts w0 :
  weights_nonneg adjacency → num_le num1 (App.factor_given opts) →
  start ∈ keys adjacency → goal ∈ keys adjacency →
  is_walk adjacency start goal w0 →
  below_infinity (walk_cost (App.avoid_of opts) (App.factor_given opts) w0) = true →
  ∃ r w,
    App.dijkstra adjacency start goal opts = Returned r ∧
    is_walk adjacency start goal w ∧
    path r = walk_nodes start w ∧
    distance r = Some (walk_cost (App.avoid_of opts) (App.factor_given opts) w) ∧
    below_infinity (walk_cost (App.avoid_of opts) (App.factor_given opts) w) = true ∧
    ∀ w', is_walk adjacency start goal w' →
          js_le (walk_cost (App.avoid_of opts) (App.factor_given opts) w)
                (walk_cost (App.avoid_of opts) (App.factor_given opts) w').
Proof.
  intros Hw. apply reachable_result_get. intros u es e. by apply weights_nonneg_get.
Qed.

(** Avoiding unpaved roads does not lower the distance of the goal. *)
Lemma penalty_le {W} `{NumLaws W}
    (adjacency : Adjacency W) (start goal : string) (o0 o1 : Opts W) :
  weights_nonneg adjacency →
  App.avoid_of o0 = false → num_le num1 (App.factor_given o0) →
  App.avoid_of o1 = true → num_le num1 (App.factor_given o1) →
  start ∈ keys adjacency → goal ∈ keys adjacency →
  ∃ r0 r1 d0 d1,
    App.dijkstra adjacency start goal o0 = Returned r0 ∧
    App.dijkstra adjacency start goal o1 = Returned r1 ∧
    distance r0 = Some d0 ∧ distance r1 = Some d1 ∧ js_le d0 d1.
Proof.
  intros Hw Ha0 Hf0 Ha1 Hf1 Hs Hg.
  destruct (dijkstra_returns adjacency start goal o0)
    as (st0 & p0 & Hrun0 & Hp0 & [Hq0 Hok0] & Hres0).
  destruct (dijkstra_returns adjacency start goal o1)
    as (st1 & p1 & Hrun1 & Hp1 & [Hq1 Hok1] & Hres1).
  destruct (ok_dist_keys _ _ _ _ _ _ _ Hok0 goal Hg) as [d0 Hd0].
  destruct (ok_dist_keys _ _ _ _ _ _ _ Hok1 goal Hg) as [d1 Hd1].
  assert (d0 ≠ NaN) as Hn0.
  { intros ->. by apply (ok_dist_nan _ _ _ _ _ _ _ Hok0 goal). }
  assert (d1 ≠ NaN) as Hn1.
  { intros ->. by apply (ok_dist_nan _ _ _ _ _ _ _ Hok1 goal). }
  eexists _, _, d0, d1.
  split; [exact Hres0|]. split; [exact Hres1|]. split; [exact Hd0|]. split; [exact Hd1|].
  destruct (below_infinity d1) eqn:Hb1.
  - destruct (ok_tree _ _ _ _ _ _ _ Hok1 goal d1 Hd1 Hb1) as (w1 & Hc1 & Hcost1 & _).
    pose proof (chain_is_walk _ _ _ _ _ _ Hc1) as Hw1.
    pose proof (code_cost_walk_cost (App.avoid_of o1) (App.factor_given o1) w1) as E.
    rewrite E, Ha1 in Hcost1.
    pose proof (walk_cost_mono (App.factor_given o1) Hf1 (App.factor_given o0) w1
                  (walk_weights_nonneg _ _ _ _ Hw Hw1)) as Hmono.
    rewrite Hcost1 in Hmono.
    destruct (reachable_result adjacency start goal o0 w1)
      as (r0 & w & Hr0 & _ & _ & Hd & _ & Hmin); try done.
    { rewrite Ha0. by eapply js_le_below. }
    rewrite Hres0 in Hr0. injection Hr0 as <-. cbn [distance] in Hd.
    rewrite Hd0 in Hd. injection Hd as ->.
    eapply js_le_trans; [apply (Hmin w1 Hw1)|]. by rewrite Ha0.
  - assert (d1 = Infinity) as -> by (by destruct d1). by apply js_le_Infinity.
Qed.

(** X9. With non-negative weights, and a start and a goal that are
    keys of the adjacency: avoiding unpaved roads with a multiplier of
    at least 1 never gives a smaller distance than the call without
    options.  Both distances are numbers, [Infinity] included, and
    neither is [NaN]. *)
Theorem dijkstra_penalty_monotone {W} `{NumLaws W}
    (adjacency : Adjacency W) (start goal : string) (f : W) :
  weights_nonneg adjacency → num_le num1 f →
  start ∈ keys adjacency → goal ∈ keys adjacency →
  ∃ r0 r1 d0 d1,
    App.dijkstra adjacency start goal (mkOpts None None) = Returned r0 ∧
    App.dijkstra adjacency start goal (mkOpts (Some true) (Some f)) = Returned r1 ∧
    distance r0 = Some d0 ∧ distance r1 = Some d1 ∧ js_le d0 d1.
Proof.
  intros Hw Hf Hs Hg. apply penalty_le; try done. apply num3_ge_1.
Qed.

Lemma dijkstra_penalty_monotone_witness :
  ∃ r0 r1 d0 d1,
    App.dijkstra town "a" "d" (mkOpts None None) = Returned r0 ∧
    App.dijkstra town "a" "d" (mkOpts (Some true) (Some 3%Q)) = Returned r1 ∧
    distance r0 = Some d0 ∧ distance r1 = Some d1 ∧ js_le d0 d1.
Proof.
  apply (dijkstra_penalty_monotone town "a" "d" 3%Q).
  - repeat constructor.
  - reflexivity.
  - unfold keys. simpl. repeat constructor.
  - unfold keys. simpl. repeat constructor.
Defined.

(* ================================================================== *)
(** * The adjacency lists of a built graph *)
(* ================================================================== *)

Lemma adj_get_put {W} (adjacency : Adjacency W) k v k' :
  adj_get (adj_put adjacency k v) k' =
  if decide (k = k') then Some v else adj_get adjacency k'.
Proof.
  induction adjacency as [|[k0 v0] rest IH]; simpl.
  - destruct (decide (k = k')); done.
  - destruct (decide (k0 = k)) as [->|Hne]; simpl.
    + destruct (decide (k = k')); done.
    + destruct (decide (k0 = k')) as [->|Hne'].
      * by rewrite decide_False by done.
      * done.
Qed.

Lemma keys_put_present {W} (adjacency : Adjacency W) k v :
  k ∈ keys adjacency → keys (adj_put adjacency k v) = keys adjacency.
Proof.
  unfold keys. induction adjacency as [|[k0 v0] rest IH]; simpl.
  - intros Hk. by apply elem_of_nil in Hk.
  - intros Hk. destruct (decide (k0 = k)) as [->|Hne]; [done|].
    simpl. f_equal. apply IH. set_solver.
Qed.

Lemma keys_put_fresh {W} (adjacency : Adjacency W) k v :
  k ∉ keys adjacency → keys (adj_put adjacency k v) = keys adjacency ++ [k].
Proof.
  unfold keys. induction adjacency as [|[k0 v0] rest IH]; simpl; [done|].
  intros Hk. destruct (decide (k0 = k)) as [->|Hne]; [set_solver|].
  simpl. f_equal. apply IH. set_solver.
Qed.

(** The adjacency object after the loop over the nodes. *)
Lemma put_all_spec (nodes : list Node.t) (adjacency : Adjacency (number R)) :
  NoDup (keys adjacency ++ (Node.id <$> nodes)) →
  keys (fold_left (λ adj n, adj_put adj (Node.id n) []) nodes adjacency)
    = keys adjacency ++ (Node.id <$> nodes) ∧
  ∀ k, adj_get (fold_left (λ adj n, adj_put adj (Node.id n) []) nodes adjacency) k =
       if bool_decide (k ∈ Node.id <$> nodes) then Some [] else adj_get adjacency k.
Proof.
  revert adjacency. induction nodes as [|n nodes IH]; intros adjacency Hnd.
  - simpl. rewrite app_nil_r. done.
  - cbn [fold_left fmap list_fmap] in *.
    assert (Node.id n ∉ keys adjacency) as Hfresh.
    { apply NoDup_app in Hnd as (_ & Hdis & _). intros Hin.
      apply (Hdis _ Hin). set_solver. }
    assert (Node.id n ∉ Node.id <$> nodes) as Hfresh'.
    { apply NoDup_app in Hnd as (_ & _ & Hn). by apply NoDup_cons in Hn as [? _]. }
    destruct (IH (adj_put adjacency (Node.id n) [])) as [Hkeys Hget].
    { rewrite keys_put_fresh by done. rewrite <- app_assoc. done. }
    split.
    + rewrite Hkeys, keys_put_fresh by done. by rewrite <- app_assoc.
    + intros k. rewrite Hget, adj_get_put.
      destruct (decide (k ∈ Node.id <$> nodes)) as [Hin|Hout].
      * rewrite !bool_decide_eq_true_2; [done|set_solver|done].
      * rewrite (bool_decide_eq_false_2 _ Hout).
        destruct (decide (Node.id n = k)) as [<-|Hne].
        -- rewrite bool_decide_eq_true_2; [done|set_solver].
        -- rewrite bool_decide_eq_false_2; [done|set_solver].
Qed.

Lemma entries_from_snoc edges e k :
  entries_from (edges ++ [e]) k =
  entries_from edges k ++ (if decide (Edge.from e = k) then [entry_of e] else []).
Proof.
  unfold entries_from. rewrite filter_app, fmap_app. f_equal.
  rewrite filter_cons. destruct (decide (Edge.from e = k)); done.
Qed.

(** The adjacency object after the loop over the edges. *)
Lemma push_all_spec (edges done : list Edge.t) (adjacency : Adjacency (number R)) :
  (∀ e, e ∈ edges → Edge.from e ∈ keys adjacency) →
  (∀ k, k ∈ keys adjacency → adj_get adjacency k = Some (entries_from done k)) →
  ∃ adjacency',
    for_each adj_push edges adjacency = Returned adjacency' ∧
    keys adjacency' = keys adjacency ∧
    ∀ k, k ∈ keys adjacency →
         adj_get adjacency' k = Some (entries_from (done ++ edges) k).
Proof.
  revert done adjacency. induction edges as [|e edges IH]; intros done adjacency Hfrom Hget.
  - exists adjacency. rewrite app_nil_r. done.
  - assert (Edge.from e ∈ keys adjacency) as Hk by (apply Hfrom; set_solver).
    set (adj1 := adj_put adjacency (Edge.from e)
                   (entries_from done (Edge.from e) ++ [entry_of e])).
    assert (adj_push adjacency e = Returned adj1) as Hpush.
    { unfold adj_push. by rewrite (Hget _ Hk). }
    cbn [for_each]. rewrite Hpush. cbn [mbind outcome_bind].
    destruct (IH (done ++ [e]) adj1) as (adjacency' & Hres & Hkeys & Hget').
    + intros e' He'. unfold adj1. rewrite keys_put_present by done.
      apply Hfrom. set_solver.
    + unfold adj1. rewrite keys_put_present by done. intros k Hin.
      rewrite adj_get_put, entries_from_snoc.
      destruct (decide (Edge.from e = k)) as [->|Hne]; [done|].
      rewrite app_nil_r. by apply Hget.
    + exists adjacency'. split; [done|].
      unfold adj1 in Hkeys, Hget'. rewrite keys_put_present in Hkeys, Hget' by done.
      split; [done|]. intros k Hin. rewrite Hget' by done.
      by rewrite <- app_assoc.
Qed.

(** The adjacency object of nodes with distinct ids and edges that
    start at nodes: its keys are the ids of the nodes, in their order,
    and the list of a node holds the entries for the edges that leave
    it, in the order of the edges. *)
Lemma build_adjacency_spec (nodes : list Node.t) (edges : list Edge.t) :
  NoDup (Node.id <$> nodes) →
  (∀ e, e ∈ edges → Edge.from e ∈ Node.id <$> nodes) →
  ∃ adjacency,
    build_adjacency nodes edges = Returned adjacency ∧
    keys adjacency = Node.id <$> nodes ∧
    ∀ k, k ∈ Node.id <$> nodes → adj_get adjacency k = Some (entries_from edges k).
Proof.
  intros Hnd Hfrom. unfold build_adjacency.
  destruct (put_all_spec nodes []) as [Hkeys Hget]; [done|].
  simpl in Hkeys.
  destruct (push_all_spec edges []
              (fold_left (λ adj n, adj_put adj (Node.id n) []) nodes []))
    as (adjacency & Hres & Hkeys' & Hget').
  - intros e He. rewrite Hkeys. by apply Hfrom.
  - intros k Hk. rewrite Hget. rewrite Hkeys in Hk.
    by rewrite bool_decide_eq_true_2.
  - exists adjacency. rewrite Hkeys', Hkeys in *. done.
Qed.

Lemma elem_of_entries_from edges k x :
  x ∈ entries_from edges k ↔ ∃ e, e ∈ edges ∧ Edge.from e = k ∧ x = entry_of e.
Proof.
  unfold entries_from. rewrite list_elem_of_fmap. setoid_rewrite list_elem_of_filter.
  naive_solver.
Qed.

(** When every edge has its opposite edge, every entry of the
    adjacency lists has its opposite entry. *)
Lemma adjacency_two_way (ids : list string) (edges : list Edge.t)
    (adjacency : Adjacency (number R)) :
  keys adjacency = ids →
  (∀ k, k ∈ ids → adj_get adjacency k = Some (entries_from edges k)) →
  (∀ e, e ∈ edges → Edge.from e ∈ ids) →
  (∀ e, e ∈ edges →
     ∃ e', e' ∈ edges ∧ Edge.from e' = Edge.to e ∧ Edge.to e' = Edge.from e ∧
           Edge.weight e' = Edge.weight e ∧ Edge.unpaved e' = Edge.unpaved e ∧
           Edge.surface e' = Edge.surface e) →
  ∀ u es x, adj_get adjacency u = Some es → x ∈ es →
    ∃ es' x', adj_get adjacency (to x) = Some es' ∧ x' ∈ es' ∧ to x' = u ∧
              weight x' = weight x ∧ unpaved x' = unpaved x ∧ surface x' = surface x.
Proof.
  intros Hkeys Hget Hfrom Hsym u es x Hu Hx.
  assert (u ∈ ids) as Hin by (rewrite <- Hkeys; apply adj_get_keys; eauto).
  rewrite (Hget u Hin) in Hu. injection Hu as <-.
  apply elem_of_entries_from in Hx as (e & He & <- & ->).
  destruct (Hsym e He) as (e' & He' & Hf & Ht & Hw & Hp & Hs).
  exists (entries_from edges (Edge.to e)), (entry_of e'). split_and!; try done.
  - apply Hget. rewrite <- Hf. by apply Hfrom.
  - apply elem_of_entries_from. by exists e'.
Qed.

(* ================================================================== *)
(** * graph.js: the adjacency lists of the grid *)
(* ================================================================== *)

Lemma filter_flat_map {A B} (P : B → Prop) `{∀ x, Decision (P x)}
    (f : A → list B) (l : list A) :
  filter P (flat_map f l) = flat_map (λ x, filter P (f x)) l.
Proof.
  induction l as [|x l IH]; [done|]. simpl. by rewrite filter_app, IH.
Qed.

Lemma flat_map_nil {A B} (f : A → list B) (l : list A) :
  (∀ x, x ∈ l → f x = []) → flat_map f l = [].
Proof.
  induction l as [|x l IH]; intros Hf; [done|]. simpl.
  rewrite (Hf x) by set_solver. apply IH. intros; apply Hf; set_solver.
Qed.

Lemma flat_map_single {A B} (f : A → list B) (l : list A) (x : A) :
  NoDup l → x ∈ l → (∀ y, y ∈ l → y ≠ x → f y = []) → flat_map f l = f x.
Proof.
  induction l as [|y l IH]; intros Hnd Hx Hf; [by apply elem_of_nil in Hx|].
  apply NoDup_cons in Hnd as [Hy Hnd]. simpl.
  apply elem_of_cons in Hx as [->|Hx].
  - rewrite (flat_map_nil f l); [by rewrite app_nil_r|].
    intros z Hz. apply Hf; [set_solver|]. by intros ->.
  - assert (y ≠ x) as Hne by (by intros ->).
    rewrite (Hf y) by set_solver. simpl. apply IH; set_solver.
Qed.

Lemma filter_all {A} (P : A → Prop) `{∀ x, Decision (P x)} (l : list A) :
  Forall P l → filter P l = l.
Proof.
  induction 1 as [|x l Hx Hl IH]; [done|]. rewrite filter_cons, decide_True by done.
  by rewrite IH.
Qed.

Lemma filter_none {A} (P : A → Prop) `{∀ x, Decision (P x)} (l : list A) :
  Forall (λ x, ¬ P x) l → filter P l = [].
Proof.
  induction 1 as [|x l Hx Hl IH]; [done|]. by rewrite filter_cons, decide_False.
Qed.

Lemma idx_inj cols r c r' c' :
  c < cols → c' < cols → Grid.idx cols r c = Grid.idx cols r' c' → r = r' ∧ c = c'.
Proof.
  unfold Grid.idx. intros Hc Hc' Heq.
  assert (r = r') as ->.
  { destruct (Nat.lt_trichotomy r r') as [Hlt|[?|Hgt]]; [|done|].
    - assert ((r + 1) * cols <= r' * cols) by (apply Nat.mul_le_mono_r; lia). lia.
    - assert ((r' + 1) * cols <= r * cols) by (apply Nat.mul_le_mono_r; lia). lia. }
  split; [done|lia].
Qed.

Section GridAdjacency.
Variables startLat startLng delta : R.
Variables rows cols : nat.
Local Abbreviation node := (grid_node startLat startLng delta cols).
Local Abbreviation nodes := (flat_map (λ r, map (node r) (seq 0 cols)) (seq 0 rows)).
Local Abbreviation edges := (grid_edges rows cols node).

Lemma grid_ids : Node.id <$> nodes = pretty <$> seq 0 (rows * cols).
Proof.
  induction rows as [|m IH]; [done|].
  rewrite seq_S, flat_map_app, fmap_app, IH. simpl. rewrite app_nil_r.
  replace (cols + m * cols) with (m * cols + cols) by lia.
  rewrite seq_app, fmap_app. f_equal. simpl.
  rewrite <- list_fmap_compose.
  apply list_eq. intros k. rewrite !list_lookup_fmap.
  destruct (decide (k < cols)) as [Hk|Hk].
  - rewrite !lookup_seq_lt by done. done.
  - rewrite !lookup_seq_ge by lia. done.
Qed.

Lemma grid_ids_NoDup : NoDup (Node.id <$> nodes).
Proof. rewrite grid_ids. apply NoDup_fmap_2; [apply _|apply NoDup_seq]. Qed.

Lemma grid_id_elem_of r c :
  r < rows → c < cols → Node.id (node r c) ∈ Node.id <$> nodes.
Proof.
  intros Hr Hc. apply list_elem_of_fmap. exists (node r c). split; [done|].
  apply list_elem_of_lookup. exists (Grid.idx cols r c). by apply lookup_grid.
Qed.

(** The edges that leave a cell are those to its neighbours. *)
Lemma grid_entries_from i j :
  i < rows → j < cols →
  entries_from edges (Node.id (node i j)) =
  (λ q, entry_of (edge_of node (i, j) q)) <$> neighbor_cells rows cols i j.
Proof.
  intros Hi Hj. unfold entries_from, grid_edges.
  rewrite filter_flat_map.
  rewrite (flat_map_single _ _ i); [|apply NoDup_seq|apply elem_of_seq; lia|].
  - rewrite filter_flat_map.
    rewrite (flat_map_single _ _ j); [|apply NoDup_seq|apply elem_of_seq; lia|].
    + rewrite filter_all; [by rewrite <- list_fmap_compose|].
      apply Forall_forall. by intros e (q & -> & _)%list_elem_of_fmap.
    + intros j' Hj'%elem_of_seq Hne. apply filter_none, Forall_forall.
      intros e (q & -> & _)%list_elem_of_fmap. simpl. intros Heq.
      apply (inj pretty) in Heq. apply idx_inj in Heq as [_ ?]; [done|lia|done].
  - intros i' Hi'%elem_of_seq Hne. rewrite filter_flat_map.
    apply flat_map_nil. intros c Hc%elem_of_seq.
    apply filter_none, Forall_forall.
    intros e (q & -> & _)%list_elem_of_fmap. simpl. intros Heq.
    apply (inj pretty) in Heq. apply idx_inj in Heq as [? _]; [done|lia|done].
Qed.
End GridAdjacency.

(** The graph [buildGridGraph] returns. *)
Lemma grid_built (center : LatLng) (r c : nat) (delta : R) :
  ∃ adjacency,
    buildGridGraph center (Some r) (Some c) (Some delta) =
      Returned (Graph.mk
        (flat_map (λ i, map (grid_node (lat center - (INR r - 1) * delta / 2)
                                       (lng center - (INR c - 1) * delta / 2) delta c i)
                            (seq 0 c)) (seq 0 r))
        (grid_edges r c (grid_node (lat center - (INR r - 1) * delta / 2)
                                   (lng center - (INR c - 1) * delta / 2) delta c))
        adjacency) ∧
    keys adjacency = pretty <$> seq 0 (r * c) ∧
    (∀ k, k ∈ keys adjacency →
       adj_get adjacency k =
       Some (entries_from
               (grid_edges r c (grid_node (lat center - (INR r - 1) * delta / 2)
                                          (lng center - (INR c - 1) * delta / 2) delta c))
               k)) ∧
    ∀ i j, i < r → j < c →
      adj_get adjacency (cell_id c (i, j)) =
      Some ((λ q, mkAdjEntry (cell_id c q)
                    (haversine (lattice_point center r c delta i j)
                               (lattice_point center r c delta q.1 q.2))
                    false "paved") <$> neighbor_cells r c i j).
Proof.
  unfold buildGridGraph.
  change (default 5 (Some r)) with r. change (default 5 (Some c)) with c.
  change (default (2 / 1000)%R (Some delta)) with delta. unfold Grid.build.
  rewrite make_nodes_rows. cbn [fst].
  set (startLat := (lat center - (INR r - 1) * delta / 2)%R).
  set (startLng := (lng center - (INR c - 1) * delta / 2)%R).
  set (node := grid_node startLat startLng delta c).
  set (nodes := flat_map (λ i, map (node i) (seq 0 c)) (seq 0 r)).
  assert (∀ i j, i < r → j < c → nodes !! Grid.idx c i j = Some (node i j)) as Hlookup.
  { intros i j Hi Hj. by apply lookup_grid. }
  rewrite (make_edges_spec r c node nodes Hlookup). cbn [mbind outcome_bind].
  destruct (build_adjacency_spec nodes (grid_edges r c node))
    as (adjacency & Hadj & Hkeys & Hget).
  { apply grid_ids_NoDup. }
  { intros e (i & j & i' & j' & Hi & Hj & _ & ->)%elem_of_grid_edges.
    by apply grid_id_elem_of. }
  rewrite Hadj. cbn [mbind outcome_bind]. exists adjacency. split; [done|].
  split; [by rewrite Hkeys; apply grid_ids|].
  split; [intros k Hk; apply Hget; by rewrite <- Hkeys|].
  intros i j Hi Hj.
  change (cell_id c (i, j)) with (Node.id (node i j)).
  rewrite Hget by (by apply grid_id_elem_of).
  unfold node. by rewrite grid_entries_from.
Qed.

(** Every edge of the grid has its opposite edge. *)
Lemma grid_edges_two_way rows cols node e :
  e ∈ grid_edges rows cols node →
  ∃ e', e' ∈ grid_edges rows cols node ∧
        Edge.from e' = Edge.to e ∧ Edge.to e' = Edge.from e ∧
        Edge.weight e' = Edge.weight e ∧ Edge.unpaved e' = Edge.unpaved e ∧
        Edge.surface e' = Edge.surface e.
Proof.
  intros (i & j & i' & j' & Hi & Hj & Hq & ->)%elem_of_grid_edges.
  apply elem_of_neighbor_cells in Hq as (Hi' & Hj' & Hnext); [|done|done].
  exists (edge_of node (i', j') (i, j)). split_and!; try done.
  - apply elem_of_grid_edges. exists i', j', i, j. split_and!; [done|done| |done].
    apply elem_of_neighbor_cells; [done|done|]. split_and!; [done|done|lia].
  - apply haversine_comm.
Qed.

(** X10. The adjacency object of a grid: its keys are the ids of the
    nodes, [0] to [r * c - 1] in this order; the list of the node of row
    [i] and column [j] holds one entry for each cell next to it, in the
    order above, below, left, right, paved and with the distance between
    the two lattice points as its weight; and every entry has its
    opposite entry, of the same weight, in the list of the node it
    leads to. *)
Theorem grid_adjacency (center : LatLng) (r c : nat) (delta : R) :
  ∃ g,
    buildGridGraph center (Some r) (Some c) (Some delta) = Returned g ∧
    keys (Graph.adjacency g) = Node.id <$> Graph.nodes g ∧
    keys (Graph.adjacency g) = pretty <$> seq 0 (r * c) ∧
    (∀ i j, i < r → j < c →
       adj_get (Graph.adjacency g) (cell_id c (i, j)) =
       Some ((λ q, mkAdjEntry (cell_id c q)
                     (haversine (lattice_point center r c delta i j)
                                (lattice_point center r c delta q.1 q.2))
                     false "paved") <$> neighbor_cells r c i j)) ∧
    ∀ u es x, adj_get (Graph.adjacency g) u = Some es → x ∈ es →
      ∃ es' x', adj_get (Graph.adjacency g) (to x) = Some es' ∧ x' ∈ es' ∧
                to x' = u ∧ weight x' = weight x.
Proof.
  destruct (grid_built center r c delta) as (adjacency & Hg & Hkeys & Hfrom & Hget).
  eexists. split; [exact Hg|]. cbn [Graph.adjacency Graph.nodes].
  split_and!; [|done|done|]; [by rewrite Hkeys, grid_ids|].
  intros u es x Hu Hx.
  destruct (adjacency_two_way (keys adjacency) _ adjacency eq_refl Hfrom) with u es x
    as (es' & x' & ? & ? & ? & ? & _); try done.
  - intros e (i & j & i' & j' & Hi & Hj & _ & ->)%elem_of_grid_edges.
    rewrite Hkeys.
    rewrite <- (grid_ids (lat center - (INR r - 1) * delta / 2)
                         (lng center - (INR c - 1) * delta / 2) delta r c).
    by apply grid_id_elem_of.
  - apply grid_edges_two_way.
  - by exists es', x'.
Qed.

(* ================================================================== *)
(** * graph.js: the weights of the grid *)
(* ================================================================== *)

Section GridWeights.
Variables startLat startLng delta : R.
Variable cols : nat.
Local Abbreviation node := (grid_node startLat startLng delta cols).

End GridWeights.


(* ================================================================== *)
(** * Routes on the grid *)
(* ================================================================== *)




Lemma lift_lower_entry (e : AdjEntry (number R)) :
  (∃ d, weight e = Fin d) → lift_entry (lower_entry e) = e.
Proof. destruct e as [t w u s]. intros [d Hd]. simpl in Hd. subst w. done. Qed.

Lemma lift_lower (adjacency : Adjacency (number R)) :
  Forall (λ kes, Forall (λ e, ∃ d, weight e = Fin d) kes.2) adjacency →
  lift_adjacency (lower_adjacency adjacency) = adjacency.
Proof.
  induction 1 as [|[k es] rest Hes Hrest IH]; [done|].
  unfold lift_adjacency, lower_adjacency in *. cbn [fmap list_fmap fst snd].
  f_equal; [|exact IH]. f_equal. simpl in Hes.
  induction Hes as [|e es He Hes IHes]; [done|].
  cbn [fmap list_fmap]. f_equal; [by apply lift_lower_entry|exact IHes].
Qed.

Lemma adj_get_elem {W} (adjacency : Adjacency W) k es :
  NoDup (keys adjacency) → (k, es) ∈ adjacency → adj_get adjacency k = Some es.
Proof.
  unfold keys. induction adjacency as [|[k0 es0] rest IH]; intros Hnd Hin.
  - by apply elem_of_nil in Hin.
  - simpl in *. apply NoDup_cons in Hnd as [Hk0 Hnd].
    apply elem_of_cons in Hin as [[= -> ->]|Hin].
    + by rewrite decide_True.
    + rewrite decide_False; [by apply IH|]. intros ->. apply Hk0.
      apply list_elem_of_fmap. by exists (k, es).
Qed.

Section GridRoutes.
Variable center : LatLng.
Variables r c : nat.
Variable delta : R.
Variable adjacency : Adjacency (number R).
Hypothesis grid_keys : keys adjacency = pretty <$> seq 0 (r * c).
Hypothesis grid_get : ∀ i j, i < r → j < c →
  adj_get adjacency (cell_id c (i, j)) =
  Some ((λ q, mkAdjEntry (cell_id c q)
                (haversine (lattice_point center r c delta i j)
                           (lattice_point center r c delta q.1 q.2))
                false "paved") <$> neighbor_cells r c i j).







End GridRoutes.

Lemma walk_cost_real (avoid : bool) (uf : R) (w : list (AdjEntry R)) :
  walk_cost avoid uf w = Fin (real_cost avoid uf w).
Proof.
  unfold walk_cost, real_cost. change (@num0 R R_ops) with 0%R. generalize 0%R.
  induction w as [|e w IH]; intros a; [done|]. cbn [fold_left]. rewrite <- IH.
  f_equal. unfold effective_cost. by destruct (avoid && unpaved e).
Qed.




(* ================================================================== *)
(** * osm.js: the nodes of the road graph *)
(* ================================================================== *)

Lemma node_id_inj : Inj (=) (=) node_id.
Proof. intros a b Hab. unfold node_id in Hab. simpl in Hab. injection Hab as Hab.
  by apply (inj pretty). Qed.

Lemma map_set_keys {V} (m : list (Z * V)) k v :
  (Osm.map_set m k v).*1 = if bool_decide (k ∈ m.*1) then m.*1 else m.*1 ++ [k].
Proof.
  induction m as [|[k0 v0] m IH]; [done|]. cbn [Osm.map_set].
  destruct (decide (k0 = k)) as [->|Hne]; rewrite !fmap_cons; cbn [fst].
  - rewrite bool_decide_eq_true_2; [done|set_solver].
  - rewrite IH. destruct (decide (k ∈ m.*1)) as [Hin|Hout].
    + rewrite !bool_decide_eq_true_2; [done|set_solver|done].
    + rewrite !bool_decide_eq_false_2; [done|set_solver|done].
Qed.

Lemma map_set_NoDup {V} (m : list (Z * V)) k v :
  NoDup m.*1 → NoDup (Osm.map_set m k v).*1.
Proof.
  intros Hnd. rewrite map_set_keys. destruct (decide (k ∈ m.*1)) as [Hin|Hout].
  - by rewrite bool_decide_eq_true_2.
  - rewrite bool_decide_eq_false_2 by done. apply NoDup_app.
    split_and!; [done| |apply NoDup_singleton].
    intros x Hx ->%list_elem_of_singleton. done.
Qed.

Lemma parse_element_nodes acc el :
  (Osm.parse_element acc el).1 =
  if decide (Element.type el = "node")
  then Osm.map_set acc.1 (Element.id el) (mkLatLng (Element.lat el) (Element.lon el))
  else acc.1.
Proof.
  unfold Osm.parse_element. destruct (decide (Element.type el = "node")); [done|].
  destruct (decide _); [|done]. destruct (Element.nodes el); [|done].
  by destruct (2 <=? _).
Qed.

Lemma parsed_nodes_NoDup_from elements acc :
  NoDup acc.1.*1 → NoDup (fold_left Osm.parse_element elements acc).1.*1.
Proof.
  revert acc. induction elements as [|el elements IH]; intros acc Hnd; [done|].
  simpl. apply IH. rewrite parse_element_nodes.
  destruct (decide _); [by apply map_set_NoDup|done].
Qed.

Lemma parsed_nodes_NoDup elements : NoDup (parsed_nodes elements).*1.
Proof. apply parsed_nodes_NoDup_from. constructor. Qed.

(** [nodeMap] holds, for an id, the coordinates of the last element
    of type [node] with this id. *)
Lemma parsed_nodes_get_from elements acc k :
  Osm.map_get (fold_left Osm.parse_element elements acc).1 k =
  match last (node_elements elements k) with
  | Some el => Some (mkLatLng (Element.lat el) (Element.lon el))
  | None => Osm.map_get acc.1 k
  end.
Proof.
  revert acc. induction elements as [|el elements IH]; intros acc; [done|].
  simpl. rewrite IH, parse_element_nodes. unfold node_elements.
  rewrite filter_cons.
  destruct (decide (Element.type el = "node")) as [Hty|Hty].
  - rewrite map_get_set. destruct (decide (Element.id el = k)) as [Hk|Hk].
    + rewrite ?decide_True by done.
      destruct (filter _ elements) as [|el' l] eqn:El; [done|].
      rewrite !last_cons. by destruct (last l).
    + by rewrite ?decide_False by tauto.
  - by rewrite ?decide_False by tauto.
Qed.

Lemma parsed_nodes_get elements k :
  Osm.map_get (parsed_nodes elements) k =
  (λ el, mkLatLng (Element.lat el) (Element.lon el)) <$> last (node_elements elements k).
Proof.
  unfold parsed_nodes. rewrite parsed_nodes_get_from. simpl.
  by destruct (last _).
Qed.

Lemma index_nodes_list (nodeMap : list (Z * LatLng)) acc :
  (fold_left Osm.index_node nodeMap acc).1 = acc.1 ++ (node_of <$> nodeMap).
Proof.
  revert acc. induction nodeMap as [|entry nodeMap IH]; intros acc; simpl.
  - by rewrite app_nil_r.
  - rewrite IH. unfold Osm.index_node at 1. simpl. by rewrite <- app_assoc.
Qed.

Lemma map_get_lookup {V} (m : list (Z * V)) k v :
  (k, v) ∈ m → NoDup m.*1 → Osm.map_get m k = Some v.
Proof.
  induction m as [|[k0 v0] m IH]; intros Hin Hnd; [by apply elem_of_nil in Hin|].
  simpl in *. apply NoDup_cons in Hnd as [Hk0 Hnd].
  apply elem_of_cons in Hin as [[= -> ->]|Hin].
  - by rewrite decide_True.
  - rewrite decide_False; [by apply IH|]. intros ->. apply Hk0.
    apply list_elem_of_fmap. by exists (k, v).
Qed.

Lemma map_get_elem {V} (m : list (Z * V)) k v :
  Osm.map_get m k = Some v → (k, v) ∈ m.
Proof.
  induction m as [|[k0 v0] m IH]; [done|]. simpl.
  destruct (decide (k0 = k)) as [->|Hne]; [intros [= ->]; set_solver|].
  intros Hk. set_solver.
Qed.

(** The graph that the elements of an answer give. *)
Lemma parse_spec (elements : list Element.t) :
  ∃ adjacency,
    Osm.parse elements =
      Returned (Graph.mk (node_of <$> parsed_nodes elements)
                  (flat_map (way_edges (parsed_nodes elements)) (parsed_ways elements))
                  adjacency) ∧
    keys adjacency = node_id <$> (parsed_nodes elements).*1 ∧
    ∀ k, k ∈ (parsed_nodes elements).*1 →
         adj_get adjacency (node_id k) =
         Some (entries_from
                 (flat_map (way_edges (parsed_nodes elements)) (parsed_ways elements))
                 (node_id k)).
Proof.
  unfold Osm.parse. fold (parsed_nodes elements) (parsed_ways elements).
  set (nodeMap := parsed_nodes elements). set (ways := parsed_ways elements).
  set (indexed := fold_left Osm.index_node nodeMap ([], [])).
  assert (∀ k, Osm.map_get indexed.2 k =
               if bool_decide (k ∈ nodeMap.*1) then Some (node_id k) else None) as Hidx.
  { intros k. unfold indexed. rewrite index_nodes_get; [done|].
    simpl. by intros k' [? ?]. }
  rewrite (push_ways_spec nodeMap indexed.2 Hidx). cbn [app].
  assert (indexed.1 = node_of <$> nodeMap) as Hnodes.
  { unfold indexed. by rewrite index_nodes_list. }
  rewrite Hnodes.
  assert (Node.id <$> (node_of <$> nodeMap) = node_id <$> nodeMap.*1) as Hids.
  { rewrite <- !list_fmap_compose. by apply list_fmap_ext. }
  destruct (build_adjacency_spec (node_of <$> nodeMap) (flat_map (way_edges nodeMap) ways))
    as (adjacency & Hadj & Hkeys & Hget).
  { rewrite Hids. apply NoDup_fmap_2; [apply node_id_inj|apply parsed_nodes_NoDup]. }
  { intros e (way & _ & He)%elem_of_flat_map.
    destruct (way_edges_ends nodeMap way e He) as (a & b & Ha & _ & Hfrom & _).
    rewrite Hfrom, Hids. apply list_elem_of_fmap. eauto. }
  rewrite Hadj. cbn [mbind outcome_bind]. exists adjacency. split; [done|].
  rewrite Hids in *. split; [done|]. intros k Hk. apply Hget.
  apply list_elem_of_fmap. eauto.
Qed.

(** A call that passes the guard and reads the body of the answer. *)
Lemma fetch_parses {C} `{NumOps C} (bounds : Bounds.t C) (options : Osm.Options C)
    resp data :
  ¬ too_large bounds options → Response.ok resp = true →
  Response.json resp = Returned data →
  fetchRoadGraph bounds options (Returned resp) = Osm.parse (default [] data).
Proof.
  intros Harea Hok Hjson. rewrite (guard_passed _ _ _ Harea). simpl. rewrite Hok. simpl. by rewrite Hjson.
Qed.

(** X13. The nodes of a road graph have distinct ids, and they are: for
    each id that an element of type [node] of the answer has, one node
    named [n] followed by the id, at the coordinates of the last such
    element. *)
Theorem road_graph_nodes {C} `{NumOps C} (bounds : Bounds.t C) (options : Osm.Options C)
    (resp : Response.t) (elements : list Element.t) :
  ¬ too_large bounds options →
  Response.ok resp = true →
  Response.json resp = Returned (Some elements) →
  ∃ g,
    fetchRoadGraph bounds options (Returned resp) = Returned g ∧
    NoDup (Node.id <$> Graph.nodes g) ∧
    ∀ n, n ∈ Graph.nodes g ↔
         ∃ k el, last (node_elements elements k) = Some el ∧
                 n = Node.mk (node_id k) (Element.lat el) (Element.lon el).
Proof.
  intros Harea Hok Hjson. rewrite (fetch_parses _ _ _ _ Harea Hok Hjson). simpl.
  destruct (parse_spec elements) as (adjacency & Hg & Hkeys & Hget).
  eexists. split; [exact Hg|]. cbn [Graph.nodes]. split.
  - rewrite <- list_fmap_compose.
    assert (Node.id ∘ node_of = node_id ∘ fst) as -> by done.
    rewrite list_fmap_compose.
    apply NoDup_fmap_2; [apply node_id_inj|apply parsed_nodes_NoDup].
  - intros n. rewrite list_elem_of_fmap. split.
    + intros ([k p] & -> & Hin).
      pose proof (map_get_lookup _ _ _ Hin (parsed_nodes_NoDup elements)) as Hk.
      rewrite parsed_nodes_get in Hk.
      destruct (last (node_elements elements k)) as [el|] eqn:El; [|done].
      injection Hk as <-. by exists k, el.
    + intros (k & el & El & ->).
      exists (k, mkLatLng (Element.lat el) (Element.lon el)). split; [done|].
      apply map_get_elem. by rewrite parsed_nodes_get, El.
Qed.

Lemma road_graph_nodes_witness :
  ∃ g,
    fetchRoadGraph block defaults (Returned response) = Returned g ∧
    NoDup (Node.id <$> Graph.nodes g) ∧
    ∀ n, n ∈ Graph.nodes g ↔
         ∃ k el, last (node_elements answer k) = Some el ∧
                 n = Node.mk (node_id k) (Element.lat el) (Element.lon el).
Proof.
  apply (road_graph_nodes block defaults response answer).
  - apply block_fits.
  - reflexivity.
  - reflexivity.
Defined.

(* ================================================================== *)
(** * osm.js: the edges of the road graph *)
(* ================================================================== *)

Lemma elem_of_way_edges nodeMap way e :
  e ∈ way_edges nodeMap way ↔
  ∃ seg a b,
    seg ∈ Osm.segments (default [] (Element.nodes way)) ∧
    Osm.map_get nodeMap seg.1 = Some a ∧ Osm.map_get nodeMap seg.2 = Some b ∧
    (e = Edge.mk (node_id seg.1) (node_id seg.2) (haversine a b)
                 (Osm.isUnpaved (default ∅ (Element.tags way)))
                 (Osm.surface_of way (Osm.isUnpaved (default ∅ (Element.tags way)))) ∨
     e = Edge.mk (node_id seg.2) (node_id seg.1) (haversine a b)
                 (Osm.isUnpaved (default ∅ (Element.tags way)))
                 (Osm.surface_of way (Osm.isUnpaved (default ∅ (Element.tags way))))).
Proof.
  unfold way_edges. rewrite elem_of_flat_map. unfold segment_edges. split.
  - intros (seg & Hseg & He).
    destruct (Osm.map_get nodeMap seg.1) as [a|] eqn:Ea; [|by apply elem_of_nil in He].
    destruct (Osm.map_get nodeMap seg.2) as [b|] eqn:Eb; [|by apply elem_of_nil in He].
    exists seg, a, b. split_and!; try done.
    apply elem_of_cons in He as [->|He]; [by left|].
    apply list_elem_of_singleton in He as ->. by right.
  - intros (seg & a & b & Hseg & Ha & Hb & He). exists seg. split; [done|].
    rewrite Ha, Hb. destruct He as [->| ->]; set_solver.
Qed.

Lemma length_way_edges_even nodeMap ways :
  Nat.Even (length (flat_map (way_edges nodeMap) ways)).
Proof.
  assert (∀ u s segs, Nat.Even (length (flat_map (segment_edges nodeMap u s) segs)))
    as Hsegs.
  { intros u s segs. induction segs as [|seg segs IH]; [by exists 0|].
    simpl. rewrite length_app. destruct IH as [n Hn]. rewrite Hn.
    unfold segment_edges. destruct (Osm.map_get nodeMap seg.1);
      [destruct (Osm.map_get nodeMap seg.2)|]; simpl; [exists (S n)|exists n|exists n]; lia. }
  induction ways as [|way ways IH]; [by exists 0|].
  simpl. rewrite length_app. destruct IH as [n Hn].
  destruct (Hsegs (Osm.isUnpaved (default ∅ (Element.tags way)))
                  (Osm.surface_of way (Osm.isUnpaved (default ∅ (Element.tags way))))
                  (Osm.segments (default [] (Element.nodes way)))) as [m Hm].
  unfold way_edges at 1. rewrite Hm, Hn. exists (m + n). lia.
Qed.

Lemma surface_of_unpaved way :
  Osm.surface_of way (Osm.isUnpaved (default ∅ (Element.tags way))) ∈ Osm.unpavedSurfaces →
  Osm.isUnpaved (default ∅ (Element.tags way)) = true.
Proof.
  unfold Osm.surface_of. destruct (Element.tags way) as [tags|]; simpl.
  - destruct (Osm.truthy (tags !! "surface")).
    + intros Hin. apply isUnpaved_spec. by left.
    + destruct (Osm.isUnpaved tags); [done|]. intros Hin. exfalso.
      unfold Osm.unpavedSurfaces in Hin.
      repeat (apply elem_of_cons in Hin as [Hin|Hin]; [discriminate Hin|]).
      by apply elem_of_nil in Hin.
  - destruct (Osm.isUnpaved ∅); [done|]. intros Hin. exfalso.
    unfold Osm.unpavedSurfaces in Hin.
    repeat (apply elem_of_cons in Hin as [Hin|Hin]; [discriminate Hin|]).
    by apply elem_of_nil in Hin.
Qed.

(** X14. Every road of a road graph is two-way: each edge has its
    opposite edge, of the same weight, flag and surface, and the number
    of edges is even.  The weight of an edge is the distance between
    the two nodes it joins, and an edge whose surface is one of the
    unpaved surfaces is flagged unpaved. *)
Theorem road_graph_two_way {C} `{NumOps C} (bounds : Bounds.t C) (options : Osm.Options C)
    (resp : Response.t) (elements : list Element.t) :
  ¬ too_large bounds options →
  Response.ok resp = true →
  Response.json resp = Returned (Some elements) →
  ∃ g,
    fetchRoadGraph bounds options (Returned resp) = Returned g ∧
    Nat.Even (length (Graph.edges g)) ∧
    ∀ e, e ∈ Graph.edges g →
      (∃ e', e' ∈ Graph.edges g ∧ Edge.from e' = Edge.to e ∧ Edge.to e' = Edge.from e ∧
             Edge.weight e' = Edge.weight e ∧ Edge.unpaved e' = Edge.unpaved e ∧
             Edge.surface e' = Edge.surface e) ∧
      (∃ a b, a ∈ Graph.nodes g ∧ b ∈ Graph.nodes g ∧
              Node.id a = Edge.from e ∧ Node.id b = Edge.to e ∧
              (Edge.weight e = haversine (point_of a) (point_of b))) ∧
      (Edge.surface e ∈ Osm.unpavedSurfaces → Edge.unpaved e = true).
Proof.
  intros Harea Hok Hjson. rewrite (fetch_parses _ _ _ _ Harea Hok Hjson). simpl.
  destruct (parse_spec elements) as (adjacency & Hg & Hkeys & Hget).
  eexists. split; [exact Hg|]. cbn [Graph.nodes Graph.edges].
  split; [apply length_way_edges_even|].
  intros e (way & Hway & He)%elem_of_flat_map.
  pose proof He as (seg & a & b & Hseg & Ha & Hb & Hcase)%elem_of_way_edges.
  set (u := Osm.isUnpaved (default ∅ (Element.tags way))) in *.
  set (s := Osm.surface_of way u) in *.
  set (e1 := Edge.mk (node_id seg.1) (node_id seg.2) (haversine a b) u s) in *.
  set (e2 := Edge.mk (node_id seg.2) (node_id seg.1) (haversine a b) u s) in *.
  assert (e1 ∈ flat_map (way_edges (parsed_nodes elements)) (parsed_ways elements)) as H1.
  { apply elem_of_flat_map. exists way. split; [done|].
    apply elem_of_way_edges. exists seg, a, b. split_and!; try done. by left. }
  assert (e2 ∈ flat_map (way_edges (parsed_nodes elements)) (parsed_ways elements)) as H2.
  { apply elem_of_flat_map. exists way. split; [done|].
    apply elem_of_way_edges. exists seg, a, b. split_and!; try done. by right. }
  assert (node_of (seg.1, a) ∈ node_of <$> parsed_nodes elements) as Hna.
  { apply list_elem_of_fmap. eexists. split; [done|]. by apply map_get_elem. }
  assert (node_of (seg.2, b) ∈ node_of <$> parsed_nodes elements) as Hnb.
  { apply list_elem_of_fmap. eexists. split; [done|]. by apply map_get_elem. }
  split_and!.
  - destruct Hcase as [->| ->]; [by exists e2|by exists e1].
  - destruct Hcase as [->| ->].
    + exists (node_of (seg.1, a)), (node_of (seg.2, b)). split_and!; done.
    + exists (node_of (seg.2, b)), (node_of (seg.1, a)). split_and!; try done.
      simpl. by rewrite haversine_comm.
  - intros Hs. assert (s ∈ Osm.unpavedSurfaces) as Hs' by (by destruct Hcase as [->| ->]).
    apply surface_of_unpaved in Hs'. by destruct Hcase as [->| ->].
Qed.

Lemma road_graph_two_way_witness :
  ∃ g,
    fetchRoadGraph block defaults (Returned response) = Returned g ∧
    Nat.Even (length (Graph.edges g)).
Proof.
  destruct (road_graph_two_way block defaults response answer) as (g & Hg & Heven & _).
  - apply block_fits.
  - reflexivity.
  - reflexivity.
  - exists g. split; [exact Hg|exact Heven].
Defined.

(* ================================================================== *)
(** * osm.js: the adjacency lists of the road graph *)
(* ================================================================== *)

Lemma way_edges_two_way nodeMap ways e :
  e ∈ flat_map (way_edges nodeMap) ways →
  ∃ e', e' ∈ flat_map (way_edges nodeMap) ways ∧
        Edge.from e' = Edge.to e ∧ Edge.to e' = Edge.from e ∧
        Edge.weight e' = Edge.weight e ∧ Edge.unpaved e' = Edge.unpaved e ∧
        Edge.surface e' = Edge.surface e.
Proof.
  intros (way & Hway & He)%elem_of_flat_map.
  pose proof He as (seg & a & b & Hseg & Ha & Hb & Hcase)%elem_of_way_edges.
  set (u := Osm.isUnpaved (default ∅ (Element.tags way))) in *.
  set (s := Osm.surface_of way u) in *.
  destruct Hcase as [->| ->].
  - exists (Edge.mk (node_id seg.2) (node_id seg.1) (haversine a b) u s).
    split; [|done]. apply elem_of_flat_map. exists way. split; [done|].
    apply elem_of_way_edges. exists seg, a, b. split_and!; try done. by right.
  - exists (Edge.mk (node_id seg.1) (node_id seg.2) (haversine a b) u s).
    split; [|done]. apply elem_of_flat_map. exists way. split; [done|].
    apply elem_of_way_edges. exists seg, a, b. split_and!; try done. by left.
Qed.

(** X15. The adjacency object of a road graph: its keys are the ids of
    the nodes, in their order; the list of a node holds the entries for
    the edges that leave it, in the order of the list of edges; and
    every entry has its opposite entry, of the same weight, flag and
    surface, in the list of the node it leads to. *)
Theorem road_graph_adjacency {C} `{NumOps C} (bounds : Bounds.t C) (options : Osm.Options C)
    (resp : Response.t) (elements : list Element.t) :
  ¬ too_large bounds options →
  Response.ok resp = true →
  Response.json resp = Returned (Some elements) →
  ∃ g,
    fetchRoadGraph bounds options (Returned resp) = Returned g ∧
    keys (Graph.adjacency g) = Node.id <$> Graph.nodes g ∧
    (∀ k, k ∈ keys (Graph.adjacency g) →
       adj_get (Graph.adjacency g) k = Some (entries_from (Graph.edges g) k)) ∧
    ∀ u es x, adj_get (Graph.adjacency g) u = Some es → x ∈ es →
      ∃ es' x', adj_get (Graph.adjacency g) (to x) = Some es' ∧ x' ∈ es' ∧
                to x' = u ∧ weight x' = weight x ∧ unpaved x' = unpaved x ∧
                surface x' = surface x.
Proof.
  intros Harea Hok Hjson. rewrite (fetch_parses _ _ _ _ Harea Hok Hjson). simpl.
  destruct (parse_spec elements) as (adjacency & Hg & Hkeys & Hget).
  eexists. split; [exact Hg|]. cbn [Graph.nodes Graph.edges Graph.adjacency].
  assert (∀ k, k ∈ keys adjacency →
            adj_get adjacency k =
            Some (entries_from
                    (flat_map (way_edges (parsed_nodes elements)) (parsed_ways elements)) k))
    as Hget'.
  { intros k. rewrite Hkeys. intros (z & -> & Hz)%list_elem_of_fmap. by apply Hget. }
  split_and!.
  - rewrite Hkeys, <- !list_fmap_compose. by apply list_fmap_ext.
  - exact Hget'.
  - apply (adjacency_two_way (keys adjacency) _ adjacency eq_refl Hget').
    + intros e (way & _ & He)%elem_of_flat_map.
      destruct (way_edges_ends _ way e He) as (a & b & Ha & _ & Hfrom & _).
      rewrite Hfrom, Hkeys. apply list_elem_of_fmap. eauto.
    + apply way_edges_two_way.
Qed.

Lemma road_graph_adjacency_witness :
  ∃ g,
    fetchRoadGraph block defaults (Returned response) = Returned g ∧
    keys (Graph.adjacency g) = Node.id <$> Graph.nodes g.
Proof.
  destruct (road_graph_adjacency block defaults response answer) as (g & Hg & Hk & _).
  - apply block_fits.
  - reflexivity.
  - reflexivity.
  - exists g. split; [exact Hg|exact Hk].
Defined.

(* ================================================================== *)
(** * osm.js: the outcomes of [fetchRoadGraph] *)
(* ================================================================== *)

Lemma parse_returns_graph elements : ∃ g, Osm.parse elements = Returned g.
Proof. destruct (parse_spec elements) as (adjacency & Hg & _). eauto. Qed.

(** X16. For answers whose body, when it can be read, has the format of
    Overpass (an object whose [elements], when present, is an array of
    elements): [fetchRoadGraph] returns a graph exactly when the box
    passes the guard, the request is answered, the answer is [ok] and
    its body can be read, whichever elements of the format the body
    holds; below the guard, an answer that is not [ok] makes it throw
    the error that names the status, before the body is read, and a
    request or a body that fails makes it throw what they threw. *)
Theorem fetch_outcomes {C} `{NumOps C} (bounds : Bounds.t C) (options : Osm.Options C)
    (fetched : outcome Response.t) :
  ((∃ g, fetchRoadGraph bounds options fetched = Returned g) ↔
   ¬ too_large bounds options ∧
   ∃ resp data, fetched = Returned resp ∧ Response.ok resp = true ∧
                Response.json resp = Returned data) ∧
  (¬ too_large bounds options →
   (∀ e, fetched = Thrown e → fetchRoadGraph bounds options fetched = Thrown e) ∧
   (∀ resp, fetched = Returned resp → Response.ok resp = false →
      fetchRoadGraph bounds options fetched =
      Thrown (Error ("Overpass API error: " +:+ pretty (Response.status resp)))) ∧
   (∀ resp e, fetched = Returned resp → Response.ok resp = true →
      Response.json resp = Thrown e →
      fetchRoadGraph bounds options fetched = Thrown e)).
Proof.
  destruct (too_large_dec bounds options) as [Hgt|Hle].
  - rewrite (guard_failed _ _ _ Hgt).
    split; [|done]. split; [by intros [g ?]|by intros [? _]].
  - rewrite (guard_passed _ _ _ Hle). split.
    + split.
      * intros [g Hg]. split; [done|].
        destruct fetched as [resp| |]; [|done|done]. simpl in Hg.
        destruct (Response.ok resp) eqn:Hok; [|done]. simpl in Hg.
        destruct (Response.json resp) as [data| |] eqn:Hjson; [|done|done].
        by exists resp, data.
      * intros (_ & resp & data & -> & Hok & Hjson). simpl. rewrite Hok. simpl.
        rewrite Hjson. simpl. apply parse_returns_graph.
    + intros _. split_and!.
      * by intros e ->.
      * intros resp -> Hok. simpl. by rewrite Hok.
      * intros resp e -> Hok Hjson. simpl. rewrite Hok. simpl. by rewrite Hjson.
Qed.

(** X17. An answer without [elements], or whose elements hold no node,
    gives the graph without nodes, edges and keys, even if the answer
    holds ways. *)
Theorem road_graph_without_nodes {C} `{NumOps C} (bounds : Bounds.t C) (options : Osm.Options C)
    (resp : Response.t) (data : option (list Element.t)) :
  ¬ too_large bounds options →
  Response.ok resp = true →
  Response.json resp = Returned data →
  (∀ el, el ∈ default [] data → Element.type el ≠ "node") →
  fetchRoadGraph bounds options (Returned resp) = Returned empty_graph.
Proof.
  intros Harea Hok Hjson Hnone. rewrite (fetch_parses _ _ _ _ Harea Hok Hjson).
  set (elements := default [] data) in *.
  assert (parsed_nodes elements = []) as Hnodes.
  { destruct (parsed_nodes elements) as [|[k p] m] eqn:E; [done|]. exfalso.
    assert (k ∈ (parsed_nodes elements).*1) as Hk by (rewrite E; set_solver).
    apply parsed_nodes_elem_of in Hk as (el & Hel & Hty & _). by apply (Hnone el). }
  destruct (parse_spec elements) as (adjacency & Hg & Hkeys & _).
  rewrite Hg. rewrite Hnodes in *. f_equal. unfold empty_graph. f_equal.
  - apply flat_map_nil. intros way _. unfold way_edges. apply flat_map_nil.
    intros seg _. unfold segment_edges. simpl. done.
  - simpl in Hkeys. unfold keys in Hkeys. by apply fmap_nil_inv in Hkeys.
Qed.

Lemma road_graph_without_nodes_witness :
  fetchRoadGraph block defaults (Returned (Response.mk true 200 (Returned (Some [gravel_way]))))
  = Returned empty_graph.
Proof.
  apply (road_graph_without_nodes block defaults
           (Response.mk true 200 (Returned (Some [gravel_way]))) (Some [gravel_way])).
  - apply block_fits.
  - reflexivity.
  - reflexivity.
  - intros el ->%list_elem_of_singleton. discriminate.
Defined.

(* ================================================================== *)
(** * osm.js: the area of a box *)
(* ================================================================== *)


(* ================================================================== *)
(** * thefunction.js on the graphs of the builders *)
(* ================================================================== *)

Ltac not_in_list H :=
  repeat (apply elem_of_cons in H as [H|H]; [discriminate H|]);
  by apply elem_of_nil in H.

Lemma pretty_N_char_digit (x : N) :
  digit_first (String (pretty_N_char x) "") = true.
Proof. unfold pretty_N_char. by repeat case_match. Qed.

Lemma pretty_N_go_digit (x : N) (s : string) :
  digit_first s = true → digit_first (pretty_N_go x s) = true.
Proof.
  revert s. induction (N.lt_wf_0 x) as [x _ IH]; intros s Hs.
  assert (x = 0 ∨ 0 < x)%N as [->|Hx] by lia.
  - by rewrite pretty_N_go_0.
  - rewrite pretty_N_go_step by done. apply IH.
    + by apply N.div_lt.
    + apply (pretty_N_char_digit (x `mod` 10)).
Qed.

Lemma pretty_N_digit (x : N) : digit_first (pretty x) = true.
Proof.
  unfold pretty, pretty_N. destruct (decide (x = 0%N)) as [->|Hx]; [done|].
  rewrite pretty_N_go_step by lia. apply pretty_N_go_digit.
  apply (pretty_N_char_digit (x `mod` 10)).
Qed.

(** The id of a node of a grid is none of the names of
    [Object.prototype]: it begins with a digit. *)
Lemma plain_pretty_nat (n : nat) : plain (pretty n).
Proof.
  unfold plain. intros Hin.
  pose proof (pretty_N_digit (N.of_nat n)) as Hd.
  change (pretty (N.of_nat n)) with (pretty n) in Hd.
  unfold TheFunction.object_prototype in Hin.
  repeat (apply elem_of_cons in Hin as [Hin|Hin]; [by rewrite Hin in Hd|]).
  by apply elem_of_nil in Hin.
Qed.

(** Nor is the id of a node of a road graph: it begins with [n]. *)
Lemma plain_node_id (k : Z) : plain (node_id k).
Proof.
  unfold plain, node_id. intros Hin. unfold TheFunction.object_prototype in Hin.
  simpl in Hin. not_in_list Hin.
Qed.

Lemma elem_of_adjacency {W} (adjacency : Adjacency W) k es :
  (k, es) ∈ adjacency → k ∈ keys adjacency.
Proof. intros Hin. unfold keys. apply list_elem_of_fmap. by exists (k, es). Qed.

(** An adjacency object whose keys and entries are plain. *)
Lemma plain_adjacency (ids : list string) (edges : list Edge.t)
    (adjacency : Adjacency (number R)) :
  keys adjacency = ids → NoDup ids →
  (∀ k, k ∈ ids → adj_get adjacency k = Some (entries_from edges k)) →
  Forall plain ids → (∀ e, e ∈ edges → plain (Edge.to e)) →
  ∀ start goal, start ∈ ids → goal ∈ ids → plain_query adjacency start goal.
Proof.
  intros Hkeys Hnd Hget Hids Hto start goal Hs Hg.
  rewrite Forall_forall in Hids. split_and!; [by apply Hids|by apply Hids|..].
  - rewrite Hkeys. by apply Forall_forall.
  - apply Forall_forall. intros [k es] Hin. apply Forall_forall. intros x Hx.
    simpl in Hx.
    assert (k ∈ ids) as Hk by (rewrite <- Hkeys; by eapply elem_of_adjacency).
    assert (adj_get adjacency k = Some es) as Hes.
    { apply adj_get_elem; [by rewrite Hkeys|done]. }
    rewrite (Hget k Hk) in Hes. injection Hes as <-.
    apply elem_of_entries_from in Hx as (e & He & _ & ->). by apply Hto.
Qed.

(** X19. No id that [buildGridGraph] or [fetchRoadGraph] gives a node is
    a property name of [Object.prototype]: in the adjacency object of a
    graph they return, with any two of its nodes as start and goal, the
    keys, the ends of the entries, the start and the goal are all
    plain. *)
Theorem built_ids_plain {C} `{NumOps C} (g : Graph.t) (start goal : string) :
  (∃ center r c delta,
     buildGridGraph center (Some r) (Some c) (Some delta) = Returned g) ∨
  (∃ (bounds : Bounds.t C) options fetched,
     fetchRoadGraph bounds options fetched = Returned g) →
  start ∈ Node.id <$> Graph.nodes g → goal ∈ Node.id <$> Graph.nodes g →
  plain_query (Graph.adjacency g) start goal.
Proof.
  intros [(center & r & c & delta & Hg)|(bounds & options & fetched & Hg)] Hs Hgoal.
  - destruct (grid_built center r c delta) as (adjacency & Hg' & Hkeys & Hget & _).
    rewrite Hg' in Hg. injection Hg as <-. cbn [Graph.adjacency Graph.nodes] in *.
    rewrite grid_ids in Hs, Hgoal. rewrite <- Hkeys in Hs, Hgoal.
    refine (plain_adjacency (keys adjacency) _ adjacency eq_refl _ Hget _ _
              start goal Hs Hgoal).
    + rewrite Hkeys. apply NoDup_fmap_2; [apply _|apply NoDup_seq].
    + rewrite Hkeys. apply Forall_forall.
      intros k (n & -> & _)%list_elem_of_fmap. apply plain_pretty_nat.
    + intros e (i & j & i' & j' & _ & _ & _ & ->)%elem_of_grid_edges.
      apply plain_pretty_nat.
  - assert (∃ elements, Osm.parse elements = Returned g) as [elements Hparse].
    { destruct (too_large_dec bounds options) as [Hgt|Hle];
        [by rewrite (guard_failed _ _ _ Hgt) in Hg|].
      rewrite (guard_passed _ _ _ Hle) in Hg.
      destruct fetched as [resp| |]; [|done|done]. simpl in Hg.
      destruct (negb (Response.ok resp)); [done|].
      destruct (Response.json resp) as [data| |]; [|done|done]. simpl in Hg. eauto. }
    destruct (parse_spec elements) as (adjacency & Hg' & Hkeys & Hget).
    rewrite Hg' in Hparse. injection Hparse as <-.
    cbn [Graph.adjacency Graph.nodes] in *.
    assert (Node.id <$> (node_of <$> parsed_nodes elements) = keys adjacency) as Hids.
    { rewrite Hkeys, <- !list_fmap_compose. by apply list_fmap_ext. }
    rewrite Hids in Hs, Hgoal.
    assert (∀ k, k ∈ keys adjacency →
              adj_get adjacency k =
              Some (entries_from
                      (flat_map (way_edges (parsed_nodes elements)) (parsed_ways elements))
                      k)) as Hget'.
    { intros k. rewrite Hkeys. intros (z & -> & Hz)%list_elem_of_fmap. by apply Hget. }
    refine (plain_adjacency (keys adjacency) _ adjacency eq_refl _ Hget' _ _
              start goal Hs Hgoal).
    + rewrite Hkeys. apply NoDup_fmap_2; [apply node_id_inj|apply parsed_nodes_NoDup].
    + rewrite Hkeys. apply Forall_forall.
      intros k (z & -> & _)%list_elem_of_fmap. apply plain_node_id.
    + intros e (way & _ & He)%elem_of_flat_map.
      destruct (way_edges_ends _ way e He) as (a & b & _ & _ & _ & ->).
      apply plain_node_id.
Qed.

Lemma built_ids_plain_witness :
  ∃ g, buildGridGraph greenwich (Some 2) (Some 2) (Some (2 / 1000)%R) = Returned g ∧
       plain_query (Graph.adjacency g) "0" "3".
Proof.
  destruct (grid_built greenwich 2 2 (2 / 1000)%R) as (adjacency & Hg & _).
  eexists. split; [exact Hg|].
  apply (built_ids_plain _ "0" "3").
  - left. exists greenwich, 2, 2, (2 / 1000)%R. exact Hg.
  - cbn [Graph.nodes]. rewrite grid_ids. simpl. repeat constructor.
  - cbn [Graph.nodes]. rewrite grid_ids. simpl. repeat constructor.
Defined.

(** X20. When no key of the adjacency, no end of an entry, and neither
    the start nor the goal is a property name of [Object.prototype],
    the [dijkstra] of thefunction.js returns what the [dijkstra] of
    app.js returns. *)
Theorem dijkstra_plain_agreement {W} `{NumOps W}
    (adjacency : Adjacency W) (start goal : string) (opts : Opts W) (r : PathResult W) :
  plain_query adjacency start goal →
  App.dijkstra adjacency start goal opts = Returned r →
  TheFunction.dijkstra adjacency start goal opts = Returned (of_app r).
Proof. apply dijkstra_copies_agree. Qed.

Lemma dijkstra_plain_agreement_witness :
  TheFunction.dijkstra town "a" "d" avoiding =
  Returned (of_app {| distance := Some (Fin 250%Q); path := ["a"; "c"; "d"];
                      visitedCount := 3 |}).
Proof.
  apply (dijkstra_plain_agreement town "a" "d" avoiding).
  - assert (∀ k, k ∈ ["a"; "b"; "c"; "d"; "z"] → plain k) as Hplain.
    { intros k Hk. unfold plain, TheFunction.object_prototype. intros Hin.
      repeat (apply elem_of_cons in Hk as [->|Hk]; [not_in_list Hin|]).
      by apply elem_of_nil in Hk. }
    split_and!.
    + apply Hplain. set_solver.
    + apply Hplain. set_solver.
    + apply Forall_forall. intros k Hk. apply Hplain. exact Hk.
    + unfold town. repeat constructor; simpl; apply Hplain; set_solver.
  - vm_compute. reflexivity.
Defined.

(* ================================================================== *)
(** * osm.js: the weights of the road graph *)
(* ================================================================== *)

(** An adjacency object whose entries come from edges of finite,
    non-negative weights has finite, non-negative weights. *)
Lemma finite_adjacency (ids : list string) (edges : list Edge.t)
    (adjacency : Adjacency (number R)) :
  keys adjacency = ids → NoDup ids →
  (∀ k, k ∈ ids → adj_get adjacency k = Some (entries_from edges k)) →
  (∀ e, e ∈ edges → ∃ d, Edge.weight e = Fin d ∧ (0 <= d)%R) →
  lift_adjacency (lower_adjacency adjacency) = adjacency ∧
  weights_nonneg (lower_adjacency adjacency).
Proof.
  intros Hkeys Hnd Hget Hw.
  assert (∀ k es x, (k, es) ∈ adjacency → x ∈ es →
            ∃ d, weight x = Fin d ∧ (0 <= d)%R) as Hentries.
  { intros k es x Hin Hx.
    assert (k ∈ ids) as Hk by (rewrite <- Hkeys; by eapply elem_of_adjacency).
    assert (adj_get adjacency k = Some es) as Hes.
    { apply adj_get_elem; [by rewrite Hkeys|done]. }
    rewrite (Hget k Hk) in Hes. injection Hes as <-.
    apply elem_of_entries_from in Hx as (e & He & _ & ->). by apply Hw. }
  split.
  - apply lift_lower, Forall_forall. intros [k es] Hin. apply Forall_forall.
    intros x Hx. destruct (Hentries k es x Hin Hx) as (d & Hd & _). eauto.
  - unfold weights_nonneg, lower_adjacency. apply Forall_forall.
    intros [k es'] ([k0 es] & [= -> ->] & Hin)%list_elem_of_fmap.
    apply Forall_forall. intros x' (x & -> & Hx)%list_elem_of_fmap.
    destruct (Hentries k0 es x Hin Hx) as (d & Hd & Hd0).
    apply R_le_iff. simpl. by rewrite Hd.
Qed.

(** X21. When the nodes of the answer have coordinates in range, the
    weights of the road graph are numbers between 0 and half the
    circumference of the sphere, and its adjacency object has finite
    weights, none of them negative: what the shortest paths of
    [dijkstra] ask for. *)
Theorem road_graph_weights {C} `{NumOps C} (bounds : Bounds.t C) (options : Osm.Options C)
    (resp : Response.t) (elements : list Element.t) :
  ¬ too_large bounds options →
  Response.ok resp = true →
  Response.json resp = Returned (Some elements) →
  (∀ el, el ∈ elements → Element.type el = "node" →
         in_range (mkLatLng (Element.lat el) (Element.lon el))) →
  ∃ g adjacency,
    fetchRoadGraph bounds options (Returned resp) = Returned g ∧
    (∀ e, e ∈ Graph.edges g →
       ∃ d, Edge.weight e = Fin d ∧ (0 <= d <= PI * earth_radius)%R) ∧
    Graph.adjacency g = lift_adjacency adjacency ∧
    weights_nonneg adjacency.
Proof.
  intros Harea Hok Hjson Hrange. rewrite (fetch_parses _ _ _ _ Harea Hok Hjson). simpl.
  destruct (parse_spec elements) as (adjG & Hg & Hkeys & Hget).
  assert (∀ k p, Osm.map_get (parsed_nodes elements) k = Some p → in_range p) as Hpoint.
  { intros k p Hk. rewrite parsed_nodes_get in Hk.
    destruct (last (node_elements elements k)) as [el|] eqn:El; [|done].
    injection Hk as <-. apply last_Some_elem_of in El.
    unfold node_elements in El. apply list_elem_of_filter in El as [[Hty _] Hin].
    by apply Hrange. }
  assert (∀ e, e ∈ flat_map (way_edges (parsed_nodes elements)) (parsed_ways elements) →
            ∃ d, Edge.weight e = Fin d ∧ (0 <= d <= PI * earth_radius)%R) as Hweights.
  { intros e (way & _ & He)%elem_of_flat_map.
    apply elem_of_way_edges in He as (seg & a & b & _ & Ha & Hb & Hcase).
    destruct (haversine_range_value a b) as (d & Hd & Hbounds); [by eapply Hpoint..|].
    exists d. by destruct Hcase as [->| ->]. }
  destruct (finite_adjacency (keys adjG)
              (flat_map (way_edges (parsed_nodes elements)) (parsed_ways elements))
              adjG eq_refl)
    as [Hlift Hnonneg].
  - rewrite Hkeys. apply NoDup_fmap_2; [apply node_id_inj|apply parsed_nodes_NoDup].
  - intros k. rewrite Hkeys. intros (z & -> & Hz)%list_elem_of_fmap. by apply Hget.
  - intros e He. destruct (Hweights e He) as (d & Hd & Hd0 & _). eauto.
  - eexists. exists (lower_adjacency adjG). split; [exact Hg|].
    cbn [Graph.edges Graph.adjacency]. split_and!; done.
Qed.

Lemma road_graph_weights_witness :
  ∃ g adjacency,
    fetchRoadGraph block defaults (Returned response) = Returned g ∧
    Graph.adjacency g = lift_adjacency adjacency ∧ weights_nonneg adjacency.
Proof.
  destruct (road_graph_weights block defaults response answer)
    as (g & adjacency & Hg & _ & Hlift & Hw).
  - apply block_fits.
  - reflexivity.
  - reflexivity.
  - intros el Hel Hty. unfold answer in Hel.
    repeat (apply elem_of_cons in Hel as [->|Hel];
            [first [discriminate Hty|unfold in_range; simpl; lra]|]).
    by apply elem_of_nil in Hel.
  - exists g, adjacency. split_and!; [exact Hg|exact Hlift|exact Hw].
Defined.

(* ================================================================== *)
(** * graph.js: the smallest grids *)
(* ================================================================== *)

(** X22. A grid of no rows or of no columns is the graph without nodes,
    edges and keys; a grid of one row and one column is the node [0] at
    the centre, without an edge. *)
Theorem grid_smallest (center : LatLng) (delta : R) :
  (∀ r c, r = 0 ∨ c = 0 →
     buildGridGraph center (Some r) (Some c) (Some delta) = Returned empty_graph) ∧
  buildGridGraph center (Some 1) (Some 1) (Some delta) =
    Returned (Graph.mk [Node.mk "0" (lat center) (lng center)] [] [("0", [])]).
Proof.
  split.
  - intros r c Hzero.
    destruct (grid_built center r c delta) as (adjacency & Hg & Hkeys & _).
    rewrite Hg. unfold empty_graph. f_equal.
    assert (r * c = 0) as Hrc by (destruct Hzero as [-> | ->]; lia).
    f_equal.
    + apply length_zero_iff_nil. by rewrite length_grid.
    + apply length_zero_iff_nil. rewrite length_grid_edges.
      destruct Hzero as [-> | ->]; simpl; lia.
    + rewrite Hrc in Hkeys. simpl in Hkeys. unfold keys in Hkeys.
      by apply fmap_nil_inv in Hkeys.
  - unfold buildGridGraph, Grid.build. simpl. unfold Grid.push_node. simpl.
    do 2 f_equal.
    replace (lat center - (1 - 1) * delta / 2 + 0 * delta)%R with (lat center) by lra.
    replace (lng center - (1 - 1) * delta / 2 + 0 * delta)%R with (lng center) by lra.
    done.
Qed.

(* ================================================================== *)
(** * app.js: clicks on the map *)
(* ================================================================== *)

(** X23. A click on the map while the graph in use has no node throws a
    [TypeError], whatever was picked before: there is no nearest node
    to put a marker on. *)
Theorem click_without_nodes (g : Ui.graph) (avoid : bool) (latlng : LatLng)
    (st : Ui.state) :
  Ui.nodes g = [] → Ui.click g avoid latlng st = Thrown TypeError.
Proof.
  intros Hnodes. unfold Ui.click. rewrite Hnodes. simpl.
  destruct (Ui.truthy (Ui.startId st)) eqn:Es; simpl.
  - destruct (Ui.truthy (Ui.endId st)) eqn:Ee; simpl; [done|].
    rewrite Es. simpl. by rewrite Ee.
  - by rewrite Es.
Qed.

Lemma click_without_nodes_witness :
  Ui.click (Ui.mkGraph [] []) true origin fresh_route = Thrown TypeError.
Proof. apply (click_without_nodes (Ui.mkGraph [] []) true origin fresh_route). reflexivity. Defined.

Lemma find_node_id nodes n :
  NoDup (Node.id <$> nodes) → n ∈ nodes →
  Ui.find_node nodes (Some (Node.id n)) = Some n.
Proof.
  intros Hnd Hn. unfold Ui.find_node.
  induction nodes as [|m nodes IH]; [by apply elem_of_nil in Hn|].
  rewrite fmap_cons in Hnd. apply NoDup_cons in Hnd as [Hm Hnd]. simpl.
  destruct (decide (Node.id m = Node.id n)) as [Heq|Hne].
  - rewrite bool_decide_eq_true_2 by done. f_equal.
    apply elem_of_cons in Hn as [->|Hn]; [done|]. exfalso. apply Hm.
    rewrite Heq. apply list_elem_of_fmap. eauto.
  - rewrite bool_decide_eq_false_2 by done. apply IH; [done|].
    apply elem_of_cons in Hn as [->|Hn]; done.
Qed.

Lemma find_node_elem nodes id n :
  Ui.find_node nodes (Some id) = Some n → n ∈ nodes ∧ Node.id n = id.
Proof.
  unfold Ui.find_node. induction nodes as [|m nodes IH]; [done|]. simpl.
  destruct (decide (Node.id m = id)) as [Heq|Hne].
  - rewrite bool_decide_eq_true_2 by done. intros [= ->]. split; [set_solver|done].
  - rewrite bool_decide_eq_false_2 by done. intros Hf.
    destruct (IH Hf) as [? ?]. split; [set_solver|done].
Qed.

Lemma find_node_is_Some nodes id :
  id ∈ Node.id <$> nodes → is_Some (Ui.find_node nodes (Some id)).
Proof.
  unfold Ui.find_node. induction nodes as [|m nodes IH].
  - intros Hin. by apply elem_of_nil in Hin.
  - rewrite fmap_cons. simpl. destruct (decide (Node.id m = id)) as [Heq|Hne].
    + rewrite bool_decide_eq_true_2 by done. eauto.
    + rewrite bool_decide_eq_false_2 by done. intros Hin. apply IH. set_solver.
Qed.

(** The points of a path whose nodes are nodes of the graph. *)
Lemma path_points_from nodes path acc :
  (∀ id, id ∈ path → id ∈ Node.id <$> nodes) →
  ∃ pts,
    for_each (λ acc id,
                match Ui.find_node nodes (Some id) with
                | Some n => Returned (acc ++ [mkLatLng (Node.lat n) (Node.lng n)])
                | None => Thrown TypeError
                end) path acc = Returned (acc ++ pts) ∧
    Forall2 (λ id p, ∃ n, n ∈ nodes ∧ Node.id n = id ∧ p = point_of n) path pts.
Proof.
  revert acc. induction path as [|id path IH]; intros acc Hin.
  - exists []. rewrite app_nil_r. split; [done|constructor].
  - destruct (find_node_is_Some nodes id) as [n Hn]; [apply Hin; set_solver|].
    cbn [for_each]. rewrite Hn. cbn [mbind outcome_bind].
    destruct (IH (acc ++ [mkLatLng (Node.lat n) (Node.lng n)])) as (pts & Hpts & Hall).
    { intros; apply Hin; set_solver. }
    exists (mkLatLng (Node.lat n) (Node.lng n) :: pts). split.
    + rewrite Hpts. by rewrite <- app_assoc.
    + constructor; [|done]. apply find_node_elem in Hn as [? ?]. by exists n.
Qed.

Lemma path_points_returns nodes path :
  (∀ id, id ∈ path → id ∈ Node.id <$> nodes) →
  ∃ pts,
    Ui.path_points nodes path = Returned pts ∧
    Forall2 (λ id p, ∃ n, n ∈ nodes ∧ Node.id n = id ∧ p = point_of n) path pts.
Proof. intros Hin. by apply (path_points_from nodes path []). Qed.

(** The node a click selects. *)
Lemma nearest_node (latlng : LatLng) (nodes : list Node.t) :
  in_range latlng → Forall (λ n, in_range (point_of n)) nodes → nodes ≠ [] →
  NoDup (Node.id <$> nodes) →
  ∃ n, n ∈ nodes ∧
       nearestNodeId latlng nodes = Returned (Some (Node.id n)) ∧
       Ui.find_node nodes (Some (Node.id n)) = Some n.
Proof.
  intros Hp Hnodes Hne Hnd. rewrite Forall_forall in Hnodes.
  unfold nearestNodeId, nearestNodeId_with.
  change (λ n, haversine latlng (mkLatLng (Node.lat n) (Node.lng n)))
    with (dist_to latlng).
  destruct (Nearest.scan (dist_to latlng) nodes).1 as [i|] eqn:Ei.
  - destruct (scan_Some (dist_to latlng) nodes i Ei) as (n & Hn & <- & _).
    exists n. split_and!; [done|done|by apply find_node_id].
  - exfalso. destruct nodes as [|n nodes]; [done|].
    destruct (scan_None (dist_to latlng) _ Ei) as [_ Hall].
    specialize (Hall n ltac:(set_solver)).
    unfold dist_to in Hall. rewrite haversine_finite in Hall; [done|done|].
    apply (Hnodes n). set_solver.
Qed.

Lemma show_route_unfold g avoid st s t r :
  Ui.startId st = Some s → Ui.endId st = Some t →
  App.dijkstra (Ui.adjacency g) s t (Ui.route_opts avoid) = Returned r →
  Ui.show_route g avoid st =
  if bool_decide (path r = []) || negb (Ui.is_finite (distance r))
  then
    Returned (Ui.mkState (Ui.startId st) (Ui.endId st) (Ui.startMarker st)
                (Ui.endMarker st) None "No route found between selected points." Ui.Dash)
  else
    latlngs ← Ui.path_points (Ui.nodes g) (path r);
    Returned (Ui.updateStatus
                (Ui.path_status (path r)
                   "Click anywhere to start a new route, or use Reset.")
                (Ui.setDistance (distance r) (Ui.drawRoutePolyline latlngs st))).
Proof.
  intros Hs Ht Hr. unfold Ui.show_route. destruct st; simpl in *. subst.
  simpl. by rewrite Hr.
Qed.

Lemma truthy_Some s : s ≠ "" → Ui.truthy (Some s) = true.
Proof. intros Hs. simpl. by rewrite bool_decide_eq_false_2. Qed.

(** X24. The click after the start was picked, on a graph whose keys are
    the ids of its nodes, distinct and not empty, with nodes in range:
    the nearest node becomes the end and gets the marker, and the route
    from the start to it is computed.  If [dijkstra] returns no path,
    the status says that no route was found, the distance shows the
    dash and no line is drawn; otherwise the line goes through the
    points of the nodes of the path, the distance shown is the distance
    returned, a finite number, and the status gives the number of
    edges. *)
Theorem click_picks_end (g : Ui.graph) (avoid : bool) (latlng : LatLng)
    (st : Ui.state) (s : string) :
  Ui.startId st = Some s → s ≠ "" → s ∈ keys (Ui.adjacency g) →
  Ui.truthy (Ui.endId st) = false →
  in_range latlng → Forall (λ n, in_range (point_of n)) (Ui.nodes g) →
  Ui.nodes g ≠ [] →
  NoDup (Node.id <$> Ui.nodes g) → Forall (λ n, Node.id n ≠ "") (Ui.nodes g) →
  keys (Ui.adjacency g) = Node.id <$> Ui.nodes g →
  ∃ n r st',
    n ∈ Ui.nodes g ∧
    nearestNodeId latlng (Ui.nodes g) = Returned (Some (Node.id n)) ∧
    App.dijkstra (Ui.adjacency g) s (Node.id n) (Ui.route_opts avoid) = Returned r ∧
    Ui.click g avoid latlng st = Returned st' ∧
    Ui.startId st' = Some s ∧ Ui.startMarker st' = Ui.startMarker st ∧
    Ui.endId st' = Some (Node.id n) ∧
    Ui.endMarker st' = Some (Ui.mkMarker (Node.lat n) (Node.lng n) "End") ∧
    ((path r = [] ∧ Ui.routeLine st' = None ∧ Ui.distanceText st' = Ui.Dash ∧
      Ui.status st' = "No route found between selected points.") ∨
     (∃ d pts,
        path r ≠ [] ∧ distance r = Some (Fin d) ∧
        Ui.distanceText st' = Ui.Meters d ∧ Ui.routeLine st' = Some pts ∧
        Forall2 (λ id p, ∃ m, m ∈ Ui.nodes g ∧ Node.id m = id ∧ p = point_of m)
                (path r) pts ∧
        Ui.status st' =
          Ui.path_status (path r) "Click anywhere to start a new route, or use Reset.")).
Proof.
  intros Hstart Hs Hkey Hend Hp Hnodes Hne Hnd Hids Hkeys.
  destruct (nearest_node latlng (Ui.nodes g) Hp Hnodes Hne Hnd) as (n & Hn & Hnear & Hfind).
  assert (Node.id n ≠ "") as Hid by (rewrite Forall_forall in Hids; by apply Hids).
  destruct (dijkstra_facts (Ui.adjacency g) s (Node.id n) (Ui.route_opts avoid))
    as (r & Hr & _ & _ & Hcases & Hin).
  destruct (Hin Hkey) as (Hpath & _).
  set (st1 := Ui.mkState (Some s) (Some (Node.id n)) (Ui.startMarker st)
                (Some (Ui.mkMarker (Node.lat n) (Node.lng n) "End"))
                (Ui.routeLine st) (Ui.status st) (Ui.distanceText st)).
  assert (Ui.click g avoid latlng st = Ui.show_route g avoid st1) as Hclick.
  { unfold Ui.click. rewrite Hnear. cbn [mbind outcome_bind]. rewrite Hfind.
    rewrite Hend, andb_false_r. rewrite Hstart, (truthy_Some s Hs). cbn [negb].
    unfold Ui.pick_end. rewrite ?Hend. cbn [negb mbind outcome_bind Ui.startId Ui.endId].
    by rewrite Hstart, (truthy_Some s Hs), (truthy_Some _ Hid). }
  exists n, r. rewrite Hclick.
  rewrite (show_route_unfold g avoid st1 s (Node.id n) r eq_refl eq_refl Hr).
  destruct Hcases as [(Hempty & _ & Hinf)|(w & Hw & Hpw & Hd & _)].
  - rewrite bool_decide_eq_true_2 by done. cbn [orb].
    eexists. split_and!; try done. left. done.
  - assert (path r ≠ []) as Hnonempty by (rewrite Hpw; done).
    pose proof (code_cost_walk_cost (App.avoid_of (Ui.route_opts avoid))
                  (App.factor_given (Ui.route_opts avoid)) w) as E.
    rewrite E, walk_cost_real in Hd.
    rewrite bool_decide_eq_false_2 by done. rewrite Hd. cbn [orb Ui.is_finite negb].
    destruct (path_points_returns (Ui.nodes g) (path r)) as (pts & Hpts & Hall).
    { intros id Hin'. rewrite <- Hkeys. by apply Hpath. }
    rewrite Hpts. cbn [mbind outcome_bind].
    eexists. split_and!; try done. right. eexists _, pts. split_and!; try done.
Qed.

Lemma hamlet_in_range : Forall (λ n, in_range (point_of n)) (Ui.nodes hamlet).
Proof. repeat constructor; unfold in_range; simpl; lra. Qed.

Lemma hamlet_ids : NoDup (Node.id <$> Ui.nodes hamlet).
Proof.
  simpl. apply NoDup_cons. split; [|apply NoDup_singleton].
  intros Hin. apply list_elem_of_singleton in Hin. discriminate Hin.
Qed.

Lemma hamlet_ids_truthy : Forall (λ n, Node.id n ≠ "") (Ui.nodes hamlet).
Proof. repeat constructor; discriminate. Qed.

Lemma click_picks_end_witness :
  ∃ n r st',
    n ∈ Ui.nodes hamlet ∧
    nearestNodeId origin (Ui.nodes hamlet) = Returned (Some (Node.id n)) ∧
    App.dijkstra (Ui.adjacency hamlet) "east" (Node.id n) (Ui.route_opts true) = Returned r ∧
    Ui.click hamlet true origin start_picked = Returned st' ∧
    Ui.endId st' = Some (Node.id n).
Proof.
  destruct (click_picks_end hamlet true origin start_picked "east")
    as (n & r & st' & Hn & Hnear & Hr & Hclick & _ & _ & Hend & _).
  - reflexivity.
  - discriminate.
  - unfold keys. simpl. repeat constructor.
  - reflexivity.
  - apply in_range_origin.
  - apply hamlet_in_range.
  - discriminate.
  - apply hamlet_ids.
  - apply hamlet_ids_truthy.
  - reflexivity.
  - exists n, r, st'. split_and!; [exact Hn|exact Hnear|exact Hr|exact Hclick|exact Hend].
Defined.

(** X25. The click after a route was completed starts over: what was
    picked and shown is cleared, and the nearest node becomes the new
    start, with its marker; the end is open again. *)
Theorem click_starts_over (g : Ui.graph) (avoid : bool) (latlng : LatLng)
    (st : Ui.state) :
  Ui.truthy (Ui.startId st) = true → Ui.truthy (Ui.endId st) = true →
  in_range latlng → Forall (λ n, in_range (point_of n)) (Ui.nodes g) →
  Ui.nodes g ≠ [] → NoDup (Node.id <$> Ui.nodes g) →
  ∃ n,
    n ∈ Ui.nodes g ∧
    nearestNodeId latlng (Ui.nodes g) = Returned (Some (Node.id n)) ∧
    Ui.click g avoid latlng st =
      Returned (Ui.mkState (Some (Node.id n)) None
                  (Some (Ui.mkMarker (Node.lat n) (Node.lng n) "Start")) None None
                  "Now click to choose the destination." Ui.Dash).
Proof.
  intros Hs He Hp Hnodes Hne Hnd.
  destruct (nearest_node latlng (Ui.nodes g) Hp Hnodes Hne Hnd) as (n & Hn & Hnear & Hfind).
  exists n. split_and!; [done|done|].
  unfold Ui.click. rewrite Hnear. cbn [mbind outcome_bind]. rewrite Hfind.
  rewrite Hs, He. done.
Qed.

Lemma click_starts_over_witness :
  ∃ n,
    n ∈ Ui.nodes hamlet ∧
    nearestNodeId origin (Ui.nodes hamlet) = Returned (Some (Node.id n)) ∧
    Ui.click hamlet true origin both_picked =
      Returned (Ui.mkState (Some (Node.id n)) None
                  (Some (Ui.mkMarker (Node.lat n) (Node.lng n) "Start")) None None
                  "Now click to choose the destination." Ui.Dash).
Proof.
  apply (click_starts_over hamlet true origin both_picked).
  - reflexivity.
  - reflexivity.
  - apply in_range_origin.
  - apply hamlet_in_range.
  - discriminate.
  - apply hamlet_ids.
Defined.

(** X26. A start that was picked on another graph stays picked when the
    graph is replaced.  On a graph with at least one node, whose nodes
    are in range and have distinct, non-empty ids that are the keys of
    its adjacency: if the start is a non-empty id that is no key of
    this graph and no end is picked, a click in range picks the nearest
    node as the end, with its marker, and finds no route: the status
    says so, the distance shows the dash and no line is drawn. *)
Theorem click_with_stale_start (g : Ui.graph) (avoid : bool) (latlng : LatLng)
    (st : Ui.state) (s : string) :
  Ui.startId st = Some s → s ≠ "" → s ∉ keys (Ui.adjacency g) →
  Ui.truthy (Ui.endId st) = false →
  in_range latlng → Forall (λ n, in_range (point_of n)) (Ui.nodes g) →
  Ui.nodes g ≠ [] →
  NoDup (Node.id <$> Ui.nodes g) → Forall (λ n, Node.id n ≠ "") (Ui.nodes g) →
  keys (Ui.adjacency g) = Node.id <$> Ui.nodes g →
  ∃ n,
    n ∈ Ui.nodes g ∧
    nearestNodeId latlng (Ui.nodes g) = Returned (Some (Node.id n)) ∧
    Ui.click g avoid latlng st =
      Returned (Ui.mkState (Some s) (Some (Node.id n)) (Ui.startMarker st)
                  (Some (Ui.mkMarker (Node.lat n) (Node.lng n) "End")) None
                  "No route found between selected points." Ui.Dash).
Proof.
  intros Hstart Hs Hkey Hend Hp Hnodes Hne Hnd Hids Hkeys.
  destruct (nearest_node latlng (Ui.nodes g) Hp Hnodes Hne Hnd) as (n & Hn & Hnear & Hfind).
  assert (Node.id n ≠ "") as Hid by (rewrite Forall_forall in Hids; by apply Hids).
  assert (Node.id n ≠ s) as Hneq.
  { intros Heq. apply Hkey. rewrite Hkeys, <- Heq. apply list_elem_of_fmap. eauto. }
  destruct (unknown_start_no_path (Ui.adjacency g) s (Node.id n) (Ui.route_opts avoid)
              Hkey Hneq) as (r & Hr & Hpath & _).
  set (st1 := Ui.mkState (Some s) (Some (Node.id n)) (Ui.startMarker st)
                (Some (Ui.mkMarker (Node.lat n) (Node.lng n) "End"))
                (Ui.routeLine st) (Ui.status st) (Ui.distanceText st)).
  assert (Ui.click g avoid latlng st = Ui.show_route g avoid st1) as Hclick.
  { unfold Ui.click. rewrite Hnear. cbn [mbind outcome_bind]. rewrite Hfind.
    rewrite Hend, andb_false_r. rewrite Hstart, (truthy_Some s Hs). cbn [negb].
    unfold Ui.pick_end. rewrite ?Hend. cbn [negb mbind outcome_bind Ui.startId Ui.endId].
    by rewrite Hstart, (truthy_Some s Hs), (truthy_Some _ Hid). }
  exists n. split_and!; [done|done|]. rewrite Hclick.
  rewrite (show_route_unfold g avoid st1 s (Node.id n) r eq_refl eq_refl Hr).
  by rewrite bool_decide_eq_true_2.
Qed.

Lemma click_with_stale_start_witness :
  ∃ n,
    n ∈ Ui.nodes hamlet ∧
    nearestNodeId origin (Ui.nodes hamlet) = Returned (Some (Node.id n)) ∧
    Ui.click hamlet true origin stale_start =
      Returned (Ui.mkState (Some "12") (Some (Node.id n)) (Ui.startMarker stale_start)
                  (Some (Ui.mkMarker (Node.lat n) (Node.lng n) "End")) None
                  "No route found between selected points." Ui.Dash).
Proof.
  apply (click_with_stale_start hamlet true origin stale_start "12").
  - reflexivity.
  - discriminate.
  - unfold keys. simpl. intros Hin.
    repeat (apply elem_of_cons in Hin as [Hin|Hin]; [discriminate Hin|]).
    by apply elem_of_nil in Hin.
  - reflexivity.
  - apply in_range_origin.
  - apply hamlet_in_range.
  - discriminate.
  - apply hamlet_ids.
  - apply hamlet_ids_truthy.
  - reflexivity.
Defined.

(* ================================================================== *)
(** * app.js: the box of [avoidUnpaved] *)
(* ================================================================== *)

Lemma avoid_changed_unfold g avoid st s t r :
  Ui.startId st = Some s → Ui.endId st = Some t → s ≠ "" → t ≠ "" →
  App.dijkstra (Ui.adjacency g) s t (Ui.route_opts avoid) = Returned r →
  Ui.avoid_changed g avoid st =
  if negb (bool_decide (path r = []))
  then
    latlngs ← Ui.path_points (Ui.nodes g) (path r);
    Returned (Ui.mkState (Some s) (Some t) (Ui.startMarker st) (Ui.endMarker st)
                (Some latlngs) (Ui.path_status (path r) "Distance shown below.")
                (match distance r with
                 | Some (Fin x) => Ui.Meters x
                 | _ => Ui.Dash
                 end))
  else
    Returned (Ui.mkState (Some s) (Some t) (Ui.startMarker st) (Ui.endMarker st) None
                (Ui.status st) (Ui.distanceText st)).
Proof.
  intros Hs Ht Hs' Ht' Hr. unfold Ui.avoid_changed. rewrite Hs, Ht.
  rewrite (truthy_Some s Hs'), (truthy_Some t Ht'). simpl. rewrite Hr. simpl.
  destruct (bool_decide (path r = [])); [done|]. simpl.
  by destruct (Ui.path_points (Ui.nodes g) (path r)).
Qed.

(** X27. With both ends picked on a graph whose keys are the ids of its
    nodes, and with non-negative weights, changing the box of
    [avoidUnpaved] computes the route again under the new setting.  If
    [dijkstra] returns a path, the line goes through the points of the
    nodes of the path, the distance shown is the distance returned, a
    finite number, and the status gives the number of edges; if it
    returns no path, the line is removed and the status and the
    distance stay as they were.  When a route is shown with the box
    checked, one is shown with the box not checked as well, and the
    distance returned for it is not larger. *)
Theorem avoid_changed_distance (g : Ui.graph) (st : Ui.state) (s t : string) :
  Ui.startId st = Some s → Ui.endId st = Some t → s ≠ "" → t ≠ "" →
  weights_nonneg (Ui.adjacency g) →
  s ∈ keys (Ui.adjacency g) → t ∈ keys (Ui.adjacency g) →
  keys (Ui.adjacency g) = Node.id <$> Ui.nodes g →
  ∃ r0 r1,
    App.dijkstra (Ui.adjacency g) s t (Ui.route_opts false) = Returned r0 ∧
    App.dijkstra (Ui.adjacency g) s t (Ui.route_opts true) = Returned r1 ∧
    (∀ avoid r,
       App.dijkstra (Ui.adjacency g) s t (Ui.route_opts avoid) = Returned r →
       ∃ st',
         Ui.avoid_changed g avoid st = Returned st' ∧
         Ui.startId st' = Some s ∧ Ui.endId st' = Some t ∧
         Ui.startMarker st' = Ui.startMarker st ∧ Ui.endMarker st' = Ui.endMarker st ∧
         ((path r = [] ∧ Ui.routeLine st' = None ∧
           Ui.status st' = Ui.status st ∧ Ui.distanceText st' = Ui.distanceText st) ∨
          (∃ d pts,
             path r ≠ [] ∧ distance r = Some (Fin d) ∧
             Ui.routeLine st' = Some pts ∧
             Forall2 (λ id p, ∃ m, m ∈ Ui.nodes g ∧ Node.id m = id ∧ p = point_of m)
                     (path r) pts ∧
             Ui.distanceText st' = Ui.Meters d ∧
             Ui.status st' = Ui.path_status (path r) "Distance shown below."))) ∧
    (path r1 ≠ [] →
     ∃ d0 d1, path r0 ≠ [] ∧ distance r0 = Some (Fin d0) ∧
              distance r1 = Some (Fin d1) ∧ (d0 <= d1)%R).
Proof.
  intros Hs Ht Hs' Ht' Hw Hsk Htk Hkeys.
  assert (∀ avoid r,
            App.dijkstra (Ui.adjacency g) s t (Ui.route_opts avoid) = Returned r →
            (∀ x, x ∈ path r → x ∈ keys (Ui.adjacency g)) ∧
            ((path r = [] ∧ ∀ d, distance r = Some d → below_infinity d = false) ∨
             (path r ≠ [] ∧ ∃ d, distance r = Some (Fin d)))) as Hfacts.
  { intros avoid r Hr.
    destruct (dijkstra_facts (Ui.adjacency g) s t (Ui.route_opts avoid))
      as (r' & Hr' & _ & _ & Hcases & Hin).
    assert (r' = r) as -> by congruence.
    split; [by apply Hin|].
    destruct Hcases as [(Hempty & _ & Hinf)|(w & _ & Hpw & Hd & _)]; [by left|right].
    split; [by rewrite Hpw|].
    pose proof (code_cost_walk_cost (App.avoid_of (Ui.route_opts avoid))
                  (App.factor_given (Ui.route_opts avoid)) w) as E.
    rewrite E, walk_cost_real in Hd. eauto. }
  destruct (penalty_le (Ui.adjacency g) s t (Ui.route_opts false) (Ui.route_opts true))
    as (r0 & r1 & d0 & d1 & Hr0 & Hr1 & Hd0 & Hd1 & Hle); try done.
  { apply R_le_iff. change (App.factor_given (Ui.route_opts false)) with 3%R.
    change (num1 : R) with 1%R. lra. }
  { apply R_le_iff. change (App.factor_given (Ui.route_opts true)) with 3%R.
    change (num1 : R) with 1%R. lra. }
  exists r0, r1. split; [done|]. split; [done|]. split.
  - intros avoid r Hr. destruct (Hfacts avoid r Hr) as [Hpk Hcases].
    rewrite (avoid_changed_unfold g avoid st s t r Hs Ht Hs' Ht' Hr).
    destruct Hcases as [[Hempty _]|[Hne [d Hd]]].
    + rewrite bool_decide_eq_true_2 by done. cbn [negb].
      eexists. split; [done|]. cbn. split_and!; try done. by left.
    + rewrite bool_decide_eq_false_2 by done. cbn [negb].
      destruct (path_points_returns (Ui.nodes g) (path r)) as (pts & Hpts & Hall).
      { intros id Hid. rewrite <- Hkeys. by apply Hpk. }
      rewrite Hpts. cbn [mbind outcome_bind]. rewrite Hd.
      eexists. split; [done|]. cbn. split_and!; try done.
      right. by exists d, pts.
  - intros Hne1.
    destruct (Hfacts true r1 Hr1) as [_ [[Hempty _]|[_ [x1 Hx1]]]]; [done|].
    rewrite Hd1 in Hx1. injection Hx1 as ->.
    destruct (Hfacts false r0 Hr0) as [_ [[_ Hinf]|[Hne0 [x0 Hx0]]]].
    + specialize (Hinf d0 Hd0).
      by rewrite (js_le_below d0 (Fin x1) Hle eq_refl) in Hinf.
    + rewrite Hd0 in Hx0. injection Hx0 as ->.
      exists x0, x1. split_and!; try done. by apply js_le_Fin, R_le_iff in Hle.
Qed.

Lemma avoid_changed_distance_witness :
  ∃ r0 r1,
    App.dijkstra (Ui.adjacency hamlet) "east" "here" (Ui.route_opts false) = Returned r0 ∧
    App.dijkstra (Ui.adjacency hamlet) "east" "here" (Ui.route_opts true) = Returned r1 ∧
    (path r1 ≠ [] →
     ∃ d0 d1, path r0 ≠ [] ∧ distance r0 = Some (Fin d0) ∧
              distance r1 = Some (Fin d1) ∧ (d0 <= d1)%R).
Proof.
  destruct (avoid_changed_distance hamlet both_picked "east" "here")
    as (r0 & r1 & Hr0 & Hr1 & _ & Hle).
  - reflexivity.
  - reflexivity.
  - discriminate.
  - discriminate.
  - repeat constructor; simpl; apply R_le_iff; lra.
  - unfold keys. simpl. repeat constructor.
  - unfold keys. simpl. repeat constructor.
  - reflexivity.
  - exists r0, r1. split; [exact Hr0|]. split; [exact Hr1|exact Hle].
Defined.

(* ================================================================== *)
(** * app.js: drawing the graph *)
(* ================================================================== *)

Lemma draw_edges_from nodes edges layer :
  NoDup (Node.id <$> nodes) →
  (∀ e, e ∈ edges → Edge.from e ∈ Node.id <$> nodes ∧ Edge.to e ∈ Node.id <$> nodes) →
  ∃ lines,
    fold_left (Ui.draw_edge nodes) edges layer = layer ++ lines ∧
    Forall2 (λ e sh, ∃ a b, a ∈ nodes ∧ b ∈ nodes ∧
                            Node.id a = Edge.from e ∧ Node.id b = Edge.to e ∧
                            sh = Ui.Polyline (point_of a) (point_of b)
                                   (Ui.edge_color (Edge.unpaved e)))
            edges lines.
Proof.
  intros Hnd. revert layer. induction edges as [|e edges IH]; intros layer Hends.
  - exists []. rewrite app_nil_r. split; [done|constructor].
  - destruct (Hends e) as [Hfrom Hto]; [set_solver|].
    destruct (find_node_is_Some nodes _ Hfrom) as [a Ha].
    destruct (find_node_is_Some nodes _ Hto) as [b Hb].
    cbn [fold_left]. unfold Ui.draw_edge at 2. rewrite Ha, Hb.
    destruct (IH (layer ++ [Ui.Polyline (point_of a) (point_of b)
                              (Ui.edge_color (Edge.unpaved e))]))
      as (lines & Hlines & Hall).
    { intros; apply Hends; set_solver. }
    eexists (_ :: lines). split.
    + rewrite Hlines. by rewrite <- app_assoc.
    + constructor; [|done]. apply find_node_elem in Ha as [? ?].
      apply find_node_elem in Hb as [? ?]. by exists a, b.
Qed.

Lemma draw_nodes_from (nodes : list Node.t) (layer : list Ui.Shape) :
  fold_left (λ layer n, layer ++ [Ui.CircleMarker (point_of n)]) nodes layer
  = layer ++ ((λ n, Ui.CircleMarker (point_of n)) <$> nodes).
Proof.
  revert layer. induction nodes as [|n nodes IH]; intros layer; simpl.
  - by rewrite app_nil_r.
  - by rewrite IH, <- app_assoc.
Qed.

(** The graphs of the builders: distinct ids, and edges between nodes. *)
Lemma built_graph_ends {C} `{NumOps C} (g : Graph.t) :
  (∃ center r c delta,
     buildGridGraph center (Some r) (Some c) (Some delta) = Returned g) ∨
  (∃ (bounds : Bounds.t C) options fetched,
     fetchRoadGraph bounds options fetched = Returned g) →
  NoDup (Node.id <$> Graph.nodes g) ∧
  ∀ e, e ∈ Graph.edges g →
       Edge.from e ∈ Node.id <$> Graph.nodes g ∧ Edge.to e ∈ Node.id <$> Graph.nodes g.
Proof.
  intros [(center & r & c & delta & Hg)|(bounds & options & fetched & Hg)].
  - destruct (grid_built center r c delta) as (adjacency & Hg' & _).
    rewrite Hg' in Hg. injection Hg as <-. cbn [Graph.nodes Graph.edges].
    split; [apply grid_ids_NoDup|].
    intros e (i & j & i' & j' & Hi & Hj & Hq & ->)%elem_of_grid_edges.
    apply elem_of_neighbor_cells in Hq as (Hi' & Hj' & _); [|done|done].
    split; by apply grid_id_elem_of.
  - assert (∃ elements, Osm.parse elements = Returned g) as [elements Hparse].
    { destruct (too_large_dec bounds options) as [Hgt|Hle];
        [by rewrite (guard_failed _ _ _ Hgt) in Hg|].
      rewrite (guard_passed _ _ _ Hle) in Hg.
      destruct fetched as [resp| |]; [|done|done]. simpl in Hg.
      destruct (negb (Response.ok resp)); [done|].
      destruct (Response.json resp) as [data| |]; [|done|done]. simpl in Hg. eauto. }
    destruct (parse_spec elements) as (adjacency & Hg' & _).
    rewrite Hg' in Hparse. injection Hparse as <-. cbn [Graph.nodes Graph.edges].
    assert (Node.id <$> (node_of <$> parsed_nodes elements)
            = node_id <$> (parsed_nodes elements).*1) as Hids.
    { rewrite <- !list_fmap_compose. by apply list_fmap_ext. }
    rewrite Hids. split.
    + apply NoDup_fmap_2; [apply node_id_inj|apply parsed_nodes_NoDup].
    + intros e (way & _ & He)%elem_of_flat_map.
      destruct (way_edges_ends _ way e He) as (a & b & Ha & Hb & -> & ->).
      split; apply list_elem_of_fmap; eauto.
Qed.

(** X28. Drawing a graph that [buildGridGraph] or [fetchRoadGraph]
    returned leaves out no edge: the layer holds one line for each edge,
    in the order of the edges, between the points of the two nodes the
    edge joins and in the colour for its flag, and then one dot for each
    node. *)
Theorem render_built_graph {C} `{NumOps C} (g : Graph.t) :
  (∃ center r c delta,
     buildGridGraph center (Some r) (Some c) (Some delta) = Returned g) ∨
  (∃ (bounds : Bounds.t C) options fetched,
     fetchRoadGraph bounds options fetched = Returned g) →
  ∃ lines,
    Ui.renderGraph g = lines ++ ((λ n, Ui.CircleMarker (point_of n)) <$> Graph.nodes g) ∧
    Forall2 (λ e sh, ∃ a b, a ∈ Graph.nodes g ∧ b ∈ Graph.nodes g ∧
                            Node.id a = Edge.from e ∧ Node.id b = Edge.to e ∧
                            sh = Ui.Polyline (point_of a) (point_of b)
                                   (Ui.edge_color (Edge.unpaved e)))
            (Graph.edges g) lines ∧
    length (Ui.renderGraph g) = length (Graph.edges g) + length (Graph.nodes g).
Proof.
  intros Hbuilt. destruct (built_graph_ends g Hbuilt) as [Hnd Hends].
  destruct (draw_edges_from (Graph.nodes g) (Graph.edges g) [] Hnd Hends)
    as (lines & Hlines & Hall).
  exists lines. unfold Ui.renderGraph. rewrite Hlines, draw_nodes_from. simpl.
  split_and!; [done|done|].
  rewrite length_app, length_fmap. by rewrite (Forall2_length _ _ _ Hall).
Qed.

Lemma render_built_graph_witness :
  ∃ g lines,
    buildGridGraph greenwich (Some 2) (Some 2) (Some (2 / 1000)%R) = Returned g ∧
    Ui.renderGraph g = lines ++ ((λ n, Ui.CircleMarker (point_of n)) <$> Graph.nodes g) ∧
    length (Ui.renderGraph g) = length (Graph.edges g) + length (Graph.nodes g).
Proof.
  destruct (grid_built greenwich 2 2 (2 / 1000)%R) as (adjacency & Hg & _).
  eexists.
  edestruct (render_built_graph) as (lines & Hlines & _ & Hlen).
  - left. exists greenwich, 2, 2, (2 / 1000)%R. exact Hg.
  - exists lines. split; [exact Hg|]. split; [exact Hlines|exact Hlen].
Defined.
